(** * LibCallsShrinkWrap: conditional elimination of dead library calls

    A shallow embedding of [lib/Transforms/Utils/LibCallsShrinkWrap.cpp].
    The pass wraps a math library call whose result is unused in a
    conditional block, guarded by a predicate over the call's argument
    that holds whenever the call may set [errno].

    The embedding follows the C++ file function by function.  The pass
    object, the function body it rewrites and the two statistics counters
    form an explicit state; the checks the code (and the IR interface it
    calls) performs are modelled by an error result. *)

From Stdlib Require Import ZArith NArith List Bool String Lia.
From Stdlib Require Import Floats.SpecFloat.
Import ListNotations.
Local Open Scope Z_scope.

(* ================================================================== *)
(** ** Floating-point values *)

(** Values of the three IEEE formats are [spec_float]s in canonical form of
    the format: [SFcompare] compares canonical values of one format. *)

Inductive Type_ :=
| FloatTy
| DoubleTy
| X86_FP80Ty
| IntegerTy (bits : N)
| OtherTy (n : N).

Definition Type_eqb (a b : Type_) : bool :=
  match a, b with
  | FloatTy, FloatTy | DoubleTy, DoubleTy | X86_FP80Ty, X86_FP80Ty => true
  | IntegerTy n, IntegerTy m => N.eqb n m
  | OtherTy n, OtherTy m => N.eqb n m
  | _, _ => false
  end.

Definition isFloatTy (t : Type_) : bool :=
  match t with FloatTy => true | _ => false end.
Definition isDoubleTy (t : Type_) : bool :=
  match t with DoubleTy => true | _ => false end.
Definition isX86_FP80Ty (t : Type_) : bool :=
  match t with X86_FP80Ty => true | _ => false end.

(** Modelled from the spec: [Type::getPrimitiveSizeInBits] is not part of
    this file; the bit width of a primitive type. *)
Definition getPrimitiveSizeInBits (t : Type_) : N :=
  match t with
  | FloatTy => 32
  | DoubleTy => 64
  | X86_FP80Ty => 80
  | IntegerTy n => n
  | OtherTy _ => 0
  end%N.

(** Precision and exponent bound of a floating-point type. *)
Definition fltSemantics (t : Type_) : option (Z * Z) :=
  match t with
  | FloatTy => Some (24, 128)
  | DoubleTy => Some (53, 1024)
  | X86_FP80Ty => Some (64, 16384)
  | _ => None
  end.

(** A C++ [float] literal with an integral value, [-1.0f], [709.0f], ... *)
Definition float_lit (z : Z) : spec_float := binary_normalize 24 128 z 0 false.
Definition INFINITY : spec_float := S754_infinity false.

(** Exact change of format, as done by folding an [fpext] of a constant. *)
Definition convert (prec emax : Z) (v : spec_float) : spec_float :=
  match v with
  | S754_finite s m e => binary_round prec emax s m e
  | _ => v
  end.

(** The value of the integer [z] in the format of type [t]. *)
Definition fp_of_Z (t : Type_) (z : Z) : spec_float :=
  match fltSemantics t with
  | Some (prec, emax) => binary_normalize prec emax z 0 false
  | None => S754_nan
  end.

(* ================================================================== *)
(** ** Library function identities *)

Module LibFunc.

(** The enumerators of [LibFunc::Func] that the pass names.  The
    enumeration is declared elsewhere (TargetLibraryInfo.def) and has many
    more members; those are kept by their numeric value, [other v].  None
    of the math functions below opens the enumeration, so the enumerator
    of value 0 is [other 0]. *)
Inductive Func :=
| acos | acosf | acosl | asin | asinf | asinl
| cos | cosf | cosl | sin | sinf | sinl
| acosh | acoshf | acoshl
| sqrt | sqrtf | sqrtl
| cosh | coshf | coshl
| exp | expf | expl
| exp10 | exp10f | exp10l
| exp2 | exp2f | exp2l
| sinh | sinhf | sinhl
| expm1 | expm1f | expm1l
| atanh | atanhf | atanhl
| log | logf | logl
| log10 | log10f | log10l
| log2 | log2f | log2l
| logb | logbf | logbl
| log1p | log1pf | log1pl
| pow | powf | powl
| other (v : N).

(** The conversion to [bool] of an enumerator, as in [assert(Func)]: true
    unless the enumerator's value is 0. *)
Definition to_bool (f : Func) : bool :=
  match f with
  | other 0%N => false
  | _ => true
  end.

End LibFunc.

(* ================================================================== *)
(** ** IR values and instructions *)

Inductive Opcode :=
| UIToFP
| SIToFP
| OtherOpcode (n : N).

(** A [Value]: a floating constant, an instruction (with its operands), or
    anything else (function argument, global, constant expression...). *)
#[warnings="-register-all"]
Inductive Value :=
| ConstantFP (ty : Type_) (v : spec_float)
| Instruction (id : N) (op : Opcode) (ty : Type_) (operands : list Value)
| OtherValue (id : N) (ty : Type_).

Definition getType (v : Value) : Type_ :=
  match v with
  | ConstantFP ty _ => ty
  | Instruction _ _ ty _ => ty
  | OtherValue _ ty => ty
  end.

Inductive Predicate :=
| FCMP_OEQ
| FCMP_OGT
| FCMP_OGE
| FCMP_OLT
| FCMP_OLE.

(** The [i1] values the pass builds: ordered comparisons and their [or]. *)
Inductive Cond :=
| FCmp (p : Predicate) (lhs rhs : Value)
| Or (c1 c2 : Cond).

(** Run-time meaning: [rho] gives the value of everything that is not a
    constant. *)
Definition evalValue (rho : Value -> spec_float) (v : Value) : spec_float :=
  match v with
  | ConstantFP _ c => c
  | _ => rho v
  end.

Definition evalPredicate (p : Predicate) (x y : spec_float) : bool :=
  match p with
  | FCMP_OEQ => SFeqb x y
  | FCMP_OGT => SFltb y x
  | FCMP_OGE => SFleb y x
  | FCMP_OLT => SFltb x y
  | FCMP_OLE => SFleb x y
  end.

Fixpoint evalCond (rho : Value -> spec_float) (c : Cond) : bool :=
  match c with
  | FCmp p l r => evalPredicate p (evalValue rho l) (evalValue rho r)
  | Or c1 c2 => evalCond rho c1 || evalCond rho c2
  end.

(** A callee is known by its name. *)
Definition Function_ := string.

(** A call: its identity, whether it is marked as no-builtin, the number of
    uses of its result, the called function if the call is direct, and the
    arguments. *)
Record CallInst := mkCall {
  CIId : N;
  isNoBuiltin : bool;
  NumUses : nat;
  getCalledFunction : option Function_;
  ArgOperands : list Value
}.

Definition use_empty (CI : CallInst) : bool := Nat.eqb (NumUses CI) 0.

(** The instructions of a block: calls, the comparisons and ors the pass
    inserts, and the others. *)
Inductive Instr :=
| ICall (CI : CallInst)
| IFCmp (p : Predicate) (lhs rhs : Value)
| IOr (c1 c2 : Cond)
| IOther (id : N).

(** A block ends with a branch to [dest], a branch on [c] to [ifTrue] or
    [ifFalse], annotated or not with the weights of these two edges in this
    order, or another terminator. *)
Inductive Terminator :=
| Br (dest : N)
| CondBr (c : Cond) (ifTrue ifFalse : N) (prof : option (N * N))
| OtherTerm (id : N).

Record BasicBlock := mkBB {
  BBId : N;
  BBName : string;
  Insts : list Instr;
  Term : Terminator
}.

Record Function := mkFunction {
  OptimizeForSize : bool;
  Blocks : list BasicBlock
}.

(** Modelled from the spec: [TargetLibraryInfo] is not part of this file.
    It resolves a callee to a recognized function identity, if any, and
    tells whether a function is available on the target. *)
Record TargetLibraryInfo := mkTLI {
  getLibFunc : Function_ -> option LibFunc.Func;
  has : LibFunc.Func -> bool
}.

(** The three [cl::opt] toggles. *)
Record Options := mkOptions {
  LibCallsShrinkWrapDoDomainError : bool;
  LibCallsShrinkWrapDoRangeError : bool;
  LibCallsShrinkWrapDoPoleError : bool
}.

(* ================================================================== *)
(** ** State and failures *)

(** The checks that abort the compiler: the assertions and unreachable
    marks of the pass, and the checks of the IR interface it calls. *)
Inductive Check :=
| NullCallee          (* assert(Callee) in perform *)
| EmptyFunc           (* assert(Func) in perform *)
| UnreachableDefault  (* llvm_unreachable in the range generators *)
| EmptyCond           (* assert(Cond) in performCallErrors, shrinkWrapCI *)
| OperandOutOfBounds  (* getArgOperand, getOperand *)
| NotIEEEdouble       (* APFloat::convertToDouble *)
| InvalidCast         (* ConstantExpr::getFPExtend *)
| OperandTypeMismatch (* CreateFCmp *)
| NoParent.           (* an instruction or block that is not in the function *)

Inductive Res (A : Type) :=
| Ok (a : A)
| Fatal (c : Check).
Arguments Ok {A} a.
Arguments Fatal {A} c.

(** The pass object, the function it works on and the two statistics. *)
Record State := mkState {
  Fn : Function;
  WorkList : list CallInst;
  Changed : bool;
  NumWrappedOneCond : N;
  NumWrappedTwoCond : N
}.

Definition M (A : Type) : Type := State -> Res (A * State).

Definition ret {A} (a : A) : M A := fun s => Ok (a, s).
Definition bind {A B} (m : M A) (k : A -> M B) : M B :=
  fun s => match m s with
           | Ok (a, s') => k a s'
           | Fatal c => Fatal c
           end.
Definition fatal {A} (c : Check) : M A := fun _ => Fatal c.
Definition gets {A} (f : State -> A) : M A := fun s => Ok (f s, s).
Definition modify (f : State -> State) : M unit := fun s => Ok (tt, f s).

Declare Scope pass_scope.
Delimit Scope pass_scope with pass.
Notation "x <- c1 ;; c2" := (bind c1 (fun x => c2))
  (at level 100, c1 at next level, right associativity) : pass_scope.
Notation "c1 ;; c2" := (bind c1 (fun _ => c2))
  (at level 100, right associativity) : pass_scope.
Local Open Scope pass_scope.

Definition setBlocks (bs : list BasicBlock) (s : State) : State :=
  mkState (mkFunction (OptimizeForSize (Fn s)) bs) (WorkList s) (Changed s)
          (NumWrappedOneCond s) (NumWrappedTwoCond s).
Definition pushWorkList (CI : CallInst) (s : State) : State :=
  mkState (Fn s) (WorkList s ++ [CI]) (Changed s)
          (NumWrappedOneCond s) (NumWrappedTwoCond s).
Definition setChanged (s : State) : State :=
  mkState (Fn s) (WorkList s) true (NumWrappedOneCond s) (NumWrappedTwoCond s).
(** Modelled from the spec: the [Statistic] class is not part of this
    file.  A statistic is an unsigned counter of 32 bits; incrementing it
    wraps around, from 4294967295 to 0. *)
Definition increment (n : N) : N := (N.succ n mod 2 ^ 32)%N.

Definition incOneCond (s : State) : State :=
  mkState (Fn s) (WorkList s) (Changed s)
          (increment (NumWrappedOneCond s)) (NumWrappedTwoCond s).
Definition incTwoCond (s : State) : State :=
  mkState (Fn s) (WorkList s) (Changed s)
          (NumWrappedOneCond s) (increment (NumWrappedTwoCond s)).

(** An update of the function body that fails when its subject is not in
    the function. *)
Definition updBlocks (f : list BasicBlock -> option (list BasicBlock)) : M unit :=
  fun s => match f (Blocks (Fn s)) with
           | Some bs => Ok (tt, setBlocks bs s)
           | None => Fatal NoParent
           end.

(* ================================================================== *)
(** ** The IR interface *)

Definition isCall (id : N) (i : Instr) : bool :=
  match i with
  | ICall c => N.eqb (CIId c) id
  | _ => false
  end.

(** Where an instruction sits: the blocks before, its block, the
    instructions before and after it, the blocks after. *)
Record Loc := mkLoc {
  LBefore : list BasicBlock;
  LBlock : BasicBlock;
  LPre : list Instr;
  LInst : Instr;
  LPost : list Instr;
  LAfter : list BasicBlock
}.

Fixpoint splitInsts (id : N) (l : list Instr)
  : option (list Instr * Instr * list Instr) :=
  match l with
  | [] => None
  | i :: r =>
      if isCall id i then Some ([], i, r)
      else match splitInsts id r with
           | Some (pre, x, post) => Some (i :: pre, x, post)
           | None => None
           end
  end.

Fixpoint locate (id : N) (bs : list BasicBlock) : option Loc :=
  match bs with
  | [] => None
  | b :: r =>
      match splitInsts id (Insts b) with
      | Some (pre, x, post) => Some (mkLoc [] b pre x post r)
      | None =>
          match locate id r with
          | Some L => Some (mkLoc (b :: LBefore L) (LBlock L) (LPre L)
                                  (LInst L) (LPost L) (LAfter L))
          | None => None
          end
      end
  end.

Definition withInsts (b : BasicBlock) (l : list Instr) : BasicBlock :=
  mkBB (BBId b) (BBName b) l (Term b).
Definition withName (n : string) (b : BasicBlock) : BasicBlock :=
  mkBB (BBId b) n (Insts b) (Term b).

Definition updateBlock (id : N) (f : BasicBlock -> BasicBlock)
  (bs : list BasicBlock) : list BasicBlock :=
  map (fun b => if N.eqb (BBId b) id then f b else b) bs.

Definition getBlock (id : N) (bs : list BasicBlock) : option BasicBlock :=
  find (fun b => N.eqb (BBId b) id) bs.

(** An identity no block of the function has. *)
Definition freshId (bs : list BasicBlock) : N :=
  N.succ (fold_right (fun b m => N.max (BBId b) m) 0%N bs).

(** Modelled from the spec: the call-site interface
    ([CallInst::getArgOperand]) is not part of this file.  A call site gives
    its argument values; asking for an argument the call does not have is
    an access out of range, which the interface rejects. *)
Definition getArgOperand (CI : CallInst) (i : nat) : M Value :=
  match nth_error (ArgOperands CI) i with
  | Some v => ret v
  | None => fatal OperandOutOfBounds
  end.

(** Modelled from the spec: [User::getOperand] is not part of this file;
    as for [getArgOperand], an operand the instruction does not have is
    out of range. *)
Definition getOperand (operands : list Value) (i : nat) : M Value :=
  match nth_error operands i with
  | Some v => ret v
  | None => fatal OperandOutOfBounds
  end.

(** Modelled from the spec: [IRBuilder] is not part of this file.  A
    builder made from [CI] inserts what it creates right before [CI], in the
    block of [CI]. *)
Definition Insert (CI : CallInst) (i : Instr) : M unit :=
  updBlocks (fun bs =>
    match locate (CIId CI) bs with
    | Some L => Some (LBefore L
                      ++ withInsts (LBlock L) (LPre L ++ i :: LInst L :: LPost L)
                      :: LAfter L)
    | None => None
    end).

(** Modelled from the spec: [IRBuilder::CreateFCmp] is not part of this
    file.  It creates the floating-point comparison of two values of one
    type.  (The builder's constant folder may replace a comparison of two
    constants by its value; the embedding keeps the comparison, which has
    the same meaning.) *)
Definition CreateFCmp (CI : CallInst) (P : Predicate) (LHS RHS : Value) : M Cond :=
  if Type_eqb (getType LHS) (getType RHS)
  then Insert CI (IFCmp P LHS RHS) ;; ret (FCmp P LHS RHS)
  else fatal OperandTypeMismatch.

(** Modelled from the spec: [IRBuilder::CreateOr] is not part of this file;
    it creates the logical or of two conditions. *)
Definition CreateOr (CI : CallInst) (LHS RHS : Cond) : M Cond :=
  Insert CI (IOr LHS RHS) ;; ret (Or LHS RHS).

(** Modelled from the spec: [ConstantFP::get(Ctx, APFloat(Val))] is not
    part of this file; for a [float] [Val] it is the constant [Val] of type
    float. *)
Definition ConstantFP_get (Val : spec_float) : Value := ConstantFP FloatTy Val.

(** Modelled from the spec: [ConstantExpr::getFPExtend] is not part of this
    file.  Numeric literals are widened to the precision of the argument:
    the result is the same number as a constant of the wider type [Ty];
    a type that is not wider is rejected. *)
Definition getFPExtend (V : Value) (Ty : Type_) : M Value :=
  match V, Ty with
  | ConstantFP FloatTy v, DoubleTy => ret (ConstantFP Ty (convert 53 1024 v))
  | ConstantFP FloatTy v, X86_FP80Ty => ret (ConstantFP Ty (convert 64 16384 v))
  | _, _ => fatal InvalidCast
  end.

(** Modelled from the spec: [APFloat::convertToDouble] is not part of this
    file; it gives the numeric value of a constant of type double, and
    rejects the other types. *)
Definition convertToDouble (ty : Type_) (v : spec_float) : M spec_float :=
  if isDoubleTy ty then ret v else fatal NotIEEEdouble.

(** Modelled from the spec: [MDBuilder::createBranchWeights] is not part of
    this file; the annotation gives the weight of the edge taken when the
    condition is true, then the weight of the other edge. *)
Definition createBranchWeights (TrueWeight FalseWeight : N) : option (N * N) :=
  Some (TrueWeight, FalseWeight).

(** Modelled from the spec: the block-splitting primitive
    [SplitBlockAndInsertIfThen] is not part of this file.  It splits the
    block of [SplitBefore] right before it; the head ends with a new
    conditional branch on [Cond], annotated with the weights, to a new empty
    block (taken when [Cond] is true) that falls through to the tail; the
    tail starts with [SplitBefore] and keeps the old terminator.  The
    result is the new block. *)
Definition SplitBlockAndInsertIfThen (Cond_ : Cond) (SplitBefore : CallInst)
  (BranchWeights : option (N * N)) : M N :=
  fun s =>
    let bs := Blocks (Fn s) in
    match locate (CIId SplitBefore) bs with
    | Some L =>
        let Tail := freshId bs in
        let ThenBlock := N.succ Tail in
        let Head := LBlock L in
        Ok (ThenBlock,
            setBlocks
              (LBefore L
               ++ [ mkBB (BBId Head) (BBName Head) (LPre L)
                         (CondBr Cond_ ThenBlock Tail BranchWeights);
                    mkBB ThenBlock EmptyString [] (Br Tail);
                    mkBB Tail EmptyString (LInst L :: LPost L) (Term Head) ]
               ++ LAfter L) s)
    | None => Fatal NoParent
    end.

(** Modelled from the spec: [Value::setName] is not part of this file; it
    names a block. *)
Definition setName (BB : N) (n : string) : M unit :=
  modify (fun s => setBlocks (updateBlock BB (withName n) (Blocks (Fn s))) s).

(** Modelled from the spec: [BasicBlock::getSingleSuccessor] is not part of
    this file; it is the block an unconditional branch leads to. *)
Definition getSingleSuccessor (BB : N) : M N :=
  fun s => match getBlock BB (Blocks (Fn s)) with
           | Some b => match Term b with
                       | Br d => Ok (d, s)
                       | _ => Fatal NoParent
                       end
           | None => Fatal NoParent
           end.

(** Modelled from the spec: [Instruction::removeFromParent] is not part of
    this file; it takes the instruction out of its block. *)
Definition removeFromParent (CI : CallInst) : M unit :=
  updBlocks (fun bs =>
    match locate (CIId CI) bs with
    | Some L => Some (LBefore L ++ withInsts (LBlock L) (LPre L ++ LPost L)
                      :: LAfter L)
    | None => None
    end).

(** Modelled from the spec:
    [BB->getInstList().insert(BB->getFirstInsertionPt(), CI)] is not part
    of this file; the call becomes the first instruction of the block. *)
Definition insertAtFirstInsertionPt (BB : N) (CI : CallInst) : M unit :=
  modify (fun s =>
    setBlocks (updateBlock BB (fun b => withInsts b (ICall CI :: Insts b))
                 (Blocks (Fn s))) s).

(* ================================================================== *)
(** ** The pass *)

Section Pass.

Variable Opts : Options.
Variable TLI : TargetLibraryInfo.

(** Create a single condition using IRBuilder: the overload of [createCond]
    that takes the builder (here the call it inserts before) and the
    argument. *)
Definition createCond_ (CI : CallInst) (Arg : Value) (Cmp : Predicate)
  (Val : spec_float) : M Cond :=
  let V := ConstantFP_get Val in
  V <- (if negb (isFloatTy (getType Arg))
        then getFPExtend V (getType Arg)
        else ret V) ;;
  CreateFCmp CI Cmp Arg V.

(** Create an OR of two conditions. *)
Definition createOrCond (CI : CallInst) (Cmp : Predicate) (Val : spec_float)
  (Cmp2 : Predicate) (Val2 : spec_float) : M Cond :=
  Arg <- getArgOperand CI 0 ;;
  Cond2 <- createCond_ CI Arg Cmp2 Val2 ;;
  Cond1 <- createCond_ CI Arg Cmp Val ;;
  CreateOr CI Cond1 Cond2.

(** Create a single condition. *)
Definition createCond (CI : CallInst) (Cmp : Predicate) (Val : spec_float)
  : M Cond :=
  Arg <- getArgOperand CI 0 ;;
  createCond_ CI Arg Cmp Val.

(** Wrap conditions that can potentially generate errno to the library
    call. *)
Definition shrinkWrapCI (CI : CallInst) (Cond_ : option Cond) : M unit :=
  match Cond_ with
  | None => fatal EmptyCond
  | Some c =>
      let BranchWeights := createBranchWeights 1 2000 in
      CallBB <- SplitBlockAndInsertIfThen c CI BranchWeights ;;
      setName CallBB "cdce.call" ;;
      Succ <- getSingleSuccessor CallBB ;;
      setName Succ "cdce.end" ;;
      removeFromParent CI ;;
      insertAtFirstInsertionPt CallBB CI
  end.

(** Perform the transformation to calls with errno set by domain error. *)
Definition performCallDomainErrorOnly (CI : CallInst) (Func : LibFunc.Func)
  : M bool :=
  match Func with
  | LibFunc.acos | LibFunc.acosf | LibFunc.acosl
  | LibFunc.asin | LibFunc.asinf | LibFunc.asinl =>
      modify incTwoCond ;;
      Cond_ <- createOrCond CI FCMP_OLT (float_lit (-1)) FCMP_OGT (float_lit 1) ;;
      shrinkWrapCI CI (Some Cond_) ;;
      ret true
  | LibFunc.cos | LibFunc.cosf | LibFunc.cosl
  | LibFunc.sin | LibFunc.sinf | LibFunc.sinl =>
      modify incTwoCond ;;
      Cond_ <- createOrCond CI FCMP_OEQ INFINITY FCMP_OEQ (SFopp INFINITY) ;;
      shrinkWrapCI CI (Some Cond_) ;;
      ret true
  | LibFunc.acosh | LibFunc.acoshf | LibFunc.acoshl =>
      modify incOneCond ;;
      Cond_ <- createCond CI FCMP_OLT (float_lit 1) ;;
      shrinkWrapCI CI (Some Cond_) ;;
      ret true
  | LibFunc.sqrt | LibFunc.sqrtf | LibFunc.sqrtl =>
      modify incOneCond ;;
      Cond_ <- createCond CI FCMP_OLT (float_lit 0) ;;
      shrinkWrapCI CI (Some Cond_) ;;
      ret true
  | _ => ret false
  end.

(** Generate the upper bound condition for RangeError. *)
Definition generateOneRangeCond (CI : CallInst) (Func : LibFunc.Func)
  : M (option Cond) :=
  UpperBound <- match Func with
                | LibFunc.expm1 => ret (float_lit 709)
                | LibFunc.expm1f => ret (float_lit 88)
                | LibFunc.expm1l => ret (float_lit 11356)
                | _ => fatal UnreachableDefault
                end ;;
  modify incOneCond ;;
  c <- createCond CI FCMP_OGT UpperBound ;;
  ret (Some c).

(** Generate the lower and upper bound condition for RangeError. *)
Definition generateTwoRangeCond (CI : CallInst) (Func : LibFunc.Func)
  : M (option Cond) :=
  Bounds <-
    match Func with
    | LibFunc.cosh | LibFunc.sinh => ret (float_lit (-710), float_lit 710)
    | LibFunc.coshf | LibFunc.sinhf => ret (float_lit (-89), float_lit 89)
    | LibFunc.coshl | LibFunc.sinhl => ret (float_lit (-11357), float_lit 11357)
    | LibFunc.exp => ret (float_lit (-745), float_lit 709)
    | LibFunc.expf => ret (float_lit (-103), float_lit 88)
    | LibFunc.expl => ret (float_lit (-11399), float_lit 11356)
    | LibFunc.exp10 => ret (float_lit (-323), float_lit 308)
    | LibFunc.exp10f => ret (float_lit (-45), float_lit 38)
    | LibFunc.exp10l => ret (float_lit (-4950), float_lit 4932)
    | LibFunc.exp2 => ret (float_lit (-1074), float_lit 1023)
    | LibFunc.exp2f => ret (float_lit (-149), float_lit 127)
    | LibFunc.exp2l => ret (float_lit (-16445), float_lit 11383)
    | _ => fatal UnreachableDefault
    end ;;
  let LowerBound := fst Bounds in
  let UpperBound := snd Bounds in
  modify incTwoCond ;;
  c <- createOrCond CI FCMP_OGT UpperBound FCMP_OLT LowerBound ;;
  ret (Some c).

(** Perform the transformation to calls with errno set by range error. *)
Definition performCallRangeErrorOnly (CI : CallInst) (Func : LibFunc.Func)
  : M bool :=
  match Func with
  | LibFunc.cosh | LibFunc.coshf | LibFunc.coshl
  | LibFunc.exp | LibFunc.expf | LibFunc.expl
  | LibFunc.exp10 | LibFunc.exp10f | LibFunc.exp10l
  | LibFunc.exp2 | LibFunc.exp2f | LibFunc.exp2l
  | LibFunc.sinh | LibFunc.sinhf | LibFunc.sinhl =>
      Cond_ <- generateTwoRangeCond CI Func ;;
      shrinkWrapCI CI Cond_ ;;
      ret true
  | LibFunc.expm1 | LibFunc.expm1f | LibFunc.expm1l =>
      Cond_ <- generateOneRangeCond CI Func ;;
      shrinkWrapCI CI Cond_ ;;
      ret true
  | _ => ret false
  end.

(** For pow(x,y), only the following cases are handled:
    (1) x is a constant && (x >= 1) && (x < MaxUInt8): Cond is (y > 127);
    (2) x is a value coming from an integer type of 8, 16 or 32 bits:
        Cond is (x <= 0 || y > 128), (.. 64), (.. 32).
    Support for powl(x,y) and powf(x,y) are TBD. *)
Definition generateCondForPow (CI : CallInst) (Func : LibFunc.Func)
  : M (option Cond) :=
  match Func with
  | LibFunc.pow =>
      Base <- getArgOperand CI 0 ;;
      Exp <- getArgOperand CI 1 ;;
      match Base with
      | ConstantFP ty v =>
          (* Constant Base case. *)
          D <- convertToDouble ty v ;;
          if SFltb D (fp_of_Z DoubleTy 1) || SFltb (fp_of_Z DoubleTy 255) D
          then ret None
          else
            modify incOneCond ;;
            let V := ConstantFP_get (float_lit 127) in
            V <- (if negb (isFloatTy (getType Exp))
                  then getFPExtend V (getType Exp)
                  else ret V) ;;
            c <- CreateFCmp CI FCMP_OGT Exp V ;;
            ret (Some c)
      | Instruction _ Opcode_ _ operands =>
          (* If the Base value coming from an integer type. *)
          match Opcode_ with
          | UIToFP | SIToFP =>
              Op0 <- getOperand operands 0 ;;
              let BW := getPrimitiveSizeInBits (getType Op0) in
              match (if N.eqb BW 8 then Some (float_lit 128)
                     else if N.eqb BW 16 then Some (float_lit 64)
                     else if N.eqb BW 32 then Some (float_lit 32)
                     else None) with
              | None => ret None
              | Some UpperV =>
                  modify incTwoCond ;;
                  let V := ConstantFP_get UpperV in
                  let V0 := ConstantFP_get (float_lit 0) in
                  V <- (if negb (isFloatTy (getType Exp))
                        then getFPExtend V (getType Exp)
                        else ret V) ;;
                  V0 <- (if negb (isFloatTy (getType Base))
                         then getFPExtend V0 (getType Exp)
                         else ret V0) ;;
                  Cond_ <- CreateFCmp CI FCMP_OGT Exp V ;;
                  Cond0 <- CreateFCmp CI FCMP_OLE Base V0 ;;
                  c <- CreateOr CI Cond0 Cond_ ;;
                  ret (Some c)
              end
          | _ => ret None
          end
      | _ => ret None
      end
  | _ => ret None
  end.

(** Perform the transformation to calls with errno set by combination of
    errors. *)
Definition performCallErrors (CI : CallInst) (Func : LibFunc.Func) : M bool :=
  match Func with
  | LibFunc.atanh | LibFunc.atanhf | LibFunc.atanhl =>
      if negb (LibCallsShrinkWrapDoDomainError Opts)
         || negb (LibCallsShrinkWrapDoPoleError Opts)
      then ret false
      else
        modify incTwoCond ;;
        Cond_ <- createOrCond CI FCMP_OLE (float_lit (-1)) FCMP_OGE (float_lit 1) ;;
        shrinkWrapCI CI (Some Cond_) ;;
        ret true
  | LibFunc.log | LibFunc.logf | LibFunc.logl
  | LibFunc.log10 | LibFunc.log10f | LibFunc.log10l
  | LibFunc.log2 | LibFunc.log2f | LibFunc.log2l
  | LibFunc.logb | LibFunc.logbf | LibFunc.logbl =>
      if negb (LibCallsShrinkWrapDoDomainError Opts)
         || negb (LibCallsShrinkWrapDoPoleError Opts)
      then ret false
      else
        modify incOneCond ;;
        Cond_ <- createCond CI FCMP_OLE (float_lit 0) ;;
        shrinkWrapCI CI (Some Cond_) ;;
        ret true
  | LibFunc.log1p | LibFunc.log1pf | LibFunc.log1pl =>
      if negb (LibCallsShrinkWrapDoDomainError Opts)
         || negb (LibCallsShrinkWrapDoPoleError Opts)
      then ret false
      else
        modify incOneCond ;;
        Cond_ <- createCond CI FCMP_OLE (float_lit (-1)) ;;
        shrinkWrapCI CI (Some Cond_) ;;
        ret true
  | LibFunc.pow | LibFunc.powf | LibFunc.powl =>
      if negb (LibCallsShrinkWrapDoDomainError Opts)
         || negb (LibCallsShrinkWrapDoPoleError Opts)
         || negb (LibCallsShrinkWrapDoRangeError Opts)
      then ret false
      else
        Cond_ <- generateCondForPow CI Func ;;
        match Cond_ with
        | None => ret false
        | Some _ => shrinkWrapCI CI Cond_ ;; ret true
        end
  | _ => ret false
  end.

(** Checks if CI is a candidate for shrinkwrapping and put it into work
    list if true. *)
Definition checkCandidate (CI : CallInst) : M unit :=
  if isNoBuiltin CI then ret tt
  else if negb (use_empty CI) then ret tt
  else
    match getCalledFunction CI with
    | None => ret tt
    | Some Callee =>
        match getLibFunc TLI Callee with
        | None => ret tt
        | Some Func =>
            if negb (has TLI Func) then ret tt
            else
              Arg <- getArgOperand CI 0 ;;
              let ArgType := getType Arg in
              if negb (isFloatTy ArgType || isDoubleTy ArgType
                       || isX86_FP80Ty ArgType)
              then ret tt
              else modify (pushWorkList CI)
        end
    end.

(** Perform the transformation to a single candidate: the overload of
    [perform] that takes a call, named apart from the loop [perform()]. *)
Definition perform1 (CI : CallInst) : M bool :=
  match getCalledFunction CI with
  | None => fatal NullCallee
  | Some Callee =>
      match getLibFunc TLI Callee with
      | None => fatal EmptyFunc (* a failed lookup leaves Func unset *)
      | Some Func =>
          if negb (LibFunc.to_bool Func) then fatal EmptyFunc
          else
            r <- (if LibCallsShrinkWrapDoDomainError Opts
                  then performCallDomainErrorOnly CI Func
                  else ret false) ;;
            if r then ret true
            else
              r <- (if LibCallsShrinkWrapDoRangeError Opts
                    then performCallRangeErrorOnly CI Func
                    else ret false) ;;
              if r then ret true
              else performCallErrors CI Func
      end
  end.

Definition visitCallInst (CI : CallInst) : M unit := checkCandidate CI.

Definition visitInstr (i : Instr) : M unit :=
  match i with
  | ICall CI => visitCallInst CI
  | _ => ret tt
  end.

Fixpoint forEach {A} (f : A -> M unit) (l : list A) : M unit :=
  match l with
  | [] => ret tt
  | x :: r => f x ;; forEach f r
  end.

(** [InstVisitor::visit(F)]: every instruction of every block, in order. *)
Definition visit (F : Function) : M unit :=
  forEach (fun BB => forEach visitInstr (Insts BB)) (Blocks F).

Definition perform : M unit :=
  WL <- gets WorkList ;;
  forEach (fun CI =>
             r <- perform1 CI ;;
             if r then modify setChanged else ret tt) WL.

Definition isChanged : M bool := gets Changed.

(** The state of a fresh [LibCallsShrinkWrap] object on [F]; [n1], [n2]
    are the current values of the statistics. *)
Definition LibCallsShrinkWrap_ (F : Function) (n1 n2 : N) : State :=
  mkState F [] false n1 n2.

Definition runImpl (F : Function) (n1 n2 : N) : Res (bool * State) :=
  if OptimizeForSize F then Ok (false, LibCallsShrinkWrap_ F n1 n2)
  else (visit F ;; perform ;; isChanged) (LibCallsShrinkWrap_ F n1 n2).

End Pass.

(* ================================================================== *)
(** ** The entry points of the pass *)

Module LibCallsShrinkWrapLegacyPass.

(** Modelled from the spec: [AnalysisUsage] is not part of this file.  It
    records what a pass declares: whether it preserves the control-flow
    graph, and the analyses it requires. *)
Record AnalysisUsage := mkAnalysisUsage {
  PreservesCFG : bool;
  Required : list string
}.

(** Modelled from the spec: [AnalysisUsage::setPreservesCFG] is not part of
    this file; it marks the control-flow graph as preserved. *)
Definition setPreservesCFG (AU : AnalysisUsage) : AnalysisUsage :=
  mkAnalysisUsage true (Required AU).

(** Modelled from the spec: [AnalysisUsage::addRequired] is not part of
    this file; it adds an analysis to those the pass requires. *)
Definition addRequired (name : string) (AU : AnalysisUsage) : AnalysisUsage :=
  mkAnalysisUsage (PreservesCFG AU) (Required AU ++ [name]).

Definition getAnalysisUsage (AU : AnalysisUsage) : AnalysisUsage :=
  addRequired "TargetLibraryInfoWrapperPass" (setPreservesCFG AU).

Definition runOnFunction (Opts : Options) (TLI : TargetLibraryInfo)
  (F : Function) (n1 n2 : N) : Res (bool * State) :=
  runImpl Opts TLI F n1 n2.

End LibCallsShrinkWrapLegacyPass.

Module LibCallsShrinkWrapPass.

(** Modelled from the spec: [PreservedAnalyses] is not part of this file.
    The pass answers with one of two of its values: every analysis of the
    function is still valid, or none is. *)
Inductive PreservedAnalyses :=
| all
| none.

Definition run (Opts : Options) (TLI : TargetLibraryInfo)
  (F : Function) (n1 n2 : N) : Res (PreservedAnalyses * State) :=
  match runImpl Opts TLI F n1 n2 with
  | Ok (Changed_, s) =>
      if negb Changed_ then Ok (all, s) else Ok (none, s)
  | Fatal c => Fatal c
  end.

End LibCallsShrinkWrapPass.

(* ================================================================== *)
(** ** Definitions used by the properties: locations, the tables of the
       specification, samples, invariants *)

Definition noCall (id : N) (l : list Instr) : bool :=
  forallb (fun i => negb (isCall id i)) l.

Definition noCallIn (id : N) (bs : list BasicBlock) : bool :=
  forallb (fun b => noCall id (Insts b)) bs.

Definition maxId (bs : list BasicBlock) : N :=
  fold_right (fun b m => N.max (BBId b) m) 0%N bs.

(** The blocks around a location. *)
Definition blocksOf (L : Loc) : list BasicBlock :=
  LBefore L ++ LBlock L :: LAfter L.

(** The location after [new] instructions were inserted before the
    located one. *)
Definition addPre (L : Loc) (new : list Instr) : Loc :=
  mkLoc (LBefore L)
        (withInsts (LBlock L) ((LPre L ++ new) ++ LInst L :: LPost L))
        (LPre L ++ new) (LInst L) (LPost L) (LAfter L).

(** The function body after the located call [CI] was wrapped by [c]: the
    head block branches on [c] to the block of the call, with weights
    1 : 2000, or to the rest of the old block. *)
Definition guarded (L : Loc) (CI : CallInst) (c : Cond) : list BasicBlock :=
  let Tail := freshId (blocksOf L) in
  let ThenBlock := N.succ Tail in
  LBefore L
  ++ [ mkBB (BBId (LBlock L)) (BBName (LBlock L)) (LPre L)
            (CondBr c ThenBlock Tail (Some (1, 2000)%N));
       mkBB ThenBlock "cdce.call" [ICall CI] (Br Tail);
       mkBB Tail "cdce.end" (LPost L) (Term (LBlock L)) ]
  ++ LAfter L.

Definition Located (id : N) (s : State) (L : Loc) : Prop :=
  locate id (Blocks (Fn s)) = Some L.

(** The three argument types the pass accepts. *)
Definition isSupported (ty : Type_) : bool :=
  isFloatTy ty || isDoubleTy ty || isX86_FP80Ty ty.

(** The [float] constant [v] in the format of [ty]. *)
Definition constFor (ty : Type_) (v : spec_float) : Value :=
  match fltSemantics ty with
  | Some (prec, emax) =>
      if isFloatTy ty then ConstantFP ty v
      else ConstantFP ty (convert prec emax v)
  | None => ConstantFP ty v
  end.

(** The value of the [float] constant [v] once in the format of [ty]. *)
Definition valueIn (ty : Type_) (v : spec_float) : spec_float :=
  match ty with
  | DoubleTy => convert 53 1024 v
  | X86_FP80Ty => convert 64 16384 v
  | _ => v
  end.

(** The integral literals of the file. *)
Definition literals : list Z :=
  [ -1; 1; 0; 709; 88; 11356; -710; 710; -89; 89; -11357; 11357; -745;
    -103; -11399; -323; 308; -45; 38; -4950; 4932; -1074; 1023; -149; 127;
    -16445; 11383; 128; 64; 32 ].

Definition sample_arg : Value := OtherValue 7 DoubleTy.

Definition sample_call (callee : string) (args : list Value) : CallInst :=
  mkCall 1 false 0 (Some callee) args.

Definition sample_block (CI : CallInst) : BasicBlock :=
  mkBB 0 "entry" [IOther 3; ICall CI; IOther 4] (OtherTerm 0).

Definition sample_state (CI : CallInst) : State :=
  mkState (mkFunction false [sample_block CI]) [] false 0 0.

Definition sample_loc (CI : CallInst) : Loc :=
  mkLoc [] (sample_block CI) [IOther 3] (ICall CI) [IOther 4] [].

(** The double nearest to [-1e-10]. *)
Definition minus_1e_10 : spec_float := S754_finite true 7737125245533627 (-86).

(** The domain-error table of the specification: the families and their
    error sets. *)
Inductive DomainFamily :=
| InverseSineCosine
| SineCosine
| InverseHyperbolicCosine
| SquareRoot.

Definition domainFamily (f : LibFunc.Func) : option DomainFamily :=
  match f with
  | LibFunc.acos | LibFunc.acosf | LibFunc.acosl
  | LibFunc.asin | LibFunc.asinf | LibFunc.asinl => Some InverseSineCosine
  | LibFunc.cos | LibFunc.cosf | LibFunc.cosl
  | LibFunc.sin | LibFunc.sinf | LibFunc.sinl => Some SineCosine
  | LibFunc.acosh | LibFunc.acoshf | LibFunc.acoshl => Some InverseHyperbolicCosine
  | LibFunc.sqrt | LibFunc.sqrtf | LibFunc.sqrtl => Some SquareRoot
  | _ => None
  end.

(** Whether the argument value [x], of type [ty], is in the error set. *)
Definition domainErrorSet (fam : DomainFamily) (ty : Type_) (x : spec_float)
  : bool :=
  match fam with
  | InverseSineCosine => SFltb x (fp_of_Z ty (-1)) || SFltb (fp_of_Z ty 1) x
  | SineCosine => SFeqb x (S754_infinity false) || SFeqb x (S754_infinity true)
  | InverseHyperbolicCosine => SFltb x (fp_of_Z ty 1)
  | SquareRoot => SFltb x (fp_of_Z ty 0)
  end.

(** The range table of the specification: lower bound (none for the
    one-sided family) and upper bound of each function.  The specification
    gives the bounds of the exp and expm1 families; those of the other
    functions are the ones the comments of [generateTwoRangeCond]
    document. *)
Definition rangeTable (f : LibFunc.Func) : option (option Z * Z) :=
  match f with
  | LibFunc.cosh | LibFunc.sinh => Some (Some (-710), 710)
  | LibFunc.coshf | LibFunc.sinhf => Some (Some (-89), 89)
  | LibFunc.coshl | LibFunc.sinhl => Some (Some (-11357), 11357)
  | LibFunc.exp => Some (Some (-745), 709)
  | LibFunc.expf => Some (Some (-103), 88)
  | LibFunc.expl => Some (Some (-11399), 11356)
  | LibFunc.exp10 => Some (Some (-323), 308)
  | LibFunc.exp10f => Some (Some (-45), 38)
  | LibFunc.exp10l => Some (Some (-4950), 4932)
  | LibFunc.exp2 => Some (Some (-1074), 1023)
  | LibFunc.exp2f => Some (Some (-149), 127)
  | LibFunc.exp2l => Some (Some (-16445), 11383)
  | LibFunc.expm1 => Some (None, 709)
  | LibFunc.expm1f => Some (None, 88)
  | LibFunc.expm1l => Some (None, 11356)
  | _ => None
  end.

Definition rangeErrorSet (lo : option Z) (hi : Z) (ty : Type_) (x : spec_float)
  : bool :=
  match lo with
  | Some l => SFltb x (fp_of_Z ty l) || SFltb (fp_of_Z ty hi) x
  | None => SFltb (fp_of_Z ty hi) x
  end.

(** The combined (domain and pole) table of the specification. *)
Inductive CombinedFamily :=
| InverseHyperbolicTangent
| Logarithm
| LogOnePlus.

Definition combinedFamily (f : LibFunc.Func) : option CombinedFamily :=
  match f with
  | LibFunc.atanh | LibFunc.atanhf | LibFunc.atanhl => Some InverseHyperbolicTangent
  | LibFunc.log | LibFunc.logf | LibFunc.logl
  | LibFunc.log10 | LibFunc.log10f | LibFunc.log10l
  | LibFunc.log2 | LibFunc.log2f | LibFunc.log2l
  | LibFunc.logb | LibFunc.logbf | LibFunc.logbl => Some Logarithm
  | LibFunc.log1p | LibFunc.log1pf | LibFunc.log1pl => Some LogOnePlus
  | _ => None
  end.

Definition combinedErrorSet (fam : CombinedFamily) (ty : Type_) (x : spec_float)
  : bool :=
  match fam with
  | InverseHyperbolicTangent =>
      SFleb x (fp_of_Z ty (-1)) || SFleb (fp_of_Z ty 1) x
  | Logarithm => SFleb x (fp_of_Z ty 0)
  | LogOnePlus => SFleb x (fp_of_Z ty (-1))
  end.

(** The test of the constant base: [D < 1.0f || D > 255]. *)
Definition baseOutOfRange (D : spec_float) : bool :=
  SFltb D (fp_of_Z DoubleTy 1) || SFltb (fp_of_Z DoubleTy 255) D.

(** [1.0 <= B <= 255]. *)
Definition baseInRange (B : spec_float) : bool :=
  SFleb (fp_of_Z DoubleTy 1) B && SFleb B (fp_of_Z DoubleTy 255).

Definition two : spec_float := S754_finite false 4503599627370496 (-51).
Definition half : spec_float := S754_finite false 4503599627370496 (-53).

Definition allEnabled : Options := mkOptions true true true.

(** Where the base of a [pow] call comes from. *)
Inductive BaseProvenance :=
| FloatingConstant
| Widened (width : N)
| UnknownProvenance.

(** [None] for a conversion instruction without operand, which the IR does
    not have. *)
Definition baseProvenance (Base : Value) : option BaseProvenance :=
  match Base with
  | ConstantFP _ _ => Some FloatingConstant
  | Instruction _ (UIToFP | SIToFP) _ (Op0 :: _) =>
      Some (Widened (getPrimitiveSizeInBits (getType Op0)))
  | Instruction _ (UIToFP | SIToFP) _ [] => None
  | _ => Some UnknownProvenance
  end.

(** The bound on the exponent for a base widened from [width] bits. *)
Definition widthBound (width : N) : option Z :=
  match width with
  | 8%N => Some 128
  | 16%N => Some 64
  | 32%N => Some 32
  | _ => None
  end.

(** A library that knows some names; ["first"] stands for the function
    whose enumerator opens [LibFunc::Func]. *)
Definition sample_TLI : TargetLibraryInfo :=
  mkTLI (fun name =>
           if String.eqb name "sqrt" then Some LibFunc.sqrt
           else if String.eqb name "exp" then Some LibFunc.exp
           else if String.eqb name "log" then Some LibFunc.log
           else if String.eqb name "pow" then Some LibFunc.pow
           else if String.eqb name "getchar" then Some (LibFunc.other 5)
           else if String.eqb name "first" then Some (LibFunc.other 0)
           else None)
        (fun _ => true).

(** The first three conditions of a candidate: the call may be treated as
    a builtin, its result is unused, its callee resolves to a library
    function that is available. *)
Definition isDeadLibCall (TLI : TargetLibraryInfo) (CI : CallInst) : bool :=
  negb (isNoBuiltin CI)
  && use_empty CI
  && match getCalledFunction CI with
     | Some Callee =>
         match getLibFunc TLI Callee with
         | Some Func => has TLI Func
         | None => false
         end
     | None => false
     end.

(** The four conditions of a candidate. *)
Definition isCandidate (TLI : TargetLibraryInfo) (CI : CallInst) : bool :=
  isDeadLibCall TLI CI
  && match ArgOperands CI with
     | Arg :: _ => isSupported (getType Arg)
     | [] => false
     end.

(** The states a run ends in, when it answers [true] and when it answers
    [false]. *)
Definition Wraps (CI : CallInst) (m : M bool) : Prop :=
  forall s b s', m s = Ok (b, s') ->
    if b then exists c s1, shrinkWrapCI CI (Some c) s1 = Ok (tt, s')
    else s' = s.

(** The state a run ended in, [d] if it failed. *)
Definition stateOf {A} (r : Res (A * State)) (d : State) : State :=
  match r with
  | Ok (_, s) => s
  | Fatal _ => d
  end.

Definition isPowFamily (f : LibFunc.Func) : bool :=
  match f with
  | LibFunc.pow | LibFunc.powf | LibFunc.powl => true
  | _ => false
  end.

Definition hasCall (id : N) (bs : list BasicBlock) : bool :=
  existsb (fun b => existsb (isCall id) (Insts b)) bs.

Definition isAnyCall (i : Instr) : bool :=
  match i with
  | ICall _ => true
  | _ => false
  end.

(** The rewrites keep the calls of the function. *)
Definition Keeps (s s' : State) : Prop :=
  forall id, hasCall id (Blocks (Fn s')) = hasCall id (Blocks (Fn s)).

(** The work list, the flag, the attribute and the calls of the function. *)
Definition Frame (s s' : State) : Prop :=
  WorkList s' = WorkList s /\ Changed s' = Changed s
  /\ OptimizeForSize (Fn s') = OptimizeForSize (Fn s)
  /\ Keeps s s'.

Definition Preserves {A} (m : M A) : Prop :=
  forall s a s', m s = Ok (a, s') -> Frame s s'.

Definition callsIn (l : list Instr) : list CallInst :=
  flat_map (fun i => match i with ICall CI => [CI] | _ => [] end) l.

Definition callsOf (bs : list BasicBlock) : list CallInst :=
  flat_map (fun BB => callsIn (Insts BB)) bs.

(** The work list of a function. *)
Definition candidates (TLI : TargetLibraryInfo) (F : Function) : list CallInst :=
  filter (isCandidate TLI) (callsOf (Blocks F)).

(** The candidate check can read the first argument of [CI]. *)
Definition hasFirstArg (TLI : TargetLibraryInfo) (CI : CallInst) : bool :=
  negb (isDeadLibCall TLI CI)
  || match ArgOperands CI with
     | [] => false
     | _ :: _ => true
     end.

Definition pushAll (l : list CallInst) (s : State) : State :=
  mkState (Fn s) (WorkList s ++ l) (Changed s)
          (NumWrappedOneCond s) (NumWrappedTwoCond s).

(** The arguments of a call of [pow] the library has checked: a base and an
    exponent of one type, a constant base being a double, a conversion
    having its operand. *)
Definition wfPowArgs (CI : CallInst) : bool :=
  match ArgOperands CI with
  | Base :: Exp :: _ =>
      Type_eqb (getType Exp) (getType Base)
      && match Base with
         | ConstantFP ty _ => isDoubleTy ty
         | Instruction _ (UIToFP | SIToFP) _ [] => false
         | _ => true
         end
  | _ => false
  end.

(** What processing a candidate relies on: its function is not the one of
    value 0, and a call of [pow] has well-formed arguments. *)
Definition wfCandidate (TLI : TargetLibraryInfo) (CI : CallInst) : bool :=
  match getCalledFunction CI with
  | Some Callee =>
      match getLibFunc TLI Callee with
      | Some Func =>
          LibFunc.to_bool Func
          && match Func with
             | LibFunc.pow => wfPowArgs CI
             | _ => true
             end
      | None => true
      end
  | None => true
  end.

Definition wfCall (TLI : TargetLibraryInfo) (CI : CallInst) : bool :=
  hasFirstArg TLI CI && (negb (isCandidate TLI CI) || wfCandidate TLI CI).

Definition wfFunction (TLI : TargetLibraryInfo) (F : Function) : bool :=
  forallb (wfCall TLI) (callsOf (Blocks F)).

Definition Returns {A} (m : M A) (s : State) : Prop :=
  exists a s', m s = Ok (a, s').

(** Some candidate of the list, processed in order from state [s], was
    rewritten. *)
Inductive Succeeded (Opts : Options) (TLI : TargetLibraryInfo)
  : list CallInst -> State -> Prop :=
| Succeeded_here CI WL s s' :
    perform1 Opts TLI CI s = Ok (true, s') ->
    Succeeded Opts TLI (CI :: WL) s
| Succeeded_later CI WL s s' :
    perform1 Opts TLI CI s = Ok (false, s') ->
    Succeeded Opts TLI WL s' ->
    Succeeded Opts TLI (CI :: WL) s.

(** The body of the loop of [perform]. *)
Definition performStep (Opts : Options) (TLI : TargetLibraryInfo)
  (CI : CallInst) : M unit :=
  r <- perform1 Opts TLI CI ;;
  if r then modify setChanged else ret tt.

(** The checks made by the IR interface, as opposed to the assertions and
    unreachable marks of the pass itself. *)
Definition interfaceCheck (c : Check) : Prop :=
  match c with
  | OperandOutOfBounds | NotIEEEdouble | InvalidCast
  | OperandTypeMismatch | NoParent => True
  | NullCallee | EmptyFunc | UnreachableDefault | EmptyCond => False
  end.

(** [m] fails only on a check of the interface, and its results satisfy
    [Q]. *)
Definition Safe {A} (Q : A -> Prop) (m : M A) : Prop :=
  forall s, match m s with
            | Ok (a, _) => Q a
            | Fatal c => interfaceCheck c
            end.

Definition anything {A} (a : A) : Prop := True.

Definition isSome {A} (o : option A) : Prop :=
  match o with
  | Some _ => True
  | None => False
  end.

(* ================================================================== *)
(** ** Definitions used by the properties of a rewrite and of a run *)

(** The instructions the builders create. *)
Definition isInserted (i : Instr) : bool :=
  match i with
  | IFCmp _ _ _ | IOr _ _ => true
  | _ => false
  end.

(** The instructions that compute a predicate, in the order the builders
    create them: the second operand of an [or] first. *)
Fixpoint code (c : Cond) : list Instr :=
  match c with
  | FCmp p l r => [IFCmp p l r]
  | Or c1 c2 => code c2 ++ code c1 ++ [IOr c1 c2]
  end.

Definition isOr (c : Cond) : bool :=
  match c with
  | Or _ _ => true
  | FCmp _ _ _ => false
  end.

(** The statistic a predicate is counted in. *)
Definition count (c : Cond) (s : State) : State :=
  if isOr c then incTwoCond s else incOneCond s.

(** The pairs of values a predicate compares. *)
Fixpoint comparisons (c : Cond) : list (Value * Value) :=
  match c with
  | FCmp _ l r => [(l, r)]
  | Or c1 c2 => comparisons c1 ++ comparisons c2
  end.

Definition isConstantOf (ty : Type_) (v : Value) : bool :=
  match v with
  | ConstantFP t _ => Type_eqb ty t
  | _ => false
  end.

(** Every comparison of [c] has one of the first [n] arguments of [CI] on
    its left and a constant of the type of that argument on its right. *)
Definition guardsArguments (n : nat) (CI : CallInst) (c : Cond) : Prop :=
  forall l r, In (l, r) (comparisons c) ->
    In l (firstn n (ArgOperands CI)) /\ isConstantOf (getType l) r = true.

(** A predicate is one comparison or the [or] of two comparisons. *)
Definition oneOrTwo (c : Cond) : Prop :=
  match c with
  | FCmp _ _ _ => True
  | Or (FCmp _ _ _) (FCmp _ _ _) => True
  | Or _ _ => False
  end.

(** The number of arguments the predicate of a function reads. *)
Definition argsRead (Func : LibFunc.Func) : nat :=
  if isPowFamily Func then 2 else 1.

(** The state after the predicate [c] of the call [CI] was built from state
    [s]: it is counted, and its instructions sit right before the call. *)
Definition Generated (n : nat) (CI : CallInst) (s : State) (c : Cond)
  (s1 : State) : Prop :=
  exists L, Located (CIId CI) s L
            /\ guardsArguments n CI c
            /\ oneOrTwo c
            /\ s1 = setBlocks (blocksOf (addPre L (code c))) (count c s).

(** The state after the call [CI] was rewritten from state [s]. *)
Definition Rewritten (n : nat) (CI : CallInst) (s s' : State) : Prop :=
  exists L c, Located (CIId CI) s L
              /\ guardsArguments n CI c
              /\ oneOrTwo c
              /\ s' = setBlocks (guarded (addPre L (code c)) CI c) (count c s).

Definition Rewrites (n : nat) (CI : CallInst) (m : M bool) : Prop :=
  forall s b s', m s = Ok (b, s') ->
    if b then Rewritten n CI s s' else s' = s.

(** The instructions of a function that no builder created, in order. *)
Definition kept (bs : list BasicBlock) : list Instr :=
  flat_map (fun b => filter (fun i => negb (isInserted i)) (Insts b)) bs.

(** The two statistics together: their sum, as a counter of 32 bits. *)
Definition wrapped (s : State) : N :=
  ((NumWrappedOneCond s + NumWrappedTwoCond s) mod 2 ^ 32)%N.

(** The integer a floating-point value is, if it is one. *)
Definition exactZ (f : spec_float) : option Z :=
  match f with
  | S754_zero _ => Some 0%Z
  | S754_finite sg m e =>
      let mag :=
        if (0 <=? e)%Z then Some (Z.pos m * 2 ^ e)%Z
        else if (Z.pos m mod 2 ^ (- e) =? 0)%Z then Some (Z.pos m / 2 ^ (- e))%Z
        else None in
      match mag with
      | Some z => Some (if sg then (- z)%Z else z)
      | None => None
      end
  | _ => None
  end.

(** A value that is zero, negative or infinite. *)
Definition notAboveZeroOrInfinite (B : spec_float) : bool :=
  match B with
  | S754_zero _ => true
  | S754_infinity _ => true
  | S754_finite sg _ _ => sg
  | S754_nan => false
  end.

(** Two runs that agree: they fail the same check, or they give the same
    result and the call of identity [id] is in the function after both. *)
Definition Agree {A} (id : N) (r1 r2 : Res (A * State)) : Prop :=
  match r1, r2 with
  | Ok (a, s1), Ok (b, s2) =>
      a = b /\ hasCall id (Blocks (Fn s1)) = true
      /\ hasCall id (Blocks (Fn s2)) = true
  | Fatal c, Fatal d => c = d
  | _, _ => False
  end.

(** The outcome of [m] depends on the state only through the presence of
    the call of identity [id] in the function. *)
Definition Uniform {A} (id : N) (m : M A) : Prop :=
  forall s t,
    hasCall id (Blocks (Fn s)) = true -> hasCall id (Blocks (Fn t)) = true ->
    Agree id (m s) (m t).

(** Every call of the list is in the function. *)
Definition hasCalls (WL : list CallInst) (s : State) : Prop :=
  forall CI, In CI WL -> hasCall (CIId CI) (Blocks (Fn s)) = true.

(** Whether the call [CI], processed from state [s], is rewritten. *)
Definition decides (Opts : Options) (TLI : TargetLibraryInfo) (s : State)
  (CI : CallInst) : bool :=
  match perform1 Opts TLI CI s with
  | Ok (true, _) => true
  | _ => false
  end.

(** In state [s'], the block of identity [blk] ends with the branch on
    [c], weighted 1 : 2000. *)
Definition branchesOn (s' : State) (blk : N) (c : Cond) : Prop :=
  exists Head t f,
    In Head (Blocks (Fn s')) /\ BBId Head = blk
    /\ Term Head = CondBr c t f (Some (1, 2000)%N).

Definition isConstant (v : Value) : bool :=
  match v with
  | ConstantFP _ _ => true
  | _ => false
  end.

(** The instructions of a list that no builder created. *)
Definition keptIn (l : list Instr) : list Instr :=
  filter (fun i => negb (isInserted i)) l.

(** A run that executed [here] and then went on as [r]. *)
Definition after (here : list Instr) (r : option (list Instr * N))
  : option (list Instr * N) :=
  match r with
  | Some (l, t) => Some (here ++ l, t)
  | None => None
  end.

(** Modelled from the spec: what terminators do is not part of this file.
    A branch leads to its destination; a conditional branch leads to
    [ifTrue] when its condition holds and to [ifFalse] otherwise; another
    terminator, of identity [t], ends the run.  [go] is the run from a
    block. *)
Definition follow (rho : Value -> spec_float)
  (go : N -> option (list Instr * N)) (tm : Terminator)
  : option (list Instr * N) :=
  match tm with
  | OtherTerm t => Some ([], t)
  | Br d => go d
  | CondBr c t f _ => go (if evalCond rho c then t else f)
  end.

(** Modelled from the spec: the execution of blocks is not part of this
    file.  The run from the block of identity [id], [rho] giving the value
    of everything that is not a constant: the instructions of the block
    are executed in order, then the terminator is followed.  A run that
    ends gives the executed instructions that no builder created, in
    order, and the terminator it ended on; a run is cut after [fuel]
    blocks. *)
Fixpoint exec (fuel : nat) (rho : Value -> spec_float) (bs : list BasicBlock)
  (id : N) : option (list Instr * N) :=
  match fuel with
  | O => None
  | S fuel =>
      match getBlock id bs with
      | Some b => after (keptIn (Insts b)) (follow rho (exec fuel rho bs) (Term b))
      | None => None
      end
  end.

(** The run [l] without the executions of the call of identity [id] when
    [c] does not hold. *)
Definition skipUnless (rho : Value -> spec_float) (c : Cond) (id : N)
  (l : list Instr) : list Instr :=
  if evalCond rho c then l else filter (fun i => negb (isCall id i)) l.


(* ================================================================== *)
(** * Properties *)

Lemma splitInsts_Some id l pre x post :
  splitInsts id l = Some (pre, x, post) ->
  l = pre ++ x :: post /\ isCall id x = true /\ noCall id pre = true.
Proof.
  revert pre x post.
  induction l as [|i r IH]; intros pre x post; simpl; [discriminate|].
  destruct (isCall id i) eqn:Hi.
  - intros [= <- <- <-]. auto.
  - destruct (splitInsts id r) as [[[p y] q]|]; [|discriminate].
    intros [= <- <- <-].
    destruct (IH p y q eq_refl) as (-> & Hy & Hp).
    simpl. rewrite Hi, Hp. auto.
Qed.

Lemma splitInsts_None id l :
  noCall id l = true -> splitInsts id l = None.
Proof.
  induction l as [|i r IH]; simpl; [reflexivity|].
  destruct (isCall id i); simpl; [discriminate|].
  intros H. now rewrite (IH H).
Qed.

Lemma splitInsts_intro id pre x post :
  noCall id pre = true -> isCall id x = true ->
  splitInsts id (pre ++ x :: post) = Some (pre, x, post).
Proof.
  intros Hpre Hx.
  induction pre as [|i r IH]; simpl in *.
  - now rewrite Hx.
  - destruct (isCall id i); simpl in *; [discriminate|].
    now rewrite (IH Hpre).
Qed.

Lemma locate_Some id bs L :
  locate id bs = Some L ->
  bs = LBefore L ++ LBlock L :: LAfter L
  /\ Insts (LBlock L) = LPre L ++ LInst L :: LPost L
  /\ isCall id (LInst L) = true
  /\ noCall id (LPre L) = true
  /\ noCallIn id (LBefore L) = true.
Proof.
  revert L.
  induction bs as [|b r IH]; intros L; simpl; [discriminate|].
  destruct (splitInsts id (Insts b)) as [[[p y] q]|] eqn:Hs.
  - intros [= <-]. simpl.
    destruct (splitInsts_Some _ _ _ _ _ Hs) as (? & ? & ?). auto.
  - destruct (locate id r) as [L'|]; [|discriminate].
    intros [= <-]. simpl.
    destruct (IH L' eq_refl) as (-> & ? & ? & ? & HB).
    repeat split; auto.
    rewrite HB, andb_true_r.
    clear - Hs.
    induction (Insts b) as [|i l IHl]; simpl in *; [reflexivity|].
    destruct (isCall id i); [discriminate|]. simpl.
    destruct (splitInsts id l) as [[[? ?] ?]|]; [discriminate|auto].
Qed.

Lemma locate_intro id B1 b pre x post B2 :
  noCallIn id B1 = true -> noCall id pre = true -> isCall id x = true ->
  Insts b = pre ++ x :: post ->
  locate id (B1 ++ b :: B2) = Some (mkLoc B1 b pre x post B2).
Proof.
  intros HB Hpre Hx Hb.
  induction B1 as [|a r IH]; simpl in *.
  - now rewrite Hb, (splitInsts_intro _ _ _ post Hpre Hx).
  - apply andb_true_iff in HB as [Ha Hr].
    now rewrite (splitInsts_None _ _ Ha), (IH Hr).
Qed.

(** ** Fresh block identities *)

Lemma maxId_app a b : maxId (a ++ b) = N.max (maxId a) (maxId b).
Proof.
  induction a as [|x r IH]; simpl.
  - now rewrite N.max_0_l.
  - fold (maxId (r ++ b)). fold (maxId r). rewrite IH. now rewrite N.max_assoc.
Qed.

Lemma maxId_In b bs : In b bs -> (BBId b <= maxId bs)%N.
Proof.
  induction bs as [|x r IH]; simpl; [tauto|].
  fold (maxId r). intros [->|H]; [lia|]. specialize (IH H). lia.
Qed.

Lemma updateBlock_other id f bs :
  (maxId bs < id)%N -> updateBlock id f bs = bs.
Proof.
  unfold updateBlock.
  induction bs as [|x r IH]; simpl; [reflexivity|].
  fold (maxId r). intros H.
  destruct (N.eqb_spec (BBId x) id); [lia|].
  rewrite IH by lia. reflexivity.
Qed.

Lemma getBlock_other id bs rest :
  (maxId bs < id)%N -> getBlock id (bs ++ rest) = getBlock id rest.
Proof.
  unfold getBlock.
  induction bs as [|x r IH]; simpl; [reflexivity|].
  fold (maxId r). intros H.
  destruct (N.eqb_spec (BBId x) id); [lia|].
  apply IH. lia.
Qed.

(* ================================================================== *)
(** ** What the rewrite steps do to a located call *)

Lemma Located_blocksOf id s L :
  Located id s L -> Blocks (Fn s) = blocksOf L.
Proof. intros H. now destruct (locate_Some _ _ _ H) as (-> & _). Qed.

Lemma Located_addPre id s L new :
  Located id s L -> noCall id new = true ->
  Located id (setBlocks (blocksOf (addPre L new)) s) (addPre L new).
Proof.
  unfold Located. intros H Hnew.
  destruct (locate_Some _ _ _ H) as (_ & _ & Hx & Hpre & HB).
  destruct s as [[o bs] wl ch n1 n2]. cbn.
  apply locate_intro; auto.
  unfold noCall in *. now rewrite forallb_app, Hpre.
Qed.

Lemma addPre_addPre L a b : addPre (addPre L a) b = addPre L (a ++ b).
Proof. unfold addPre, withInsts. cbn. now rewrite <- !app_assoc. Qed.

Lemma freshId_addPre L new : freshId (blocksOf (addPre L new)) = freshId (blocksOf L).
Proof.
  unfold freshId, blocksOf. f_equal.
  change (maxId (LBefore (addPre L new) ++ LBlock (addPre L new) :: LAfter (addPre L new))
          = maxId (LBefore L ++ LBlock L :: LAfter L)).
  rewrite !maxId_app. reflexivity.
Qed.

Lemma setBlocks_setBlocks a b s : setBlocks a (setBlocks b s) = setBlocks a s.
Proof. reflexivity. Qed.

Lemma Insert_Located CI s L i :
  Located (CIId CI) s L ->
  Insert CI i s = Ok (tt, setBlocks (blocksOf (addPre L [i])) s).
Proof.
  unfold Located, Insert, updBlocks. intros ->.
  unfold blocksOf, addPre. cbn. now rewrite <- app_assoc.
Qed.

Lemma updateBlock_mid id f B1 mid B2 :
  (maxId B1 < id)%N -> (maxId B2 < id)%N ->
  updateBlock id f (B1 ++ mid ++ B2) = B1 ++ updateBlock id f mid ++ B2.
Proof.
  intros H1 H2. unfold updateBlock at 1. rewrite !map_app.
  fold (updateBlock id f B1). fold (updateBlock id f B2).
  fold (updateBlock id f mid).
  now rewrite (updateBlock_other id f B1 H1), (updateBlock_other id f B2 H2).
Qed.

Section ThreeBlocks.

Variables (m : N) (B1 B2 : list BasicBlock) (h t tl : BasicBlock).
Hypothesis HB1 : (maxId B1 <= m)%N.
Hypothesis HB2 : (maxId B2 <= m)%N.
Hypothesis Hh : (BBId h <= m)%N.
Hypothesis Ht : BBId t = N.succ (N.succ m).
Hypothesis Htl : BBId tl = N.succ m.

Lemma updateBlock_then f :
  updateBlock (N.succ (N.succ m)) f (B1 ++ h :: t :: tl :: B2)
  = B1 ++ h :: f t :: tl :: B2.
Proof.
  rewrite (updateBlock_mid _ f B1 [h; t; tl] B2) by lia.
  unfold updateBlock at 1. simpl. rewrite Ht, Htl, N.eqb_refl.
  destruct (N.eqb_spec (BBId h) (N.succ (N.succ m))); [lia|].
  destruct (N.eqb_spec (N.succ m) (N.succ (N.succ m))); [lia|].
  reflexivity.
Qed.

Lemma updateBlock_tail f :
  updateBlock (N.succ m) f (B1 ++ h :: t :: tl :: B2)
  = B1 ++ h :: t :: f tl :: B2.
Proof.
  rewrite (updateBlock_mid _ f B1 [h; t; tl] B2) by lia.
  unfold updateBlock at 1. simpl. rewrite Ht, Htl, N.eqb_refl.
  destruct (N.eqb_spec (BBId h) (N.succ m)); [lia|].
  destruct (N.eqb_spec (N.succ (N.succ m)) (N.succ m)); [lia|].
  reflexivity.
Qed.

Lemma getBlock_then :
  getBlock (N.succ (N.succ m)) (B1 ++ h :: t :: tl :: B2) = Some t.
Proof.
  rewrite getBlock_other by lia.
  unfold getBlock. simpl. rewrite Ht, N.eqb_refl.
  destruct (N.eqb_spec (BBId h) (N.succ (N.succ m))); [lia|].
  reflexivity.
Qed.

End ThreeBlocks.

Ltac state_simpl :=
  cbn [Fn Blocks OptimizeForSize WorkList Changed NumWrappedOneCond
       NumWrappedTwoCond setBlocks BBId BBName Insts Term withName withInsts
       LBefore LBlock LPre LInst LPost LAfter] in *.

Lemma shrinkWrapCI_Located CI c s L :
  Located (CIId CI) s L ->
  shrinkWrapCI CI (Some c) s = Ok (tt, setBlocks (guarded L CI c) s).
Proof.
  unfold Located. intros H.
  destruct (locate_Some _ _ _ H) as (Hbs & Hins & Hx & Hpre & HB).
  destruct s as [[o bs] wl ch n1 n2]. state_simpl.
  unfold guarded, freshId, blocksOf. rewrite <- Hbs.
  fold (maxId bs).
  assert (H1 : (maxId (LBefore L) <= maxId bs)%N).
  { rewrite Hbs, maxId_app. lia. }
  assert (H2 : (maxId (LAfter L) <= maxId bs)%N).
  { rewrite Hbs, maxId_app. simpl. fold (maxId (LAfter L)). lia. }
  assert (H3 : (BBId (LBlock L) <= maxId bs)%N).
  { rewrite Hbs, maxId_app. simpl. lia. }
  set (m := maxId bs) in *.
  unfold shrinkWrapCI, createBranchWeights, bind at 1.
  unfold SplitBlockAndInsertIfThen. state_simpl. rewrite H.
  unfold freshId. fold (maxId bs). fold m. cbn [app].
  unfold bind at 1, setName at 1, modify. state_simpl.
  rewrite updateBlock_then by (auto; lia). state_simpl.
  unfold bind at 1, getSingleSuccessor. state_simpl.
  rewrite getBlock_then by (auto; lia). state_simpl.
  unfold bind at 1, setName, modify. state_simpl.
  rewrite updateBlock_tail by (auto; lia). state_simpl.
  unfold bind at 1, removeFromParent, updBlocks. state_simpl.
  match goal with
  | |- context [locate ?i (?B1 ++ ?h :: ?t :: ?tl :: ?B2)] =>
      replace (locate i (B1 ++ h :: t :: tl :: B2))
        with (Some (mkLoc (B1 ++ [h; t]) tl [] (LInst L) (LPost L) B2))
  end.
  2:{ symmetry.
      match goal with
      | |- locate ?i (?B1 ++ ?h :: ?t :: ?tl :: ?B2) = _ =>
          change (B1 ++ h :: t :: tl :: B2) with (B1 ++ [h; t] ++ tl :: B2)
      end.
      rewrite app_assoc. apply locate_intro; auto.
      unfold noCallIn in *. rewrite forallb_app, HB. cbn.
      fold (noCall (CIId CI) (LPre L)). now rewrite Hpre. }
  state_simpl. unfold insertAtFirstInsertionPt, modify. state_simpl.
  rewrite <- app_assoc. cbn [app].
  rewrite updateBlock_then by (auto; lia). state_simpl.
  reflexivity.
Qed.

(* ================================================================== *)
(** ** What the condition builders do *)

Lemma wrap_Located CI c s L new :
  Located (CIId CI) s L -> noCall (CIId CI) new = true ->
  shrinkWrapCI CI (Some c) (setBlocks (blocksOf (addPre L new)) s)
  = Ok (tt, setBlocks (guarded (addPre L new) CI c) s).
Proof.
  intros H Hnew.
  now rewrite (shrinkWrapCI_Located CI c _ _ (Located_addPre _ _ _ _ H Hnew)).
Qed.

Lemma createCond__Located CI Arg p v s L :
  Located (CIId CI) s L -> isSupported (getType Arg) = true ->
  createCond_ CI Arg p v s
  = Ok (FCmp p Arg (constFor (getType Arg) v),
        setBlocks (blocksOf (addPre L [IFCmp p Arg (constFor (getType Arg) v)])) s).
Proof.
  intros H Hty. unfold createCond_, constFor, CreateFCmp.
  destruct (getType Arg) eqn:E; try discriminate;
    unfold ConstantFP_get;
    cbn [isFloatTy negb fltSemantics getFPExtend ret bind];
    cbn [getType]; rewrite ?E; cbn [Type_eqb];
    unfold bind; now rewrite (Insert_Located CI s L _ H).
Qed.

Lemma createCond_Located CI Arg rest p v s L :
  ArgOperands CI = Arg :: rest ->
  Located (CIId CI) s L -> isSupported (getType Arg) = true ->
  createCond CI p v s
  = Ok (FCmp p Arg (constFor (getType Arg) v),
        setBlocks (blocksOf (addPre L [IFCmp p Arg (constFor (getType Arg) v)])) s).
Proof.
  intros HA H Hty. unfold createCond, getArgOperand, bind at 1.
  rewrite HA. cbn [nth_error ret].
  now apply createCond__Located.
Qed.

Lemma createOrCond_Located CI Arg rest p v p2 v2 s L :
  ArgOperands CI = Arg :: rest ->
  Located (CIId CI) s L -> isSupported (getType Arg) = true ->
  let K := constFor (getType Arg) v in
  let K2 := constFor (getType Arg) v2 in
  createOrCond CI p v p2 v2 s
  = Ok (Or (FCmp p Arg K) (FCmp p2 Arg K2),
        setBlocks (blocksOf (addPre L [IFCmp p2 Arg K2; IFCmp p Arg K;
                                        IOr (FCmp p Arg K) (FCmp p2 Arg K2)])) s).
Proof.
  intros HA H Hty K K2. unfold createOrCond, getArgOperand, bind at 1.
  rewrite HA. cbn [nth_error ret].
  unfold bind at 1. rewrite (createCond__Located CI Arg p2 v2 s L H Hty).
  fold K2.
  assert (H2 := Located_addPre _ _ _ [IFCmp p2 Arg K2] H eq_refl).
  unfold bind at 1. rewrite (createCond__Located CI Arg p v _ _ H2 Hty).
  fold K. rewrite setBlocks_setBlocks, addPre_addPre.
  assert (H3 := Located_addPre _ _ _ ([IFCmp p2 Arg K2] ++ [IFCmp p Arg K]) H eq_refl).
  unfold CreateOr, bind, ret.
  rewrite (Insert_Located CI _ _ _ H3).
  now rewrite setBlocks_setBlocks, addPre_addPre.
Qed.

Lemma evalValue_constFor rho ty v :
  evalValue rho (constFor ty v) = valueIn ty v.
Proof. destruct ty; reflexivity. Qed.

(** Widening a literal is exact: it yields the same integer in the wider
    format. *)
Lemma valueIn_float_lit ty z :
  isSupported ty = true -> In z literals ->
  valueIn ty (float_lit z) = fp_of_Z ty z.
Proof.
  intros Hty Hz.
  destruct ty; try discriminate;
    repeat (destruct Hz as [<-|Hz]; [vm_compute; reflexivity|]);
    destruct Hz.
Qed.

Lemma valueIn_INFINITY ty s : valueIn ty (S754_infinity s) = S754_infinity s.
Proof. destruct ty; reflexivity. Qed.

Section Runs.

Variables (CI : CallInst) (Arg : Value) (rest : list Value).
Variables (s : State) (L : Loc).
Hypothesis HArg : ArgOperands CI = Arg :: rest.
Hypothesis HTy : isSupported (getType Arg) = true.
Hypothesis HLoc : Located (CIId CI) s L.

Lemma run_createCond p v (count : State -> State) :
  (forall bs s0, setBlocks bs (count s0) = count (setBlocks bs s0)) ->
  (forall s0, Blocks (Fn (count s0)) = Blocks (Fn s0)) ->
  let c := FCmp p Arg (constFor (getType Arg) v) in
  (modify count ;;
   Cond_ <- createCond CI p v ;;
   shrinkWrapCI CI (Some Cond_) ;;
   ret true) s
  = Ok (true, count (setBlocks (guarded (addPre L [IFCmp p Arg (constFor (getType Arg) v)]) CI c) s)).
Proof.
  intros Hc1 Hc2. cbv zeta. unfold bind at 1, modify.
  assert (HL : Located (CIId CI) (count s) L).
  { unfold Located. now rewrite Hc2. }
  unfold bind at 1. rewrite (createCond_Located CI Arg rest p v _ L HArg HL HTy).
  unfold bind at 1.
  rewrite (wrap_Located CI _ _ L [IFCmp p Arg (constFor (getType Arg) v)] HL eq_refl).
  now rewrite Hc1.
Qed.

Lemma run_createOrCond p v p2 v2 (count : State -> State) :
  (forall bs s0, setBlocks bs (count s0) = count (setBlocks bs s0)) ->
  (forall s0, Blocks (Fn (count s0)) = Blocks (Fn s0)) ->
  let K := constFor (getType Arg) v in
  let K2 := constFor (getType Arg) v2 in
  let c := Or (FCmp p Arg K) (FCmp p2 Arg K2) in
  (modify count ;;
   Cond_ <- createOrCond CI p v p2 v2 ;;
   shrinkWrapCI CI (Some Cond_) ;;
   ret true) s
  = Ok (true, count (setBlocks (guarded (addPre L [IFCmp p2 Arg K2; IFCmp p Arg K; IOr (FCmp p Arg K) (FCmp p2 Arg K2)]) CI c) s)).
Proof.
  intros Hc1 Hc2 K K2. cbv zeta. unfold bind at 1, modify.
  assert (HL : Located (CIId CI) (count s) L).
  { unfold Located. now rewrite Hc2. }
  unfold bind at 1.
  rewrite (createOrCond_Located CI Arg rest p v p2 v2 _ L HArg HL HTy).
  unfold bind at 1.
  rewrite (wrap_Located CI _ _ L [IFCmp p2 Arg K2; IFCmp p Arg K;
                                  IOr (FCmp p Arg K) (FCmp p2 Arg K2)] HL eq_refl).
  now rewrite Hc1.
Qed.

End Runs.

Lemma setBlocks_incOneCond bs s :
  setBlocks bs (incOneCond s) = incOneCond (setBlocks bs s).
Proof. reflexivity. Qed.

Lemma setBlocks_incTwoCond bs s :
  setBlocks bs (incTwoCond s) = incTwoCond (setBlocks bs s).
Proof. reflexivity. Qed.

(* ================================================================== *)
(** ** Domain errors *)

Ltac lit := apply valueIn_float_lit; [assumption | cbv [literals In]; tauto].

(** C1.  For a call of a function of the domain-error table, with a first
    argument of one of the three supported types, the pass wraps the call
    and the predicate it branches on is the one of the table: below -1 or
    above 1 for the inverse sine and cosine, equal to plus or minus infinity
    for the sine and cosine, below 1 for the inverse hyperbolic cosine, below
    0 for the square root.  The comparisons are ordered: the predicate is
    false on NaN, and the predicate of the square root of a double is false
    at -0.0 and true at -1e-10. *)
Theorem domain_predicate_matches_table CI Func fam Arg rest s L :
  domainFamily Func = Some fam ->
  ArgOperands CI = Arg :: rest ->
  isSupported (getType Arg) = true ->
  Located (CIId CI) s L ->
  exists c new s',
    performCallDomainErrorOnly CI Func s = Ok (true, s')
    /\ Blocks (Fn s') = guarded (addPre L new) CI c
    /\ (forall rho,
          evalCond rho c = domainErrorSet fam (getType Arg) (evalValue rho Arg))
    /\ (forall rho, evalValue rho Arg = S754_nan -> evalCond rho c = false)
    /\ (fam = SquareRoot -> getType Arg = DoubleTy ->
        forall rho,
          (evalValue rho Arg = S754_zero true -> evalCond rho c = false)
          /\ (evalValue rho Arg = minus_1e_10 -> evalCond rho c = true)).
Proof.
  intros Hfam HArg HTy HLoc.
  assert (Hsem : exists c new s',
    performCallDomainErrorOnly CI Func s = Ok (true, s')
    /\ Blocks (Fn s') = guarded (addPre L new) CI c
    /\ (forall rho,
          evalCond rho c = domainErrorSet fam (getType Arg) (evalValue rho Arg))).
  { destruct Func; try discriminate Hfam; injection Hfam as <-;
      unfold performCallDomainErrorOnly;
      first
        [ rewrite (run_createOrCond CI Arg rest s L HArg HTy HLoc _ _ _ _ incTwoCond
                     setBlocks_incTwoCond (fun _ => eq_refl))
        | rewrite (run_createCond CI Arg rest s L HArg HTy HLoc _ _ incOneCond
                     setBlocks_incOneCond (fun _ => eq_refl)) ];
      do 3 eexists; (split; [reflexivity|]); (split; [reflexivity|]);
      intros rho; cbn [evalCond evalPredicate domainErrorSet];
      rewrite !evalValue_constFor; unfold INFINITY; cbn [SFopp negb];
      rewrite ?valueIn_INFINITY;
      repeat match goal with
             | |- context [valueIn ?t (float_lit ?z)] =>
                 replace (valueIn t (float_lit z)) with (fp_of_Z t z)
                   by (symmetry; lit)
             end;
      reflexivity. }
  destruct Hsem as (c & new & s' & H1 & H2 & H3).
  exists c, new, s'.
  split; [exact H1|]. split; [exact H2|]. split; [exact H3|]. split.
  - intros rho Hnan. rewrite H3, Hnan.
    destruct (getType Arg); try discriminate HTy; destruct fam; reflexivity.
  - intros Hf Hd rho.
    split; intros Hx; rewrite H3, Hx, Hd; subst fam; reflexivity.
Qed.

Lemma domain_predicate_matches_table_witness :
  exists c new s',
    performCallDomainErrorOnly (sample_call "sqrt" [sample_arg]) LibFunc.sqrt
      (sample_state (sample_call "sqrt" [sample_arg])) = Ok (true, s')
    /\ Blocks (Fn s')
       = guarded (addPre (sample_loc (sample_call "sqrt" [sample_arg])) new)
           (sample_call "sqrt" [sample_arg]) c
    /\ (forall rho,
          evalCond rho c
          = domainErrorSet SquareRoot DoubleTy (evalValue rho sample_arg))
    /\ (forall rho, evalValue rho sample_arg = S754_nan -> evalCond rho c = false)
    /\ (SquareRoot = SquareRoot -> DoubleTy = DoubleTy ->
        forall rho,
          (evalValue rho sample_arg = S754_zero true -> evalCond rho c = false)
          /\ (evalValue rho sample_arg = minus_1e_10 -> evalCond rho c = true)).
Proof.
  apply (domain_predicate_matches_table
           (sample_call "sqrt" [sample_arg]) LibFunc.sqrt SquareRoot
           sample_arg [] (sample_state (sample_call "sqrt" [sample_arg]))
           (sample_loc (sample_call "sqrt" [sample_arg])));
    reflexivity.
Defined.

(* ================================================================== *)
(** ** Range errors *)

Ltac replace_literals :=
  repeat match goal with
         | |- context [valueIn ?t (float_lit ?z)] =>
             replace (valueIn t (float_lit z)) with (fp_of_Z t z)
               by (symmetry; lit)
         end.

(** C4.  For a call of a function of the range table, with a first argument
    of a supported type, the pass wraps the call and the predicate holds
    exactly when the argument is below the lower bound or above the upper
    bound of the function; for the exp family the bounds are [-745, 709]
    (double), [-103, 88] (float), [-11399, 11356] (extended); for the expm1
    family the predicate is the single comparison with the upper bound 709,
    88, 11356. *)
Theorem range_predicate_matches_table CI Func lo hi Arg rest s L :
  rangeTable Func = Some (lo, hi) ->
  ArgOperands CI = Arg :: rest ->
  isSupported (getType Arg) = true ->
  Located (CIId CI) s L ->
  (exists c new s',
     performCallRangeErrorOnly CI Func s = Ok (true, s')
     /\ Blocks (Fn s') = guarded (addPre L new) CI c
     /\ (forall rho,
           evalCond rho c = rangeErrorSet lo hi (getType Arg) (evalValue rho Arg))
     /\ (lo = None ->
         c = FCmp FCMP_OGT Arg (ConstantFP (getType Arg) (fp_of_Z (getType Arg) hi))))
  /\ rangeTable LibFunc.exp = Some (Some (-745), 709)
  /\ rangeTable LibFunc.expf = Some (Some (-103), 88)
  /\ rangeTable LibFunc.expl = Some (Some (-11399), 11356)
  /\ rangeTable LibFunc.expm1 = Some (None, 709)
  /\ rangeTable LibFunc.expm1f = Some (None, 88)
  /\ rangeTable LibFunc.expm1l = Some (None, 11356).
Proof.
  intros Htab HArg HTy HLoc.
  split; [|repeat split].
  assert (HLoc1 : Located (CIId CI) (incOneCond s) L) by exact HLoc.
  assert (HLoc2 : Located (CIId CI) (incTwoCond s) L) by exact HLoc.
  destruct Func; try discriminate Htab; injection Htab as <- <-;
    unfold performCallRangeErrorOnly, generateTwoRangeCond, generateOneRangeCond;
    unfold bind, ret, modify; cbn [fst snd];
    first
      [ rewrite (createOrCond_Located CI Arg rest _ _ _ _ _ L HArg HLoc2 HTy)
      | rewrite (createCond_Located CI Arg rest _ _ _ L HArg HLoc1 HTy) ];
    (erewrite wrap_Located; [| eassumption | reflexivity]);
    do 3 eexists; (split; [reflexivity|]); (split; [reflexivity|]);
    (split; [| first [ discriminate
                     | intros _; f_equal; unfold constFor;
                       destruct (getType Arg); try discriminate HTy;
                       vm_compute; reflexivity ]]);
    intros rho; cbn [evalCond evalPredicate rangeErrorSet];
    rewrite !evalValue_constFor; replace_literals;
    first [ reflexivity | apply orb_comm ].
Qed.

Lemma range_predicate_matches_table_witness :
  (exists c new s',
     performCallRangeErrorOnly (sample_call "exp" [sample_arg]) LibFunc.exp
       (sample_state (sample_call "exp" [sample_arg])) = Ok (true, s')
     /\ Blocks (Fn s')
        = guarded (addPre (sample_loc (sample_call "exp" [sample_arg])) new)
            (sample_call "exp" [sample_arg]) c
     /\ (forall rho,
           evalCond rho c
           = rangeErrorSet (Some (-745)) 709 DoubleTy (evalValue rho sample_arg))
     /\ (Some (-745) = None ->
         c = FCmp FCMP_OGT sample_arg (ConstantFP DoubleTy (fp_of_Z DoubleTy 709))))
  /\ rangeTable LibFunc.exp = Some (Some (-745), 709)
  /\ rangeTable LibFunc.expf = Some (Some (-103), 88)
  /\ rangeTable LibFunc.expl = Some (Some (-11399), 11356)
  /\ rangeTable LibFunc.expm1 = Some (None, 709)
  /\ rangeTable LibFunc.expm1f = Some (None, 88)
  /\ rangeTable LibFunc.expm1l = Some (None, 11356).
Proof.
  apply (range_predicate_matches_table
           (sample_call "exp" [sample_arg]) LibFunc.exp (Some (-745)) 709
           sample_arg [] (sample_state (sample_call "exp" [sample_arg]))
           (sample_loc (sample_call "exp" [sample_arg])));
    reflexivity.
Defined.

(* ================================================================== *)
(** ** Combined domain and pole errors *)

(** C5.  With the domain-error and pole-error toggles enabled, a call of a
    function of the combined table, with a first argument of a supported
    type, is wrapped and the predicate is: at most -1 or at least 1 for the
    inverse hyperbolic tangent, at most 0 for the logarithms, at most -1 for
    log1p. *)
Theorem combined_predicate_matches_table Opts CI Func fam Arg rest s L :
  LibCallsShrinkWrapDoDomainError Opts = true ->
  LibCallsShrinkWrapDoPoleError Opts = true ->
  combinedFamily Func = Some fam ->
  ArgOperands CI = Arg :: rest ->
  isSupported (getType Arg) = true ->
  Located (CIId CI) s L ->
  exists c new s',
    performCallErrors Opts CI Func s = Ok (true, s')
    /\ Blocks (Fn s') = guarded (addPre L new) CI c
    /\ (forall rho,
          evalCond rho c = combinedErrorSet fam (getType Arg) (evalValue rho Arg)).
Proof.
  intros HD HP Hfam HArg HTy HLoc.
  destruct Func; try discriminate Hfam; injection Hfam as <-;
    unfold performCallErrors; rewrite HD, HP; cbn [negb orb];
    first
      [ rewrite (run_createOrCond CI Arg rest s L HArg HTy HLoc _ _ _ _ incTwoCond
                   setBlocks_incTwoCond (fun _ => eq_refl))
      | rewrite (run_createCond CI Arg rest s L HArg HTy HLoc _ _ incOneCond
                   setBlocks_incOneCond (fun _ => eq_refl)) ];
    do 3 eexists; (split; [reflexivity|]); (split; [reflexivity|]);
    intros rho; cbn [evalCond evalPredicate combinedErrorSet];
    rewrite !evalValue_constFor; replace_literals; reflexivity.
Qed.

Lemma combined_predicate_matches_table_witness :
  exists c new s',
    performCallErrors (mkOptions true true true)
      (sample_call "log" [sample_arg]) LibFunc.log
      (sample_state (sample_call "log" [sample_arg])) = Ok (true, s')
    /\ Blocks (Fn s')
       = guarded (addPre (sample_loc (sample_call "log" [sample_arg])) new)
           (sample_call "log" [sample_arg]) c
    /\ (forall rho,
          evalCond rho c
          = combinedErrorSet Logarithm DoubleTy (evalValue rho sample_arg)).
Proof.
  apply (combined_predicate_matches_table (mkOptions true true true)
           (sample_call "log" [sample_arg]) LibFunc.log Logarithm
           sample_arg [] (sample_state (sample_call "log" [sample_arg]))
           (sample_loc (sample_call "log" [sample_arg])));
    reflexivity.
Defined.

(** The error sets at and next to their bounds, for doubles: the bound
    itself is outside the strict sets and inside the sets of the combined
    category. *)
Example error_sets_at_the_bounds :
  domainErrorSet InverseSineCosine DoubleTy (fp_of_Z DoubleTy 1) = false
  /\ domainErrorSet InverseSineCosine DoubleTy (fp_of_Z DoubleTy 2) = true
  /\ domainErrorSet InverseSineCosine DoubleTy (fp_of_Z DoubleTy (-2)) = true
  /\ domainErrorSet SineCosine DoubleTy (S754_infinity true) = true
  /\ domainErrorSet SineCosine DoubleTy (fp_of_Z DoubleTy 1000) = false
  /\ domainErrorSet InverseHyperbolicCosine DoubleTy (fp_of_Z DoubleTy 1) = false
  /\ domainErrorSet InverseHyperbolicCosine DoubleTy (fp_of_Z DoubleTy 0) = true
  /\ domainErrorSet SquareRoot DoubleTy (S754_zero false) = false
  /\ domainErrorSet SquareRoot DoubleTy (S754_infinity true) = true
  /\ rangeErrorSet (Some (-745)) 709 DoubleTy (fp_of_Z DoubleTy 709) = false
  /\ rangeErrorSet (Some (-745)) 709 DoubleTy (fp_of_Z DoubleTy 710) = true
  /\ rangeErrorSet (Some (-745)) 709 DoubleTy (fp_of_Z DoubleTy (-746)) = true
  /\ rangeErrorSet None 709 DoubleTy (fp_of_Z DoubleTy (-746)) = false
  /\ combinedErrorSet InverseHyperbolicTangent DoubleTy (fp_of_Z DoubleTy 1) = true
  /\ combinedErrorSet Logarithm DoubleTy (S754_zero true) = true
  /\ combinedErrorSet Logarithm DoubleTy (fp_of_Z DoubleTy 1) = false
  /\ combinedErrorSet LogOnePlus DoubleTy (fp_of_Z DoubleTy (-1)) = true
  /\ combinedErrorSet LogOnePlus DoubleTy S754_nan = false.
Proof. repeat split; vm_compute; reflexivity. Qed.

(* ================================================================== *)
(** ** The power function *)

Lemma CreateFCmp_Located CI p a b s L :
  Located (CIId CI) s L -> Type_eqb (getType a) (getType b) = true ->
  CreateFCmp CI p a b s
  = Ok (FCmp p a b, setBlocks (blocksOf (addPre L [IFCmp p a b])) s).
Proof.
  intros H E. unfold CreateFCmp. rewrite E. unfold bind.
  now rewrite (Insert_Located CI s L _ H).
Qed.

Lemma CreateOr_Located CI a b s L :
  Located (CIId CI) s L ->
  CreateOr CI a b s = Ok (Or a b, setBlocks (blocksOf (addPre L [IOr a b])) s).
Proof.
  intros H. unfold CreateOr, bind.
  now rewrite (Insert_Located CI s L _ H).
Qed.

Lemma SFcompare_antisym x y :
  SFcompare y x = option_map CompOpp (SFcompare x y).
Proof.
  destruct x as [sx|sx| |sx mx ex], y as [sy|sy| |sy my ey]; simpl;
    try reflexivity;
    try (destruct sx; reflexivity); try (destruct sy; reflexivity);
    try (destruct sx, sy; reflexivity).
  destruct sx, sy; try reflexivity;
    rewrite (Z.compare_antisym ey ex);
    destruct (ey ?= ex); simpl; try reflexivity;
    rewrite (Pos.compare_cont_antisym mx my Eq); reflexivity.
Qed.

Lemma baseOutOfRange_not_nan B :
  B <> S754_nan -> baseOutOfRange B = negb (baseInRange B).
Proof.
  intros HB. unfold baseOutOfRange, baseInRange, SFltb, SFleb.
  rewrite (SFcompare_antisym B (fp_of_Z DoubleTy 1)).
  rewrite (SFcompare_antisym (fp_of_Z DoubleTy 255) B).
  destruct (SFcompare B (fp_of_Z DoubleTy 1)) as [[]|] eqn:E1;
    destruct (SFcompare (fp_of_Z DoubleTy 255) B) as [[]|] eqn:E2;
    try reflexivity;
    destruct B; try congruence; discriminate.
Qed.

Section Pow.

Variable Opts : Options.
Hypothesis HD : LibCallsShrinkWrapDoDomainError Opts = true.
Hypothesis HP : LibCallsShrinkWrapDoPoleError Opts = true.
Hypothesis HR : LibCallsShrinkWrapDoRangeError Opts = true.

Variables (CI : CallInst) (Exp : Value) (rest : list Value).
Variables (s : State) (L : Loc).

Lemma performCallErrors_pow :
  performCallErrors Opts CI LibFunc.pow s
  = match generateCondForPow CI LibFunc.pow s with
    | Ok (None, s') => Ok (false, s')
    | Ok (Some c, s') => (shrinkWrapCI CI (Some c) ;; ret true) s'
    | Fatal c => Fatal c
    end.
Proof.
  unfold performCallErrors. rewrite HD, HP, HR. cbn [negb orb].
  unfold bind at 1.
  destruct (generateCondForPow CI LibFunc.pow s) as [[[c|] s']|]; reflexivity.
Qed.

Lemma generateCondForPow_constant B :
  ArgOperands CI = ConstantFP DoubleTy B :: Exp :: rest ->
  isSupported (getType Exp) = true ->
  Located (CIId CI) s L ->
  generateCondForPow CI LibFunc.pow s
  = if baseOutOfRange B then Ok (None, s)
    else
      let c := FCmp FCMP_OGT Exp (constFor (getType Exp) (float_lit 127)) in
      Ok (Some c,
          setBlocks (blocksOf (addPre L [IFCmp FCMP_OGT Exp
                                           (constFor (getType Exp) (float_lit 127))]))
            (incOneCond s)).
Proof.
  intros HArgs HTy HLoc.
  unfold generateCondForPow, getArgOperand. rewrite HArgs.
  cbn [nth_error]. unfold bind at 1, ret at 1. unfold bind at 1, ret at 1.
  unfold convertToDouble. cbn [isDoubleTy]. unfold bind at 1, ret at 1.
  fold (baseOutOfRange B). destruct (baseOutOfRange B); [reflexivity|].
  unfold bind at 1, modify.
  assert (HLoc1 : Located (CIId CI) (incOneCond s) L) by exact HLoc.
  unfold ConstantFP_get, constFor.
  destruct (getType Exp) eqn:E; try discriminate HTy;
    cbn [isFloatTy negb fltSemantics getFPExtend];
    unfold bind, ret;
    (erewrite CreateFCmp_Located; [reflexivity | eassumption |]);
    cbn [getType]; rewrite E; reflexivity.
Qed.

Lemma generateCondForPow_widened id op ty Op0 ops U :
  let Base := Instruction id op ty (Op0 :: ops) in
  ArgOperands CI = Base :: Exp :: rest ->
  op = UIToFP \/ op = SIToFP ->
  (if N.eqb (getPrimitiveSizeInBits (getType Op0)) 8 then Some 128
   else if N.eqb (getPrimitiveSizeInBits (getType Op0)) 16 then Some 64
   else if N.eqb (getPrimitiveSizeInBits (getType Op0)) 32 then Some 32
   else None) = Some U ->
  getType Exp = ty -> isSupported ty = true ->
  Located (CIId CI) s L ->
  let K := constFor ty (float_lit U) in
  let K0 := constFor ty (float_lit 0) in
  let c := Or (FCmp FCMP_OLE Base K0) (FCmp FCMP_OGT Exp K) in
  generateCondForPow CI LibFunc.pow s
  = Ok (Some c,
        setBlocks (blocksOf (addPre L [IFCmp FCMP_OGT Exp K;
                                        IFCmp FCMP_OLE Base K0;
                                        IOr (FCmp FCMP_OLE Base K0)
                                            (FCmp FCMP_OGT Exp K)]))
          (incTwoCond s)).
Proof.
  intros Base HArgs Hop HU HE HTy HLoc. cbv zeta.
  unfold generateCondForPow, getArgOperand. rewrite HArgs.
  cbn [nth_error]. unfold bind at 1, ret at 1. unfold bind at 1, ret at 1.
  unfold Base at 1.
  assert (HLoc2 : Located (CIId CI) (incTwoCond s) L) by exact HLoc.
  assert (Hrun : forall UpperV,
    (modify incTwoCond ;;
     V <- (if negb (isFloatTy (getType Exp))
           then getFPExtend (ConstantFP_get UpperV) (getType Exp)
           else ret (ConstantFP_get UpperV)) ;;
     V0 <- (if negb (isFloatTy (getType Base))
            then getFPExtend (ConstantFP_get (float_lit 0)) (getType Exp)
            else ret (ConstantFP_get (float_lit 0))) ;;
     Cond_ <- CreateFCmp CI FCMP_OGT Exp V ;;
     Cond0 <- CreateFCmp CI FCMP_OLE Base V0 ;;
     c <- CreateOr CI Cond0 Cond_ ;;
     ret (Some c)) s
    = Ok (Some (Or (FCmp FCMP_OLE Base (constFor ty (float_lit 0)))
                   (FCmp FCMP_OGT Exp (constFor ty UpperV))),
          setBlocks (blocksOf (addPre L [IFCmp FCMP_OGT Exp (constFor ty UpperV);
                                          IFCmp FCMP_OLE Base (constFor ty (float_lit 0));
                                          IOr (FCmp FCMP_OLE Base (constFor ty (float_lit 0)))
                                              (FCmp FCMP_OGT Exp (constFor ty UpperV))]))
            (incTwoCond s))).
  { intros UpperV. unfold bind at 1, modify.
    assert (HBty : getType Base = ty) by reflexivity.
    rewrite HBty, HE. unfold ConstantFP_get, constFor.
    destruct ty; try discriminate HTy;
      cbn [isFloatTy negb fltSemantics getFPExtend];
      unfold bind at 1, ret at 1; unfold bind at 1, ret at 1;
      (unfold bind at 1; erewrite CreateFCmp_Located;
       [| eassumption | cbn [getType]; rewrite HE; reflexivity]);
      (unfold bind at 1; erewrite CreateFCmp_Located;
       [| eapply Located_addPre; [eassumption | reflexivity]
        | cbn [getType]; rewrite HBty; reflexivity]);
      rewrite setBlocks_setBlocks, addPre_addPre;
      (unfold bind at 1; erewrite CreateOr_Located;
       [| eapply Located_addPre; [eassumption | reflexivity]]);
      rewrite setBlocks_setBlocks, addPre_addPre; reflexivity. }
  destruct Hop as [-> | ->]; cbn [getOperand nth_error];
    unfold bind at 1, ret at 1;
    destruct (getPrimitiveSizeInBits (getType Op0) =? 8)%N;
    [ injection HU as <-; apply Hrun | | injection HU as <-; apply Hrun | ];
    (destruct (getPrimitiveSizeInBits (getType Op0) =? 16)%N;
     [ injection HU as <-; apply Hrun |]);
    (destruct (getPrimitiveSizeInBits (getType Op0) =? 32)%N;
     [ injection HU as <-; apply Hrun | discriminate HU]).
Qed.

End Pow.

Lemma generateCondForPow_declines_constant CI B Exp rest s :
  ArgOperands CI = ConstantFP DoubleTy B :: Exp :: rest ->
  baseOutOfRange B = true ->
  generateCondForPow CI LibFunc.pow s = Ok (None, s).
Proof.
  intros HArgs HB.
  unfold generateCondForPow, getArgOperand. rewrite HArgs.
  cbn [nth_error]. unfold bind at 1, ret at 1. unfold bind at 1, ret at 1.
  unfold convertToDouble. cbn [isDoubleTy]. unfold bind at 1, ret at 1.
  fold (baseOutOfRange B). now rewrite HB.
Qed.

Lemma performCallErrors_declines Opts CI Func s :
  generateCondForPow CI Func s = Ok (None, s) ->
  Func = LibFunc.pow \/ Func = LibFunc.powf \/ Func = LibFunc.powl ->
  performCallErrors Opts CI Func s = Ok (false, s).
Proof.
  intros H HF. unfold performCallErrors.
  destruct HF as [-> | [-> | ->]];
    (destruct (negb (LibCallsShrinkWrapDoDomainError Opts)
               || negb (LibCallsShrinkWrapDoPoleError Opts)
               || negb (LibCallsShrinkWrapDoRangeError Opts)); [reflexivity|]);
    unfold bind; now rewrite H.
Qed.

(** What the pass does on a constant base.  For a call of [pow] whose base
    is the double constant [B]: when [B < 1.0] or [B > 255] (ordered
    comparisons) no predicate is built and the call is left untouched;
    otherwise the call is wrapped and the predicate is exactly
    [exponent > 127].  For every [B] that is not NaN the first case is the
    negation of [1.0 <= B <= 255].  Base 2.0 is wrapped, base 0.5
    declines. *)
Theorem pow_constant_base CI B Exp rest s :
  ArgOperands CI = ConstantFP DoubleTy B :: Exp :: rest ->
  (baseOutOfRange B = true ->
   generateCondForPow CI LibFunc.pow s = Ok (None, s)
   /\ forall Opts, performCallErrors Opts CI LibFunc.pow s = Ok (false, s))
  /\ (baseOutOfRange B = false ->
      getType Exp = DoubleTy ->
      forall Opts L,
      LibCallsShrinkWrapDoDomainError Opts = true ->
      LibCallsShrinkWrapDoPoleError Opts = true ->
      LibCallsShrinkWrapDoRangeError Opts = true ->
      Located (CIId CI) s L ->
      let c := FCmp FCMP_OGT Exp (ConstantFP DoubleTy (fp_of_Z DoubleTy 127)) in
      exists new s1 s',
        generateCondForPow CI LibFunc.pow s = Ok (Some c, s1)
        /\ performCallErrors Opts CI LibFunc.pow s = Ok (true, s')
        /\ Blocks (Fn s') = guarded (addPre L new) CI c
        /\ forall rho,
             evalCond rho c = SFltb (fp_of_Z DoubleTy 127) (evalValue rho Exp))
  /\ (B <> S754_nan -> baseOutOfRange B = negb (baseInRange B))
  /\ baseOutOfRange two = false
  /\ baseOutOfRange half = true.
Proof.
  intros HArgs. split; [|split; [|split; [|split; reflexivity]]].
  - intros HB.
    assert (H := generateCondForPow_declines_constant CI B Exp rest s HArgs HB).
    split; [exact H|]. intros Opts. apply performCallErrors_declines; auto.
  - intros HB HE Opts L HD HP HR HLoc c.
    assert (HTy : isSupported (getType Exp) = true) by now rewrite HE.
    assert (H := generateCondForPow_constant CI Exp rest s L B HArgs HTy HLoc).
    rewrite HB, HE in H. cbv zeta in H.
    change (constFor DoubleTy (float_lit 127))
      with (ConstantFP DoubleTy (valueIn DoubleTy (float_lit 127))) in H.
    replace (valueIn DoubleTy (float_lit 127)) with (fp_of_Z DoubleTy 127) in H
      by (vm_compute; reflexivity).
    fold c in H.
    do 3 eexists. split; [exact H|].
    rewrite (performCallErrors_pow Opts HD HP HR), H.
    unfold bind.
    erewrite wrap_Located; [| exact HLoc | reflexivity].
    split; [reflexivity|]. split; [reflexivity|].
    intros rho. reflexivity.
  - apply baseOutOfRange_not_nan.
Qed.

Lemma pow_constant_base_witness :
  exists new s1 s',
    generateCondForPow (sample_call "pow" [ConstantFP DoubleTy two; sample_arg])
      LibFunc.pow
      (sample_state (sample_call "pow" [ConstantFP DoubleTy two; sample_arg]))
    = Ok (Some (FCmp FCMP_OGT sample_arg
                  (ConstantFP DoubleTy (fp_of_Z DoubleTy 127))), s1)
    /\ performCallErrors allEnabled
         (sample_call "pow" [ConstantFP DoubleTy two; sample_arg]) LibFunc.pow
         (sample_state (sample_call "pow" [ConstantFP DoubleTy two; sample_arg]))
       = Ok (true, s')
    /\ Blocks (Fn s')
       = guarded
           (addPre (sample_loc (sample_call "pow"
                                  [ConstantFP DoubleTy two; sample_arg])) new)
           (sample_call "pow" [ConstantFP DoubleTy two; sample_arg])
           (FCmp FCMP_OGT sample_arg (ConstantFP DoubleTy (fp_of_Z DoubleTy 127)))
    /\ forall rho,
         evalCond rho (FCmp FCMP_OGT sample_arg
                         (ConstantFP DoubleTy (fp_of_Z DoubleTy 127)))
         = SFltb (fp_of_Z DoubleTy 127) (evalValue rho sample_arg).
Proof.
  refine (proj1 (proj2
    (pow_constant_base
       (sample_call "pow" [ConstantFP DoubleTy two; sample_arg]) two sample_arg []
       (sample_state (sample_call "pow" [ConstantFP DoubleTy two; sample_arg]))
       eq_refl)) eq_refl eq_refl allEnabled
    (sample_loc (sample_call "pow" [ConstantFP DoubleTy two; sample_arg]))
    eq_refl eq_refl eq_refl eq_refl).
Defined.

(** C2 (failing input).  A NaN base is not between 1.0 and 255; the test
    [D < 1.0f || D > 255] lets it through, a predicate [exponent > 127] is
    built and the call is wrapped instead of being declined. *)
Lemma pow_nan_base_is_wrapped :
  baseInRange S754_nan = false
  /\ (exists s',
        generateCondForPow
          (sample_call "pow" [ConstantFP DoubleTy S754_nan; sample_arg])
          LibFunc.pow
          (sample_state (sample_call "pow" [ConstantFP DoubleTy S754_nan; sample_arg]))
        = Ok (Some (FCmp FCMP_OGT sample_arg
                      (ConstantFP DoubleTy (fp_of_Z DoubleTy 127))), s'))
  /\ (exists s',
        performCallErrors allEnabled
          (sample_call "pow" [ConstantFP DoubleTy S754_nan; sample_arg])
          LibFunc.pow
          (sample_state (sample_call "pow" [ConstantFP DoubleTy S754_nan; sample_arg]))
        = Ok (true, s')).
Proof.
  split; [reflexivity|]. split; eexists; vm_compute; reflexivity.
Qed.

Lemma widthBound_spec {A} (f : Z -> A) w :
  (if N.eqb w 8 then Some (f 128)
   else if N.eqb w 16 then Some (f 64)
   else if N.eqb w 32 then Some (f 32)
   else None) = option_map f (widthBound w).
Proof.
  destruct w as [|p]; [reflexivity|].
  do 7 (try (destruct p as [p|p|]; try reflexivity)).
Qed.

Lemma constFor_valueIn ty v :
  isSupported ty = true -> constFor ty v = ConstantFP ty (valueIn ty v).
Proof. destruct ty; try discriminate; reflexivity. Qed.

Lemma generateCondForPow_not_pow CI Func s :
  Func <> LibFunc.pow -> generateCondForPow CI Func s = Ok (None, s).
Proof. destruct Func; try reflexivity. congruence. Qed.

(** C3.  For a call of the power function: the float and extended variants
    decline; for [pow], a base that is neither a floating constant nor an
    integer-to-float conversion declines, and so does a conversion from an
    integer of a width other than 8, 16 or 32 bits.  Declining builds no
    predicate, leaves the state untouched and raises no check.  When the
    base is converted from an 8, 16 or 32 bit integer the call is wrapped
    and the predicate is [base <= 0 or exponent > U] with [U] = 128, 64,
    32. *)
Theorem pow_declines_or_widened CI s :
  (forall Func, Func = LibFunc.powf \/ Func = LibFunc.powl ->
     generateCondForPow CI Func s = Ok (None, s)
     /\ forall Opts, performCallErrors Opts CI Func s = Ok (false, s))
  /\ (forall Base Exp rest,
        ArgOperands CI = Base :: Exp :: rest ->
        (baseProvenance Base = Some UnknownProvenance ->
         generateCondForPow CI LibFunc.pow s = Ok (None, s)
         /\ forall Opts, performCallErrors Opts CI LibFunc.pow s = Ok (false, s))
        /\ (forall w,
              baseProvenance Base = Some (Widened w) -> widthBound w = None ->
              generateCondForPow CI LibFunc.pow s = Ok (None, s)
              /\ forall Opts, performCallErrors Opts CI LibFunc.pow s = Ok (false, s))
        /\ (forall w U,
              baseProvenance Base = Some (Widened w) -> widthBound w = Some U ->
              getType Exp = getType Base ->
              isSupported (getType Base) = true ->
              forall Opts L,
              LibCallsShrinkWrapDoDomainError Opts = true ->
              LibCallsShrinkWrapDoPoleError Opts = true ->
              LibCallsShrinkWrapDoRangeError Opts = true ->
              Located (CIId CI) s L ->
              let ty := getType Base in
              let c := Or (FCmp FCMP_OLE Base (ConstantFP ty (fp_of_Z ty 0)))
                          (FCmp FCMP_OGT Exp (ConstantFP ty (fp_of_Z ty U))) in
              exists new s1 s',
                generateCondForPow CI LibFunc.pow s = Ok (Some c, s1)
                /\ performCallErrors Opts CI LibFunc.pow s = Ok (true, s')
                /\ Blocks (Fn s') = guarded (addPre L new) CI c
                /\ (forall rho,
                      evalCond rho c
                      = SFleb (evalValue rho Base) (fp_of_Z ty 0)
                        || SFltb (fp_of_Z ty U) (evalValue rho Exp))
                /\ (U = 128 /\ w = 8%N \/ U = 64 /\ w = 16%N
                    \/ U = 32 /\ w = 32%N))).
Proof.
  split.
  { intros Func HF.
    assert (H : generateCondForPow CI Func s = Ok (None, s))
      by (destruct HF as [-> | ->]; reflexivity).
    split; [exact H|]. intros Opts. apply performCallErrors_declines; tauto. }
  intros Base Exp rest HArgs.
  assert (Hdecl : generateCondForPow CI LibFunc.pow s = Ok (None, s) ->
                  generateCondForPow CI LibFunc.pow s = Ok (None, s)
                  /\ forall Opts, performCallErrors Opts CI LibFunc.pow s
                                  = Ok (false, s)).
  { intros H. split; [exact H|]. intros Opts.
    apply performCallErrors_declines; tauto. }
  split; [|split].
  - intros Hprov. apply Hdecl.
    unfold generateCondForPow, getArgOperand. rewrite HArgs.
    destruct Base as [ty v | id op ty ops | id ty]; try discriminate Hprov;
      [|reflexivity].
    destruct op; [destruct ops; discriminate Hprov
                 |destruct ops; discriminate Hprov
                 |reflexivity].
  - intros w Hprov Hw. apply Hdecl.
    unfold generateCondForPow, getArgOperand. rewrite HArgs.
    destruct Base as [ty v | id op ty ops | id ty]; try discriminate Hprov.
    destruct op, ops as [|Op0 ops]; try discriminate Hprov;
      injection Hprov as <-;
      cbn [nth_error]; unfold bind at 1, ret at 1;
      unfold bind at 1, ret at 1; unfold bind at 1;
      change (getOperand (Op0 :: ops) 0 s) with (Ok (Op0, s)); cbv beta iota;
      rewrite (widthBound_spec float_lit), Hw; reflexivity.
  - intros w U Hprov Hw HE HTy Opts L HD HP HR HLoc ty c.
    destruct Base as [ty0 v | id op ty0 ops | id ty0]; try discriminate Hprov.
    assert (Hop : op = UIToFP \/ op = SIToFP)
      by (destruct op; auto; destruct ops; discriminate Hprov).
    destruct ops as [|Op0 ops]; [destruct Hop as [-> | ->]; discriminate Hprov|].
    assert (Hw' : getPrimitiveSizeInBits (getType Op0) = w)
      by (destruct Hop as [-> | ->]; now injection Hprov).
    cbn [getType] in *. subst ty.
    assert (Hchain := widthBound_spec (fun z => z) (getPrimitiveSizeInBits (getType Op0))).
    rewrite Hw', Hw in Hchain. cbn [option_map] in Hchain.
    rewrite <- Hw' in Hchain.
    assert (H := generateCondForPow_widened CI Exp rest s L id op ty0 Op0 ops U
                   HArgs Hop Hchain HE HTy HLoc).
    cbv zeta in H.
    assert (HU : In U literals).
    { clear - Hw. unfold widthBound in Hw.
      assert (U = 128 \/ U = 64 \/ U = 32) as [-> | [-> | ->]].
      { destruct w as [|p]; [discriminate|].
        do 7 (try (destruct p as [p|p|]; try discriminate));
          injection Hw as <-; auto. }
      all: cbv [literals In]; tauto. }
    rewrite !(constFor_valueIn ty0 _ HTy) in H.
    rewrite (valueIn_float_lit ty0 U HTy HU) in H.
    rewrite (valueIn_float_lit ty0 0 HTy) in H by (cbv [literals In]; tauto).
    fold c in H.
    do 3 eexists. split; [exact H|].
    rewrite (performCallErrors_pow Opts HD HP HR), H. unfold bind.
    erewrite wrap_Located; [| exact HLoc | reflexivity].
    split; [reflexivity|]. split; [reflexivity|].
    split; [intros rho; reflexivity|].
    clear - Hw. unfold widthBound in Hw.
    destruct w as [|p]; [discriminate|].
    do 7 (try (destruct p as [p|p|]; try discriminate));
      injection Hw as <-; auto.
Qed.

Lemma pow_declines_or_widened_witness :
  let Base := Instruction 9 SIToFP DoubleTy [OtherValue 8 (IntegerTy 8)] in
  let CI := sample_call "pow" [Base; sample_arg] in
  let c := Or (FCmp FCMP_OLE Base (ConstantFP DoubleTy (fp_of_Z DoubleTy 0)))
              (FCmp FCMP_OGT sample_arg
                 (ConstantFP DoubleTy (fp_of_Z DoubleTy 128))) in
  exists new s1 s',
    generateCondForPow CI LibFunc.pow (sample_state CI) = Ok (Some c, s1)
    /\ performCallErrors allEnabled CI LibFunc.pow (sample_state CI) = Ok (true, s')
    /\ Blocks (Fn s') = guarded (addPre (sample_loc CI) new) CI c
    /\ (forall rho,
          evalCond rho c
          = SFleb (evalValue rho Base) (fp_of_Z DoubleTy 0)
            || SFltb (fp_of_Z DoubleTy 128) (evalValue rho sample_arg))
    /\ (128 = 128 /\ 8%N = 8%N \/ 128 = 64 /\ 8%N = 16%N
        \/ 128 = 32 /\ 8%N = 32%N).
Proof.
  intros Base CI c.
  refine (proj2 (proj2 (proj2 (pow_declines_or_widened CI (sample_state CI))
                          Base sample_arg [] eq_refl))
            8%N 128 eq_refl eq_refl eq_refl eq_refl
            allEnabled (sample_loc CI) eq_refl eq_refl eq_refl eq_refl).
Defined.

(* ================================================================== *)
(** ** Candidates *)

(** A call with at least one argument is appended to the work list if and
    only if it is a candidate, and is skipped otherwise. *)
Lemma checkCandidate_with_argument TLI CI Arg rest s :
  ArgOperands CI = Arg :: rest ->
  checkCandidate TLI CI s
  = Ok (tt, if isCandidate TLI CI then pushWorkList CI s else s).
Proof.
  intros HA.
  unfold checkCandidate, isCandidate, isDeadLibCall, getArgOperand. rewrite HA.
  destruct (isNoBuiltin CI); [reflexivity|].
  destruct (use_empty CI); [|reflexivity].
  destruct (getCalledFunction CI) as [Callee|]; [|reflexivity].
  destruct (getLibFunc TLI Callee) as [Func|]; [|reflexivity].
  destruct (has TLI Func); [|reflexivity].
  cbn. unfold isSupported.
  destruct (isFloatTy (getType Arg) || isDoubleTy (getType Arg)
            || isX86_FP80Ty (getType Arg)); reflexivity.
Qed.

(** A call that fails one of the first three conditions is skipped, whatever
    its arguments. *)
Lemma checkCandidate_skips TLI CI s :
  isDeadLibCall TLI CI = false ->
  checkCandidate TLI CI s = Ok (tt, s).
Proof.
  unfold checkCandidate, isDeadLibCall.
  destruct (isNoBuiltin CI); [reflexivity|].
  destruct (use_empty CI); [|reflexivity].
  destruct (getCalledFunction CI) as [Callee|]; [|reflexivity].
  destruct (getLibFunc TLI Callee) as [Func|]; [|reflexivity].
  destruct (has TLI Func); [discriminate|reflexivity].
Qed.

(** C6 (failing input).  A call without arguments, with an unused result,
    of a function the library knows and has: the candidate check reads the
    first argument and aborts instead of skipping the call. *)
Theorem checkCandidate_no_argument :
  let CI := sample_call "getchar" [] in
  isNoBuiltin CI = false
  /\ use_empty CI = true
  /\ (exists Func, getLibFunc sample_TLI "getchar"%string = Some Func
                   /\ has sample_TLI Func = true)
  /\ checkCandidate sample_TLI CI (sample_state CI) = Fatal OperandOutOfBounds
  /\ runImpl allEnabled sample_TLI (mkFunction false [sample_block CI]) 0 0
     = Fatal OperandOutOfBounds.
Proof.
  intros CI. split; [reflexivity|]. split; [reflexivity|].
  split; [eexists; split; reflexivity|]. split; reflexivity.
Qed.

(** C10 (failing input).  A call of the function whose enumerator has the
    value 0, with an unused result and a double argument, is admitted to
    the work list; processing it fails the check on [Func]. *)
Theorem perform_first_enumerator :
  let CI := sample_call "first" [sample_arg] in
  checkCandidate sample_TLI CI (sample_state CI)
  = Ok (tt, pushWorkList CI (sample_state CI))
  /\ perform1 allEnabled sample_TLI CI (pushWorkList CI (sample_state CI))
     = Fatal EmptyFunc
  /\ runImpl allEnabled sample_TLI (mkFunction false [sample_block CI]) 0 0
     = Fatal EmptyFunc.
Proof. intros CI. repeat split; reflexivity. Qed.

(* ================================================================== *)
(** ** What a successful run went through *)

Lemma bind_Ok {A B} (m : M A) (k : A -> M B) s r :
  bind m k s = Ok r -> exists a s1, m s = Ok (a, s1) /\ k a s1 = Ok r.
Proof.
  unfold bind. destruct (m s) as [[a s1]|c]; [|discriminate].
  intros H. now exists a, s1.
Qed.

(** Invert a run of binds in hypothesis [H]. *)
Ltac inv_run H :=
  repeat match type of H with
         | bind _ _ _ = Ok _ =>
             let a := fresh "a" in
             let s1 := fresh "s" in
             let H1 := fresh "Hrun" in
             apply bind_Ok in H; destruct H as (a & s1 & H1 & H)
         end;
  repeat match goal with u : unit |- _ => destruct u end;
  unfold ret in H.

Lemma Wraps_ret_false CI : Wraps CI (ret false).
Proof. intros s b s' H. injection H as <- <-. reflexivity. Qed.

Lemma Wraps_then_wrap {A} CI (m : M A) (f : A -> Cond) :
  Wraps CI (a <- m ;; shrinkWrapCI CI (Some (f a)) ;; ret true).
Proof.
  intros s b s' H. inv_run H. injection H as <- <-. eauto.
Qed.

Lemma Wraps_modify CI g (m : M bool) :
  (forall s b s', m s = Ok (b, s') -> b = true) ->
  Wraps CI m -> Wraps CI (modify g ;; m).
Proof.
  intros Htrue Hm s b s' H. inv_run H.
  specialize (Hm _ _ _ H). rewrite (Htrue _ _ _ H) in *. exact Hm.
Qed.

Lemma then_wrap_true {A} CI (m : M A) (f : A -> option Cond) s b s' :
  (a <- m ;; shrinkWrapCI CI (f a) ;; ret true) s = Ok (b, s') -> b = true.
Proof. intros H. inv_run H. now injection H as <- <-. Qed.

Lemma Wraps_domain CI Func : Wraps CI (performCallDomainErrorOnly CI Func).
Proof.
  destruct Func; try apply Wraps_ret_false;
    apply Wraps_modify;
    try (intros s b s'; apply (then_wrap_true CI _ (fun a => Some a)));
    apply (Wraps_then_wrap CI _ (fun a => a)).
Qed.

Lemma generateTwoRangeCond_Some CI Func s r s' :
  generateTwoRangeCond CI Func s = Ok (r, s') -> exists c, r = Some c.
Proof.
  unfold generateTwoRangeCond. intros H. inv_run H.
  injection H as <- <-. eauto.
Qed.

Lemma generateOneRangeCond_Some CI Func s r s' :
  generateOneRangeCond CI Func s = Ok (r, s') -> exists c, r = Some c.
Proof.
  unfold generateOneRangeCond. intros H. inv_run H.
  injection H as <- <-. eauto.
Qed.

Lemma Wraps_range CI Func : Wraps CI (performCallRangeErrorOnly CI Func).
Proof.
  destruct Func; try apply Wraps_ret_false;
    intros s b s' H; unfold performCallRangeErrorOnly in H; inv_run H;
    injection H as <- <-;
    match goal with
    | H1 : generateTwoRangeCond _ _ _ = Ok _ |- _ =>
        destruct (generateTwoRangeCond_Some _ _ _ _ _ H1) as (c & ->)
    | H1 : generateOneRangeCond _ _ _ = Ok _ |- _ =>
        destruct (generateOneRangeCond_Some _ _ _ _ _ H1) as (c & ->)
    end; eauto.
Qed.

(** [generateCondForPow] changes the state only when it builds a
    predicate. *)
Lemma generateCondForPow_None CI Func s s' :
  generateCondForPow CI Func s = Ok (None, s') -> s' = s.
Proof.
  unfold generateCondForPow, getArgOperand, getOperand, convertToDouble.
  destruct Func; try (intros [= <-]; reflexivity).
  destruct (nth_error (ArgOperands CI) 0) as [Base|]; [|discriminate].
  destruct (nth_error (ArgOperands CI) 1) as [Exp|]; [|discriminate].
  unfold bind at 1, ret at 1. unfold bind at 1, ret at 1.
  destruct Base as [ty v | id op ty ops | id ty].
  - destruct (isDoubleTy ty); [|discriminate].
    unfold bind at 1, ret at 1.
    destruct (_ || _); [intros [= <-]; reflexivity|].
    intros H. inv_run H. discriminate H.
  - destruct op; try (intros [= <-]; reflexivity);
      (destruct (nth_error ops 0) as [Op0|]; [|discriminate]);
      unfold bind at 1, ret at 1;
      (destruct (if (getPrimitiveSizeInBits (getType Op0) =? 8)%N then _ else _);
       [| intros [= <-]; reflexivity]);
      intros H; inv_run H; discriminate H.
  - intros [= <-]. reflexivity.
Qed.

Lemma Wraps_errors Opts CI Func : Wraps CI (performCallErrors Opts CI Func).
Proof.
  destruct Func; try apply Wraps_ret_false; unfold performCallErrors;
    match goal with
    | |- Wraps _ (if ?t then _ else _) =>
        destruct t; [apply Wraps_ret_false|]
    end;
    try (apply Wraps_modify;
         [ intros s b s'; apply (then_wrap_true CI _ (fun a => Some a))
         | apply (Wraps_then_wrap CI _ (fun a => a)) ]);
    intros s b s' H; inv_run H;
    (destruct a as [c|];
     [ inv_run H; injection H as <- <-; eauto
     | injection H as <- <-;
       eapply generateCondForPow_None; eassumption ]).
Qed.

Lemma Wraps_perform1 Opts TLI CI : Wraps CI (perform1 Opts TLI CI).
Proof.
  intros s b s' H. unfold perform1 in H.
  destruct (getCalledFunction CI) as [Callee|]; [|discriminate].
  destruct (getLibFunc TLI Callee) as [Func|]; [|discriminate].
  destruct (negb (LibFunc.to_bool Func)); [discriminate|].
  apply bind_Ok in H. destruct H as (r1 & t1 & Hd & H).
  assert (H1 : if r1 then exists c s0, shrinkWrapCI CI (Some c) s0 = Ok (tt, t1)
               else t1 = s).
  { destruct (LibCallsShrinkWrapDoDomainError Opts).
    - exact (Wraps_domain CI Func _ _ _ Hd).
    - injection Hd as <- <-. reflexivity. }
  destruct r1; [injection H as <- <-; exact H1|]. subst t1.
  apply bind_Ok in H. destruct H as (r2 & t2 & Hr & H).
  assert (H2 : if r2 then exists c s0, shrinkWrapCI CI (Some c) s0 = Ok (tt, t2)
               else t2 = s).
  { destruct (LibCallsShrinkWrapDoRangeError Opts).
    - exact (Wraps_range CI Func _ _ _ Hr).
    - injection Hr as <- <-. reflexivity. }
  destruct r2; [injection H as <- <-; exact H2|]. subst t2.
  exact (Wraps_errors Opts CI Func _ _ _ H).
Qed.

Lemma shrinkWrapCI_Ok CI c s s' :
  shrinkWrapCI CI (Some c) s = Ok (tt, s') ->
  exists L, Located (CIId CI) s L /\ s' = setBlocks (guarded L CI c) s.
Proof.
  intros H. destruct (locate (CIId CI) (Blocks (Fn s))) as [L|] eqn:E.
  - exists L. split; [exact E|].
    rewrite (shrinkWrapCI_Located CI c s L E) in H. now injection H.
  - unfold shrinkWrapCI, bind, SplitBlockAndInsertIfThen in H.
    rewrite E in H. discriminate H.
Qed.

(* ================================================================== *)
(** ** The rewrite *)

(** C8.  Whenever the pass rewrites a call, the function has afterwards a
    block that ends with a conditional branch on the predicate, annotated
    with the weights 1 : 2000; the weight 1 is that of the edge taken when
    the predicate is true, which leads to the block holding the call, and
    the weight 2000 that of the edge that skips the call.  This holds of
    the wrapping step itself and of every successful [perform1]. *)
Theorem rewrite_attaches_branch_weights CI :
  (forall c s s',
     shrinkWrapCI CI (Some c) s = Ok (tt, s') ->
     exists B1 Head CallBB Tail B2,
       Blocks (Fn s') = B1 ++ [Head; CallBB; Tail] ++ B2
       /\ Term Head = CondBr c (BBId CallBB) (BBId Tail) (Some (1, 2000)%N)
       /\ Insts CallBB = [ICall CI]
       /\ Term CallBB = Br (BBId Tail)
       /\ BBId CallBB <> BBId Tail)
  /\ (forall Opts TLI s s',
        perform1 Opts TLI CI s = Ok (true, s') ->
        exists c B1 Head CallBB Tail B2,
          Blocks (Fn s') = B1 ++ [Head; CallBB; Tail] ++ B2
          /\ Term Head = CondBr c (BBId CallBB) (BBId Tail) (Some (1, 2000)%N)
          /\ Insts CallBB = [ICall CI]
          /\ Term CallBB = Br (BBId Tail)
          /\ BBId CallBB <> BBId Tail).
Proof.
  assert (HA : forall c s s',
     shrinkWrapCI CI (Some c) s = Ok (tt, s') ->
     exists B1 Head CallBB Tail B2,
       Blocks (Fn s') = B1 ++ [Head; CallBB; Tail] ++ B2
       /\ Term Head = CondBr c (BBId CallBB) (BBId Tail) (Some (1, 2000)%N)
       /\ Insts CallBB = [ICall CI]
       /\ Term CallBB = Br (BBId Tail)
       /\ BBId CallBB <> BBId Tail).
  { intros c s s' H.
    destruct (shrinkWrapCI_Ok CI c s s' H) as (L & _ & ->).
    unfold guarded. do 5 eexists.
    split; [reflexivity|]. cbn [Term Insts BBId].
    repeat split. lia. }
  split; [exact HA|].
  intros Opts TLI s s' H.
  destruct (Wraps_perform1 Opts TLI CI s true s' H) as (c & s1 & Hw).
  exists c. exact (HA c s1 s' Hw).
Qed.

Lemma rewrite_attaches_branch_weights_witness :
  let CI := sample_call "sqrt" [sample_arg] in
  let s' := stateOf (perform1 allEnabled sample_TLI CI (sample_state CI))
                    (sample_state CI) in
  exists c B1 Head CallBB Tail B2,
    Blocks (Fn s') = B1 ++ [Head; CallBB; Tail] ++ B2
    /\ Term Head = CondBr c (BBId CallBB) (BBId Tail) (Some (1, 2000)%N)
    /\ Insts CallBB = [ICall CI]
    /\ Term CallBB = Br (BBId Tail)
    /\ BBId CallBB <> BBId Tail.
Proof.
  intros CI s'.
  exact (proj2 (rewrite_attaches_branch_weights CI)
           allEnabled sample_TLI (sample_state CI) s' eq_refl).
Defined.

(* ================================================================== *)
(** ** Dispatch *)

(** C7.  For a candidate whose callee resolves to [Func]: the domain-only
    category runs first when its toggle is enabled, and its rewrite ends the
    dispatch; otherwise the range-only category runs when its toggle is
    enabled, and its rewrite ends the dispatch; otherwise the result is that
    of the combined category.  With the domain toggle disabled the
    functions of the domain table are left untouched, with the range toggle
    disabled those of the range table, and the combined category declines
    as soon as one of the toggles it needs is disabled: domain or pole for
    atanh, the logarithms and log1p; domain, pole or range for the power
    functions. *)
Theorem dispatch_priority_and_toggles Opts TLI CI Callee Func s :
  getCalledFunction CI = Some Callee ->
  getLibFunc TLI Callee = Some Func ->
  LibFunc.to_bool Func = true ->
  let domainOff :=
    LibCallsShrinkWrapDoDomainError Opts = false
    \/ performCallDomainErrorOnly CI Func s = Ok (false, s) in
  let rangeOff :=
    LibCallsShrinkWrapDoRangeError Opts = false
    \/ performCallRangeErrorOnly CI Func s = Ok (false, s) in
  (forall s1,
     LibCallsShrinkWrapDoDomainError Opts = true ->
     performCallDomainErrorOnly CI Func s = Ok (true, s1) ->
     perform1 Opts TLI CI s = Ok (true, s1))
  /\ (forall s2,
        domainOff ->
        LibCallsShrinkWrapDoRangeError Opts = true ->
        performCallRangeErrorOnly CI Func s = Ok (true, s2) ->
        perform1 Opts TLI CI s = Ok (true, s2))
  /\ (domainOff -> rangeOff ->
      perform1 Opts TLI CI s = performCallErrors Opts CI Func s)
  /\ (LibCallsShrinkWrapDoDomainError Opts = false ->
      domainFamily Func <> None ->
      perform1 Opts TLI CI s = Ok (false, s))
  /\ (LibCallsShrinkWrapDoRangeError Opts = false ->
      rangeTable Func <> None ->
      perform1 Opts TLI CI s = Ok (false, s))
  /\ (LibCallsShrinkWrapDoDomainError Opts = false
      \/ LibCallsShrinkWrapDoPoleError Opts = false ->
      combinedFamily Func <> None ->
      perform1 Opts TLI CI s = Ok (false, s))
  /\ (LibCallsShrinkWrapDoDomainError Opts = false
      \/ LibCallsShrinkWrapDoPoleError Opts = false
      \/ LibCallsShrinkWrapDoRangeError Opts = false ->
      isPowFamily Func = true ->
      perform1 Opts TLI CI s = Ok (false, s)).
Proof.
  intros HC HF HB domainOff rangeOff.
  assert (Hdom : domainOff ->
    (if LibCallsShrinkWrapDoDomainError Opts
     then performCallDomainErrorOnly CI Func
     else ret false) s = Ok (false, s)).
  { intros [-> | H]; [reflexivity|].
    now destruct (LibCallsShrinkWrapDoDomainError Opts). }
  assert (Hran : rangeOff ->
    (if LibCallsShrinkWrapDoRangeError Opts
     then performCallRangeErrorOnly CI Func
     else ret false) s = Ok (false, s)).
  { intros [-> | H]; [reflexivity|].
    now destruct (LibCallsShrinkWrapDoRangeError Opts). }
  unfold perform1. rewrite HC, HF, HB. cbn [negb].
  split; [|split; [|split; [|split; [|split; [|split]]]]].
  - intros s1 HD H. unfold bind. now rewrite HD, H.
  - intros s2 Hd HR H. unfold bind at 1. rewrite (Hdom Hd).
    unfold bind. now rewrite HR, H.
  - intros Hd Hr. unfold bind at 1. rewrite (Hdom Hd).
    unfold bind at 1. now rewrite (Hran Hr).
  - intros HD Hfam. rewrite HD.
    destruct Func; try (now contradiction Hfam);
      destruct (LibCallsShrinkWrapDoRangeError Opts); reflexivity.
  - intros HR Htab. rewrite HR.
    destruct Func; try (now contradiction Htab);
      destruct (LibCallsShrinkWrapDoDomainError Opts); reflexivity.
  - intros Hoff Hfam. clear Hdom Hran. unfold performCallErrors.
    destruct Func; try (now contradiction Hfam);
      destruct Hoff as [-> | Hoff];
      destruct (LibCallsShrinkWrapDoDomainError Opts),
               (LibCallsShrinkWrapDoRangeError Opts),
               (LibCallsShrinkWrapDoPoleError Opts);
      try discriminate Hoff; reflexivity.
  - intros Hoff Hpow. clear Hdom Hran. unfold performCallErrors.
    destruct Func; try discriminate Hpow;
      destruct (LibCallsShrinkWrapDoDomainError Opts),
               (LibCallsShrinkWrapDoRangeError Opts),
               (LibCallsShrinkWrapDoPoleError Opts);
      try (destruct Hoff as [Hoff | [Hoff | Hoff]]; discriminate Hoff);
      reflexivity.
Qed.

Lemma dispatch_priority_and_toggles_witness :
  let CI := sample_call "sqrt" [sample_arg] in
  perform1 (mkOptions false true true) sample_TLI CI (sample_state CI)
  = Ok (false, sample_state CI)
  /\ perform1 allEnabled sample_TLI CI (sample_state CI)
     = performCallDomainErrorOnly CI LibFunc.sqrt (sample_state CI).
Proof.
  intros CI. split.
  - refine (proj1 (proj2 (proj2 (proj2
      (dispatch_priority_and_toggles (mkOptions false true true) sample_TLI CI
         "sqrt"%string LibFunc.sqrt (sample_state CI) eq_refl eq_refl eq_refl))))
      eq_refl _).
    discriminate.
  - refine (proj1
      (dispatch_priority_and_toggles allEnabled sample_TLI CI
         "sqrt"%string LibFunc.sqrt (sample_state CI) eq_refl eq_refl eq_refl)
      _ eq_refl eq_refl).
Defined.

(* ================================================================== *)
(** ** Calls stay in the function *)

Lemma existsb_splitInsts id l :
  existsb (isCall id) l = true -> exists r, splitInsts id l = Some r.
Proof.
  induction l as [|i r IH]; cbn; [discriminate|].
  destruct (isCall id i); cbn; [eauto|].
  intros H. destruct (IH H) as ([[pre x] post] & ->). eauto.
Qed.

Lemma hasCall_locate id bs :
  hasCall id bs = true -> exists L, locate id bs = Some L.
Proof.
  induction bs as [|b r IH]; cbn; [discriminate|].
  destruct (existsb (isCall id) (Insts b)) eqn:E; cbn.
  - destruct (existsb_splitInsts id _ E) as ([[pre x] post] & ->). eauto.
  - intros H. destruct (IH H) as (L & ->).
    destruct (splitInsts id (Insts b)) as [[[pre x] post]|]; eauto.
Qed.

Lemma existsb_noCalls id new :
  forallb (fun i => negb (isAnyCall i)) new = true ->
  existsb (isCall id) new = false.
Proof.
  induction new as [|i r IH]; cbn; [reflexivity|].
  destruct i; cbn; try discriminate; exact IH.
Qed.

Lemma hasCall_app id a b : hasCall id (a ++ b) = hasCall id a || hasCall id b.
Proof. apply existsb_app. Qed.

Lemma Keeps_guarded CI s L c s' :
  Located (CIId CI) s L ->
  Blocks (Fn s') = guarded L CI c ->
  Keeps s s'.
Proof.
  intros HL Hs' id.
  destruct (locate_Some _ _ _ HL) as (Hbs & Hins & Hx & _ & _).
  rewrite Hs', Hbs. unfold guarded.
  rewrite !hasCall_app. cbn [hasCall existsb Insts withInsts].
  rewrite Hins, !existsb_app.
  cbn [existsb].
  assert (Hid : isCall id (LInst L) = (CIId CI =? id)%N).
  { destruct (LInst L) as [CI0| | |]; try discriminate Hx.
    cbn in *. apply N.eqb_eq in Hx. now rewrite Hx. }
  rewrite Hid. cbn [isCall].
  destruct (hasCall id (LBefore L)), (existsb (isCall id) (LPre L)),
    (CIId CI =? id)%N, (existsb (isCall id) (LPost L)); reflexivity.
Qed.

Lemma Keeps_refl s : Keeps s s.
Proof. intros id. reflexivity. Qed.

Lemma Keeps_Insert CI i s s' :
  isAnyCall i = false ->
  Insert CI i s = Ok (tt, s') -> Keeps s s'.
Proof.
  intros Hi H id. unfold Insert, updBlocks in H.
  destruct (locate (CIId CI) (Blocks (Fn s))) as [L|] eqn:E; [|discriminate].
  injection H as <-.
  destruct (locate_Some _ _ _ E) as (Hbs & Hins & _).
  destruct s as [[o bs] wl ch n1 n2]. cbn [Fn Blocks setBlocks] in *.
  rewrite Hbs, !hasCall_app. cbn [hasCall existsb Insts withInsts].
  rewrite Hins, !existsb_app. cbn [existsb].
  assert (Hid : isCall id i = false) by (destruct i; try reflexivity; discriminate).
  rewrite Hid. reflexivity.
Qed.

(* ================================================================== *)
(** ** What no step of a rewrite touches *)

Lemma Frame_refl s : Frame s s.
Proof. repeat split. Qed.

Lemma Frame_trans s1 s2 s3 : Frame s1 s2 -> Frame s2 s3 -> Frame s1 s3.
Proof.
  intros (A1 & B1 & C1 & D1) (A2 & B2 & C2 & D2).
  split; [congruence|]. split; [congruence|]. split; [congruence|].
  intros id. now rewrite D2, D1.
Qed.

Lemma Preserves_ret {A} (a : A) : Preserves (ret a).
Proof. intros s b s' [= _ <-]. apply Frame_refl. Qed.

Lemma Preserves_fatal {A} c : Preserves (@fatal A c).
Proof. intros s b s' H. discriminate H. Qed.

Lemma Preserves_bind {A B} (m : M A) (k : A -> M B) :
  Preserves m -> (forall a, Preserves (k a)) -> Preserves (bind m k).
Proof.
  intros Hm Hk s b s' H. apply bind_Ok in H. destruct H as (a & s1 & H1 & H2).
  eapply Frame_trans; [eapply Hm | eapply Hk]; eassumption.
Qed.

Lemma Preserves_incOneCond : Preserves (modify incOneCond).
Proof. intros s b s' [= _ <-]. repeat split. Qed.

Lemma Preserves_incTwoCond : Preserves (modify incTwoCond).
Proof. intros s b s' [= _ <-]. repeat split. Qed.

Lemma Preserves_getArgOperand CI i : Preserves (getArgOperand CI i).
Proof.
  unfold getArgOperand. destruct (nth_error _ _);
    [apply Preserves_ret | apply Preserves_fatal].
Qed.

Lemma Preserves_getOperand ops i : Preserves (getOperand ops i).
Proof.
  unfold getOperand. destruct (nth_error _ _);
    [apply Preserves_ret | apply Preserves_fatal].
Qed.

Lemma Preserves_getFPExtend V ty : Preserves (getFPExtend V ty).
Proof.
  unfold getFPExtend.
  destruct V as [[] v| |]; try apply Preserves_fatal;
    destruct ty; first [apply Preserves_fatal | apply Preserves_ret].
Qed.

Lemma Preserves_Insert CI i : isAnyCall i = false -> Preserves (Insert CI i).
Proof.
  intros Hi s [] s' H. repeat split;
    try (unfold Insert, updBlocks in H;
         destruct (locate _ _); [|discriminate]; now injection H as <-).
  exact (Keeps_Insert CI i s s' Hi H).
Qed.

Lemma Preserves_CreateFCmp CI p a b : Preserves (CreateFCmp CI p a b).
Proof.
  unfold CreateFCmp. destruct (Type_eqb _ _); [|apply Preserves_fatal].
  apply Preserves_bind;
    [now apply Preserves_Insert | intros; apply Preserves_ret].
Qed.

Lemma Preserves_CreateOr CI a b : Preserves (CreateOr CI a b).
Proof.
  apply Preserves_bind;
    [now apply Preserves_Insert | intros; apply Preserves_ret].
Qed.

Lemma Preserves_shrinkWrapCI CI c : Preserves (shrinkWrapCI CI c).
Proof.
  destruct c as [c|]; [|apply Preserves_fatal].
  intros s [] s' H.
  destruct (shrinkWrapCI_Ok CI c s s' H) as (L & HL & ->).
  repeat split. eapply Keeps_guarded; [exact HL | reflexivity].
Qed.

Lemma Preserves_convertToDouble ty v : Preserves (convertToDouble ty v).
Proof.
  unfold convertToDouble.
  destruct (isDoubleTy ty); [apply Preserves_ret | apply Preserves_fatal].
Qed.

(** Prove that a computation built from the steps above keeps the frame. *)
Ltac preserves :=
  repeat first
    [ apply Preserves_ret
    | apply Preserves_fatal
    | apply Preserves_incOneCond
    | apply Preserves_incTwoCond
    | apply Preserves_getArgOperand
    | apply Preserves_getOperand
    | apply Preserves_getFPExtend
    | apply Preserves_CreateFCmp
    | apply Preserves_CreateOr
    | apply Preserves_convertToDouble
    | apply Preserves_shrinkWrapCI
    | apply Preserves_bind; [|intros]
    | progress cbv zeta
    | match goal with
      | |- Preserves (if ?b then _ else _) => destruct b
      | |- Preserves (match ?x with _ => _ end) => destruct x
      end ].

Lemma Preserves_createCond_ CI Arg p v : Preserves (createCond_ CI Arg p v).
Proof. unfold createCond_. preserves. Qed.

Lemma Preserves_createCond CI p v : Preserves (createCond CI p v).
Proof. unfold createCond. preserves. Qed.

Lemma Preserves_createOrCond CI p v p2 v2 : Preserves (createOrCond CI p v p2 v2).
Proof.
  unfold createOrCond. preserves.
Qed.

Lemma Preserves_domain CI Func : Preserves (performCallDomainErrorOnly CI Func).
Proof.
  unfold performCallDomainErrorOnly.
  destruct Func; preserves;
    try first [apply Preserves_createOrCond | apply Preserves_createCond
              | apply Preserves_shrinkWrapCI].
Qed.

Lemma Preserves_range CI Func : Preserves (performCallRangeErrorOnly CI Func).
Proof.
  unfold performCallRangeErrorOnly, generateTwoRangeCond, generateOneRangeCond.
  destruct Func; preserves;
    try first [apply Preserves_createOrCond | apply Preserves_createCond
              | apply Preserves_shrinkWrapCI].
Qed.

Lemma Preserves_generateCondForPow CI Func : Preserves (generateCondForPow CI Func).
Proof.
  unfold generateCondForPow. destruct Func; preserves.
Qed.

Lemma Preserves_errors Opts CI Func : Preserves (performCallErrors Opts CI Func).
Proof.
  unfold performCallErrors.
  destruct Func; preserves;
    try first [apply Preserves_createOrCond | apply Preserves_createCond
              | apply Preserves_shrinkWrapCI
              | apply Preserves_generateCondForPow].
Qed.

Lemma Preserves_perform1 Opts TLI CI : Preserves (perform1 Opts TLI CI).
Proof.
  unfold perform1.
  destruct (getCalledFunction CI); [|apply Preserves_fatal].
  destruct (getLibFunc TLI f); [|apply Preserves_fatal].
  destruct (negb _); [apply Preserves_fatal|].
  apply Preserves_bind.
  - destruct (LibCallsShrinkWrapDoDomainError Opts);
      [apply Preserves_domain | apply Preserves_ret].
  - intros [|]; [apply Preserves_ret|].
    apply Preserves_bind.
    + destruct (LibCallsShrinkWrapDoRangeError Opts);
        [apply Preserves_range | apply Preserves_ret].
    + intros [|]; [apply Preserves_ret | apply Preserves_errors].
Qed.

(* ================================================================== *)
(** ** The scan *)

Lemma pushAll_nil s : pushAll [] s = s.
Proof. destruct s. unfold pushAll. cbn. now rewrite app_nil_r. Qed.

Lemma pushAll_app a b s : pushAll b (pushAll a s) = pushAll (a ++ b) s.
Proof. unfold pushAll. cbn. now rewrite app_assoc. Qed.

Lemma checkCandidate_hasFirstArg TLI CI s :
  hasFirstArg TLI CI = true ->
  checkCandidate TLI CI s
  = Ok (tt, pushAll (filter (isCandidate TLI) [CI]) s).
Proof.
  unfold hasFirstArg. intros H. cbn [filter].
  destruct (isDeadLibCall TLI CI) eqn:E.
  - destruct (ArgOperands CI) as [|Arg rest] eqn:HA; [discriminate H|].
    rewrite (checkCandidate_with_argument TLI CI Arg rest s HA).
    destruct (isCandidate TLI CI); [reflexivity | now rewrite pushAll_nil].
  - rewrite (checkCandidate_skips TLI CI s E).
    unfold isCandidate. rewrite E. cbn. now rewrite pushAll_nil.
Qed.

Lemma forEach_visitInstr TLI l s :
  forallb (hasFirstArg TLI) (callsIn l) = true ->
  forEach (visitInstr TLI) l s
  = Ok (tt, pushAll (filter (isCandidate TLI) (callsIn l)) s).
Proof.
  revert s. induction l as [|i r IH]; intros s H.
  - cbn. now rewrite pushAll_nil.
  - cbn [forEach]. unfold bind.
    destruct i as [CI| | |]; cbn [visitInstr callsIn flat_map app] in *;
      try (unfold ret at 1; now apply IH).
    apply andb_true_iff in H as [H1 H2].
    unfold visitCallInst. rewrite (checkCandidate_hasFirstArg TLI CI s H1).
    fold (callsIn r). rewrite (IH _ H2), pushAll_app.
    cbn [filter]. destruct (isCandidate TLI CI); reflexivity.
Qed.

Lemma visit_spec TLI F s :
  forallb (hasFirstArg TLI) (callsOf (Blocks F)) = true ->
  visit TLI F s = Ok (tt, pushAll (candidates TLI F) s).
Proof.
  unfold visit, candidates. generalize (Blocks F) as bs. clear F.
  intros bs. revert s. induction bs as [|b r IH]; intros s H.
  - cbn. now rewrite pushAll_nil.
  - cbn [forEach callsOf flat_map] in *. fold (callsOf r) in *.
    rewrite forallb_app in H. apply andb_true_iff in H as [H1 H2].
    unfold bind. rewrite (forEach_visitInstr TLI _ s H1).
    rewrite (IH _ H2), pushAll_app, filter_app. reflexivity.
Qed.

Lemma In_callsOf_hasCall CI bs :
  In CI (callsOf bs) -> hasCall (CIId CI) bs = true.
Proof.
  unfold callsOf, hasCall. intros H.
  apply in_flat_map in H. destruct H as (b & Hb & H).
  apply existsb_exists. exists b. split; [exact Hb|].
  unfold callsIn in H. apply in_flat_map in H. destruct H as (i & Hi & H).
  apply existsb_exists. exists i. split; [exact Hi|].
  destruct i; cbn in H; try contradiction.
  destruct H as [-> | []]. cbn. apply N.eqb_refl.
Qed.

(* ================================================================== *)
(** ** Well-formed calls *)

Lemma Type_eqb_eq a b : Type_eqb a b = true -> a = b.
Proof.
  destruct a, b; cbn; try discriminate; try reflexivity;
    intros H; apply N.eqb_eq in H; now subst.
Qed.

Lemma generateCondForPow_conversion CI Exp rest s L id op ty Op0 ops :
  ArgOperands CI = Instruction id op ty (Op0 :: ops) :: Exp :: rest ->
  op = UIToFP \/ op = SIToFP ->
  getType Exp = ty -> isSupported ty = true ->
  Located (CIId CI) s L ->
  exists r s',
    generateCondForPow CI LibFunc.pow s = Ok (r, s')
    /\ (widthBound (getPrimitiveSizeInBits (getType Op0)) = None ->
        r = None /\ s' = s).
Proof.
  intros HArg Hop HE HTy HLoc.
  destruct (widthBound (getPrimitiveSizeInBits (getType Op0))) as [U|] eqn:HW.
  - assert (Hchain := widthBound_spec (fun z => z)
                        (getPrimitiveSizeInBits (getType Op0))).
    rewrite HW in Hchain. cbn [option_map] in Hchain.
    assert (H := generateCondForPow_widened CI Exp rest s L id op ty Op0
                   ops U HArg Hop Hchain HE HTy HLoc).
    cbv zeta in H. do 2 eexists. split; [exact H|]. discriminate.
  - exists None, s. split; [|auto].
    unfold generateCondForPow, getArgOperand.
    rewrite HArg. cbn [nth_error]. unfold bind at 1, ret at 1.
    unfold bind at 1, ret at 1.
    destruct Hop as [-> | ->]; unfold bind at 1;
      change (getOperand (Op0 :: ops) 0 s) with (Ok (Op0, s));
      cbv beta iota;
      rewrite (widthBound_spec float_lit), HW; reflexivity.
Qed.

(** ** Every category returns *)

Section Returns.

Variables (CI : CallInst) (Arg : Value) (rest : list Value) (s : State).
Hypothesis HArg : ArgOperands CI = Arg :: rest.
Hypothesis HTy : isSupported (getType Arg) = true.
Hypothesis HCall : hasCall (CIId CI) (Blocks (Fn s)) = true.

Lemma domain_Returns Func : Returns (performCallDomainErrorOnly CI Func) s.
Proof.
  destruct (hasCall_locate _ _ HCall) as (L & HLoc).
  unfold Returns.
  destruct Func; try (do 2 eexists; reflexivity);
    unfold performCallDomainErrorOnly;
    first
      [ rewrite (run_createOrCond CI Arg rest s L HArg HTy HLoc _ _ _ _ incTwoCond
                   setBlocks_incTwoCond (fun _ => eq_refl))
      | rewrite (run_createCond CI Arg rest s L HArg HTy HLoc _ _ incOneCond
                   setBlocks_incOneCond (fun _ => eq_refl)) ];
    do 2 eexists; reflexivity.
Qed.

Lemma range_Returns Func : Returns (performCallRangeErrorOnly CI Func) s.
Proof.
  destruct (hasCall_locate _ _ HCall) as (L & HLoc).
  assert (HLoc1 : Located (CIId CI) (incOneCond s) L) by exact HLoc.
  assert (HLoc2 : Located (CIId CI) (incTwoCond s) L) by exact HLoc.
  unfold Returns.
  destruct Func; try (do 2 eexists; reflexivity);
    unfold performCallRangeErrorOnly, generateTwoRangeCond, generateOneRangeCond;
    unfold bind, ret, modify; cbn [fst snd];
    first
      [ rewrite (createOrCond_Located CI Arg rest _ _ _ _ _ L HArg HLoc2 HTy)
      | rewrite (createCond_Located CI Arg rest _ _ _ L HArg HLoc1 HTy) ];
    (erewrite wrap_Located; [| eassumption | reflexivity]);
    do 2 eexists; reflexivity.
Qed.

Lemma generateCondForPow_Returns :
  wfPowArgs CI = true ->
  exists r s', generateCondForPow CI LibFunc.pow s = Ok (r, s')
               /\ match r with
                  | Some _ => hasCall (CIId CI) (Blocks (Fn s')) = true
                  | None => True
                  end.
Proof.
  intros Hwf. destruct (hasCall_locate _ _ HCall) as (L & HLoc).
  unfold wfPowArgs in Hwf. rewrite HArg in Hwf.
  destruct rest as [|Exp rest']; [discriminate Hwf|].
  apply andb_true_iff in Hwf as [HE Hwf]. apply Type_eqb_eq in HE.
  assert (HTyE : isSupported (getType Exp) = true) by now rewrite HE.
  assert (Hkeep : forall c s',
            generateCondForPow CI LibFunc.pow s = Ok (Some c, s') ->
            hasCall (CIId CI) (Blocks (Fn s')) = true).
  { intros c s' H.
    destruct (Preserves_generateCondForPow CI LibFunc.pow s _ s' H)
      as (_ & _ & _ & HK).
    now rewrite HK. }
  destruct Arg as [ty B | id op ty ops | id ty].
  - destruct ty; try discriminate Hwf.
    assert (H := generateCondForPow_constant CI Exp rest' s L B HArg HTyE HLoc).
    destruct (baseOutOfRange B); cbv zeta in H;
      do 2 eexists; (split; [exact H|]); [exact I | eapply Hkeep; exact H].
  - assert (Hdecl : generateCondForPow CI LibFunc.pow s = Ok (None, s) ->
                    exists r s', generateCondForPow CI LibFunc.pow s = Ok (r, s')
                      /\ match r with
                         | Some _ => hasCall (CIId CI) (Blocks (Fn s')) = true
                         | None => True
                         end).
    { intros H. exists None, s. now split. }
    destruct op as [| |n];
      [ destruct ops as [|Op0 ops]; [discriminate Hwf|];
        destruct (generateCondForPow_conversion CI Exp rest' s L id UIToFP ty
                    Op0 ops HArg (or_introl eq_refl) HE HTy HLoc)
          as (r & s' & H & _)
      | destruct ops as [|Op0 ops]; [discriminate Hwf|];
        destruct (generateCondForPow_conversion CI Exp rest' s L id SIToFP ty
                    Op0 ops HArg (or_intror eq_refl) HE HTy HLoc)
          as (r & s' & H & _)
      | apply Hdecl; unfold generateCondForPow, getArgOperand;
        rewrite HArg; reflexivity ];
      (exists r, s'; split; [exact H|];
       destruct r; [eapply Hkeep; exact H | exact I]).
  - exists None, s. split; [|exact I].
    unfold generateCondForPow, getArgOperand. rewrite HArg. reflexivity.
Qed.

Lemma errors_Returns Opts Func :
  (Func = LibFunc.pow -> wfPowArgs CI = true) ->
  Returns (performCallErrors Opts CI Func) s.
Proof.
  intros Hwf. destruct (hasCall_locate _ _ HCall) as (L & HLoc).
  unfold Returns.
  destruct Func; try (do 2 eexists; reflexivity); unfold performCallErrors;
    match goal with
    | |- exists _ _, (if ?t then _ else _) _ = _ =>
        destruct t; [do 2 eexists; reflexivity|]
    end;
    try (first
      [ rewrite (run_createOrCond CI Arg rest s L HArg HTy HLoc _ _ _ _ incTwoCond
                   setBlocks_incTwoCond (fun _ => eq_refl))
      | rewrite (run_createCond CI Arg rest s L HArg HTy HLoc _ _ incOneCond
                   setBlocks_incOneCond (fun _ => eq_refl)) ];
      do 2 eexists; reflexivity);
    try (do 2 eexists; reflexivity).
  destruct (generateCondForPow_Returns (Hwf eq_refl)) as (r & s' & H & Hr).
  unfold bind at 1. rewrite H.
  destruct r as [c|]; [|do 2 eexists; reflexivity].
  destruct (hasCall_locate _ _ Hr) as (L' & HLoc').
  unfold bind. rewrite (shrinkWrapCI_Located CI c s' L' HLoc').
  do 2 eexists; reflexivity.
Qed.

End Returns.

Lemma perform1_Returns Opts TLI CI s :
  isCandidate TLI CI = true -> wfCandidate TLI CI = true ->
  hasCall (CIId CI) (Blocks (Fn s)) = true ->
  Returns (perform1 Opts TLI CI) s.
Proof.
  unfold isCandidate, isDeadLibCall, wfCandidate, perform1, Returns.
  intros Hc Hwf HCall.
  destruct (getCalledFunction CI) as [Callee|];
    [|now rewrite !andb_false_r in Hc].
  destruct (getLibFunc TLI Callee) as [Func|];
    [|now rewrite !andb_false_r in Hc].
  apply andb_true_iff in Hc as [_ Hc].
  destruct (ArgOperands CI) as [|Arg rest] eqn:HArg; [discriminate Hc|].
  apply andb_true_iff in Hwf as [Hb Hwf]. rewrite Hb. cbn [negb].
  assert (Hd : exists b1 s1,
    (if LibCallsShrinkWrapDoDomainError Opts
     then performCallDomainErrorOnly CI Func else ret false) s = Ok (b1, s1)
    /\ (b1 = false -> s1 = s)).
  { destruct (LibCallsShrinkWrapDoDomainError Opts).
    - destruct (domain_Returns CI Arg rest s HArg Hc HCall Func) as (b1 & s1 & H).
      exists b1, s1. split; [exact H|]. intros ->.
      exact (Wraps_domain CI Func _ _ _ H).
    - exists false, s. now split. }
  destruct Hd as (b1 & s1 & Hd & Hd').
  unfold bind at 1. rewrite Hd.
  destruct b1; [do 2 eexists; reflexivity|]. rewrite (Hd' eq_refl).
  assert (Hr : exists b2 s2,
    (if LibCallsShrinkWrapDoRangeError Opts
     then performCallRangeErrorOnly CI Func else ret false) s = Ok (b2, s2)
    /\ (b2 = false -> s2 = s)).
  { destruct (LibCallsShrinkWrapDoRangeError Opts).
    - destruct (range_Returns CI Arg rest s HArg Hc HCall Func) as (b2 & s2 & H).
      exists b2, s2. split; [exact H|]. intros ->.
      exact (Wraps_range CI Func _ _ _ H).
    - exists false, s. now split. }
  destruct Hr as (b2 & s2 & Hr & Hr').
  unfold bind at 1. rewrite Hr.
  destruct b2; [do 2 eexists; reflexivity|]. rewrite (Hr' eq_refl).
  apply (errors_Returns CI Arg rest s HArg Hc HCall Opts Func).
  intros ->. exact Hwf.
Qed.

(* ================================================================== *)
(** ** The pass on a function *)

Lemma loop_Changed Opts TLI WL s s' :
  forEach (performStep Opts TLI) WL s = Ok (tt, s') ->
  WorkList s' = WorkList s
  /\ (Changed s' = true <-> Changed s = true \/ Succeeded Opts TLI WL s)
  /\ (Changed s' = false -> s' = s).
Proof.
  revert s. induction WL as [|CI WL IH]; intros s H.
  - injection H as <-. split; [reflexivity|]. split; [|reflexivity].
    split; [auto|]. intros [H|H]; [exact H | inversion H].
  - cbn [forEach] in H. apply bind_Ok in H. destruct H as ([] & t & Hs & H).
    unfold performStep in Hs. apply bind_Ok in Hs.
    destruct Hs as (b & s1 & Hp & Hs).
    destruct (Preserves_perform1 Opts TLI CI s b s1 Hp) as (HW & HC & _).
    destruct (IH _ H) as (IW & IC & IU).
    destruct b.
    + injection Hs as <-. cbn [WorkList Changed setChanged] in *.
      split; [congruence|]. split.
      * split; [intros _; right; econstructor; exact Hp|].
        intros _. apply IC. now left.
      * intros Hf. assert (Ht : Changed s' = true) by (apply IC; now left).
        congruence.
    + injection Hs as <-.
      assert (Hs1 : s1 = s) by exact (Wraps_perform1 Opts TLI CI _ _ _ Hp).
      subst s1. split; [exact IW|]. split; [|exact IU].
      rewrite IC. split; (intros [Hc | Hc]; [now left | right]).
      * eapply Succeeded_later; eassumption.
      * inversion Hc; subst; [congruence|].
        match goal with
        | H1 : perform1 _ _ _ _ = Ok (false, ?x) |- _ =>
            rewrite Hp in H1; injection H1 as <-
        end.
        assumption.
Qed.

Lemma loop_Returns Opts TLI WL s :
  Forall (fun CI => isCandidate TLI CI = true /\ wfCandidate TLI CI = true
                    /\ hasCall (CIId CI) (Blocks (Fn s)) = true) WL ->
  exists s', forEach (performStep Opts TLI) WL s = Ok (tt, s').
Proof.
  revert s. induction WL as [|CI WL IH]; intros s HF.
  - eexists; reflexivity.
  - inversion HF as [|? ? (Hc & Hw & Hh) HF']; subst.
    destruct (perform1_Returns Opts TLI CI s Hc Hw Hh) as (b & s1 & Hp).
    destruct (Preserves_perform1 Opts TLI CI s b s1 Hp) as (_ & _ & _ & HK).
    set (s2 := if b then setChanged s1 else s1).
    assert (Hs2 : performStep Opts TLI CI s = Ok (tt, s2)).
    { unfold performStep, bind. rewrite Hp. subst s2. now destruct b. }
    destruct (IH s2) as (s' & H').
    { eapply Forall_impl; [|exact HF'].
      intros CI' (A & B & C). repeat split; auto.
      subst s2. destruct b; cbn [Fn setChanged]; now rewrite HK. }
    exists s'. cbn [forEach]. unfold bind. now rewrite Hs2.
Qed.

Lemma checkCandidate_Ok TLI CI s s' :
  checkCandidate TLI CI s = Ok (tt, s') ->
  s' = pushAll (filter (isCandidate TLI) [CI]) s.
Proof.
  intros H. destruct (hasFirstArg TLI CI) eqn:E.
  - rewrite (checkCandidate_hasFirstArg TLI CI s E) in H. now injection H.
  - exfalso. unfold hasFirstArg in E. apply orb_false_iff in E as [E1 E2].
    apply negb_false_iff in E1.
    unfold checkCandidate, getArgOperand in H. unfold isDeadLibCall in E1.
    destruct (isNoBuiltin CI); [discriminate E1|].
    destruct (use_empty CI); [|discriminate E1].
    destruct (getCalledFunction CI) as [Callee|]; [|discriminate E1].
    destruct (getLibFunc TLI Callee) as [Func|]; [|discriminate E1].
    destruct (has TLI Func); [|discriminate E1].
    destruct (ArgOperands CI); [discriminate H | discriminate E2].
Qed.

Lemma forEach_visitInstr_Ok TLI l s s' :
  forEach (visitInstr TLI) l s = Ok (tt, s') ->
  s' = pushAll (filter (isCandidate TLI) (callsIn l)) s.
Proof.
  revert s. induction l as [|i r IH]; intros s H.
  - injection H as <-. now rewrite pushAll_nil.
  - cbn [forEach] in H. apply bind_Ok in H. destruct H as ([] & t & Hi & H).
    apply IH in H. subst s'.
    destruct i as [CI| | |]; cbn [visitInstr callsIn flat_map app];
      try (injection Hi as <-; reflexivity).
    apply checkCandidate_Ok in Hi. subst t. fold (callsIn r).
    rewrite pushAll_app. cbn [filter].
    destruct (isCandidate TLI CI); reflexivity.
Qed.

Lemma visit_Ok TLI F s s' :
  visit TLI F s = Ok (tt, s') -> s' = pushAll (candidates TLI F) s.
Proof.
  unfold visit, candidates. generalize (Blocks F) as bs. clear F.
  intros bs. revert s. induction bs as [|b r IH]; intros s H.
  - injection H as <-. now rewrite pushAll_nil.
  - cbn [forEach] in H. apply bind_Ok in H. destruct H as ([] & t & Hb & H).
    apply IH in H. apply forEach_visitInstr_Ok in Hb. subst s' t.
    cbn [callsOf flat_map]. fold (callsOf r).
    now rewrite pushAll_app, filter_app.
Qed.

Lemma perform_performStep Opts TLI :
  perform Opts TLI
  = (WL <- gets WorkList ;; forEach (performStep Opts TLI) WL).
Proof. reflexivity. Qed.

Lemma wfFunction_candidates TLI F CI :
  wfFunction TLI F = true -> In CI (candidates TLI F) ->
  isCandidate TLI CI = true /\ wfCandidate TLI CI = true
  /\ hasCall (CIId CI) (Blocks F) = true.
Proof.
  unfold wfFunction, candidates. intros Hwf Hin.
  apply filter_In in Hin. destruct Hin as [Hin Hc].
  rewrite forallb_forall in Hwf. specialize (Hwf CI Hin).
  unfold wfCall in Hwf. rewrite Hc in Hwf.
  apply andb_true_iff in Hwf as [_ Hwf]. cbn in Hwf.
  repeat split; auto. now apply In_callsOf_hasCall.
Qed.

Lemma wfFunction_hasFirstArg TLI F :
  wfFunction TLI F = true ->
  forallb (hasFirstArg TLI) (callsOf (Blocks F)) = true.
Proof.
  unfold wfFunction. rewrite !forallb_forall. intros H CI Hin.
  specialize (H CI Hin). unfold wfCall in H.
  now apply andb_true_iff in H as [H _].
Qed.

(* ================================================================== *)
(** ** The checks of the pass *)

Lemma Safe_ret {A} (Q : A -> Prop) a : Q a -> Safe Q (ret a).
Proof. intros H s. exact H. Qed.

Lemma Safe_fatal {A} (Q : A -> Prop) c : interfaceCheck c -> Safe Q (@fatal A c).
Proof. intros H s. exact H. Qed.

Lemma Safe_bind {A B} (Q : A -> Prop) (R : B -> Prop) m k :
  Safe Q m -> (forall a, Q a -> Safe R (k a)) -> Safe R (bind m k).
Proof.
  intros Hm Hk s. unfold bind. specialize (Hm s).
  destruct (m s) as [[a s1]|c]; [|exact Hm]. exact (Hk a Hm s1).
Qed.

Lemma Safe_weaken {A} (Q : A -> Prop) m : Safe Q m -> Safe anything m.
Proof.
  intros H s. specialize (H s). destruct (m s) as [[a s1]|c]; [exact I | exact H].
Qed.

Lemma Safe_modify f : Safe anything (modify f).
Proof. intros s. exact I. Qed.

Lemma Safe_updBlocks f : Safe anything (updBlocks f).
Proof. intros s. unfold updBlocks. destruct (f _); exact I. Qed.

Lemma Safe_getArgOperand CI i : Safe anything (getArgOperand CI i).
Proof. intros s. unfold getArgOperand. destruct (nth_error _ _); exact I. Qed.

Lemma Safe_getOperand ops i : Safe anything (getOperand ops i).
Proof. intros s. unfold getOperand. destruct (nth_error _ _); exact I. Qed.

Lemma Safe_getFPExtend V ty : Safe anything (getFPExtend V ty).
Proof.
  intros s. unfold getFPExtend.
  destruct V as [[] v| |]; try exact I; destruct ty; exact I.
Qed.

Lemma Safe_convertToDouble ty v : Safe anything (convertToDouble ty v).
Proof. intros s. unfold convertToDouble. destruct (isDoubleTy ty); exact I. Qed.

Lemma Safe_CreateFCmp CI p a b : Safe anything (CreateFCmp CI p a b).
Proof.
  unfold CreateFCmp. destruct (Type_eqb _ _); [|now apply Safe_fatal].
  eapply Safe_bind; [apply Safe_updBlocks | intros; now apply Safe_ret].
Qed.

Lemma Safe_CreateOr CI a b : Safe anything (CreateOr CI a b).
Proof.
  eapply Safe_bind; [apply Safe_updBlocks | intros; now apply Safe_ret].
Qed.

Lemma Safe_SplitBlockAndInsertIfThen c CI w :
  Safe anything (SplitBlockAndInsertIfThen c CI w).
Proof.
  intros s. unfold SplitBlockAndInsertIfThen. destruct (locate _ _); exact I.
Qed.

Lemma Safe_getSingleSuccessor BB : Safe anything (getSingleSuccessor BB).
Proof.
  intros s. unfold getSingleSuccessor.
  destruct (getBlock _ _) as [b|]; [|exact I]. destruct (Term b); exact I.
Qed.

(** Prove that a computation built from the steps above is safe. *)
Ltac safe :=
  repeat first
    [ apply Safe_ret; exact I
    | apply Safe_fatal; exact I
    | apply Safe_modify
    | apply Safe_updBlocks
    | apply Safe_getArgOperand
    | apply Safe_getOperand
    | apply Safe_getFPExtend
    | apply Safe_convertToDouble
    | apply Safe_CreateFCmp
    | apply Safe_CreateOr
    | apply Safe_SplitBlockAndInsertIfThen
    | apply Safe_getSingleSuccessor
    | eapply Safe_bind; [|intros ? _]
    | progress cbv zeta
    | match goal with
      | |- Safe _ (if ?b then _ else _) => destruct b
      | |- Safe _ (match ?x with _ => _ end) => destruct x
      end ].

Lemma Safe_createCond_ CI Arg p v : Safe anything (createCond_ CI Arg p v).
Proof. unfold createCond_. safe. Qed.

Lemma Safe_createCond CI p v : Safe anything (createCond CI p v).
Proof.
  unfold createCond.
  eapply Safe_bind; [apply Safe_getArgOperand | intros ? _].
  apply Safe_createCond_.
Qed.

Lemma Safe_createOrCond CI p v p2 v2 : Safe anything (createOrCond CI p v p2 v2).
Proof.
  unfold createOrCond.
  eapply Safe_bind; [apply Safe_getArgOperand | intros ? _].
  eapply Safe_bind; [apply Safe_createCond_ | intros ? _].
  eapply Safe_bind; [apply Safe_createCond_ | intros ? _].
  apply Safe_CreateOr.
Qed.

(** The wrapping step is safe when it is given a predicate. *)
Lemma Safe_shrinkWrapCI CI c : Safe anything (shrinkWrapCI CI (Some c)).
Proof.
  unfold shrinkWrapCI, setName, removeFromParent, insertAtFirstInsertionPt.
  safe.
Qed.

Lemma Safe_wrap_option CI :
  forall a : option Cond, isSome a ->
    Safe anything (shrinkWrapCI CI a ;; ret true).
Proof.
  intros [c|] H; [|contradiction].
  eapply Safe_bind; [apply Safe_shrinkWrapCI | intros; now apply Safe_ret].
Qed.

Lemma Safe_wrap CI (c : Cond) :
  Safe anything (shrinkWrapCI CI (Some c) ;; ret true).
Proof. now apply Safe_wrap_option. Qed.

Lemma Safe_domain CI Func : Safe anything (performCallDomainErrorOnly CI Func).
Proof.
  unfold performCallDomainErrorOnly.
  destruct Func; try (now apply Safe_ret);
    (eapply Safe_bind; [apply Safe_modify | intros ? _]);
    (eapply Safe_bind;
     [ first [apply Safe_createOrCond | apply Safe_createCond]
     | intros ? _; apply Safe_wrap ]).
Qed.

(** The range generators are called on the functions they handle, and then
    give a predicate. *)
Lemma Safe_range CI Func : Safe anything (performCallRangeErrorOnly CI Func).
Proof.
  unfold performCallRangeErrorOnly.
  destruct Func; try (now apply Safe_ret);
    (eapply Safe_bind; [| apply Safe_wrap_option]);
    unfold generateTwoRangeCond, generateOneRangeCond;
    (eapply Safe_bind; [now apply (Safe_ret anything) | intros ? _]);
    (eapply Safe_bind; [apply Safe_modify | intros ? _]);
    (eapply Safe_bind;
     [ first [apply Safe_createOrCond | apply Safe_createCond]
     | intros ? _; now apply Safe_ret ]).
Qed.

Lemma Safe_generateCondForPow CI Func : Safe anything (generateCondForPow CI Func).
Proof. unfold generateCondForPow. destruct Func; safe. Qed.

Lemma Safe_errors Opts CI Func : Safe anything (performCallErrors Opts CI Func).
Proof.
  unfold performCallErrors.
  destruct Func; try (now apply Safe_ret);
    match goal with
    | |- Safe _ (if ?t then _ else _) => destruct t; [now apply Safe_ret|]
    end;
    try ((eapply Safe_bind; [apply Safe_modify | intros ? _]);
         (eapply Safe_bind;
          [ first [apply Safe_createOrCond | apply Safe_createCond]
          | intros ? _; apply Safe_wrap ]));
    (eapply Safe_bind; [apply Safe_generateCondForPow | intros [c|] _];
     [apply Safe_wrap | now apply Safe_ret]).
Qed.

(** Of the checks of the pass, processing a call can only fail those on the
    callee and on [Func]; it fails the latter only when the callee does not
    resolve or resolves to the enumerator of value 0. *)
Lemma perform1_checks Opts TLI CI s c :
  perform1 Opts TLI CI s = Fatal c ->
  interfaceCheck c
  \/ (c = NullCallee /\ getCalledFunction CI = None)
  \/ (c = EmptyFunc
      /\ exists Callee,
           getCalledFunction CI = Some Callee
           /\ (getLibFunc TLI Callee = None
               \/ getLibFunc TLI Callee = Some (LibFunc.other 0))).
Proof.
  unfold perform1.
  destruct (getCalledFunction CI) as [Callee|]; [|intros [= <-]; auto].
  destruct (getLibFunc TLI Callee) as [Func|] eqn:EF;
    [|intros [= <-]; right; right; eauto].
  destruct (LibFunc.to_bool Func) eqn:EB; cbn [negb].
  - intros H. left.
    assert (HS : Safe anything
              (r <- (if LibCallsShrinkWrapDoDomainError Opts
                     then performCallDomainErrorOnly CI Func
                     else ret false) ;;
               if r then ret true
               else
                 r0 <- (if LibCallsShrinkWrapDoRangeError Opts
                        then performCallRangeErrorOnly CI Func
                        else ret false) ;;
                 if r0 then ret true else performCallErrors Opts CI Func)).
    { eapply Safe_bind.
      - destruct (LibCallsShrinkWrapDoDomainError Opts);
          [apply Safe_domain | now apply (Safe_ret anything)].
      - intros [|] _; [now apply Safe_ret|].
        eapply Safe_bind.
        + destruct (LibCallsShrinkWrapDoRangeError Opts);
            [apply Safe_range | now apply (Safe_ret anything)].
        + intros [|] _; [now apply Safe_ret | apply Safe_errors]. }
    specialize (HS s). now rewrite H in HS.
  - intros [= <-]. right; right. split; [reflexivity|].
    exists Callee. split; [reflexivity|]. right.
    destruct Func; try discriminate EB.
    destruct v; [exact EF | discriminate EB].
Qed.

(* ================================================================== *)
(** ** What a rewrite is made of *)

Lemma Located_fun id s L L' : Located id s L -> Located id s L' -> L = L'.
Proof. unfold Located. congruence. Qed.

Lemma isInserted_noCall id new :
  forallb isInserted new = true -> noCall id new = true.
Proof.
  unfold noCall. induction new as [|i r IH]; cbn; [reflexivity|].
  intros H. apply andb_true_iff in H as [Hi Hr].
  rewrite (IH Hr). destruct i; try discriminate Hi; reflexivity.
Qed.

Lemma code_isInserted c : forallb isInserted (code c) = true.
Proof.
  induction c as [p l r | c1 IH1 c2 IH2]; cbn [code]; [reflexivity|].
  rewrite !forallb_app, IH1, IH2. reflexivity.
Qed.

Lemma code_noCall id c : noCall id (code c) = true.
Proof. apply isInserted_noCall, code_isInserted. Qed.

Lemma Located_after id s L a L1 :
  Located id s L -> noCall id a = true ->
  Located id (setBlocks (blocksOf (addPre L a)) s) L1 -> L1 = addPre L a.
Proof.
  intros HL Ha H1. symmetry.
  exact (Located_fun _ _ _ _ (Located_addPre id s L a HL Ha) H1).
Qed.

Lemma Insert_Ok CI i s s1 :
  Insert CI i s = Ok (tt, s1) ->
  exists L, Located (CIId CI) s L
            /\ s1 = setBlocks (blocksOf (addPre L [i])) s.
Proof.
  intros H. destruct (locate (CIId CI) (Blocks (Fn s))) as [L|] eqn:E.
  - exists L. split; [exact E|].
    rewrite (Insert_Located CI s L i E) in H. now injection H.
  - unfold Insert, updBlocks in H. rewrite E in H. discriminate H.
Qed.

Lemma CreateFCmp_Ok CI p l r s c s1 :
  CreateFCmp CI p l r s = Ok (c, s1) ->
  c = FCmp p l r
  /\ Type_eqb (getType l) (getType r) = true
  /\ exists L, Located (CIId CI) s L
               /\ s1 = setBlocks (blocksOf (addPre L (code c))) s.
Proof.
  unfold CreateFCmp. destruct (Type_eqb _ _); [|discriminate].
  intros H. apply bind_Ok in H. destruct H as ([] & t & Hi & H).
  injection H as <- <-. split; [reflexivity|]. split; [reflexivity|].
  exact (Insert_Ok _ _ _ _ Hi).
Qed.

Lemma CreateOr_Ok CI a b s c s1 :
  CreateOr CI a b s = Ok (c, s1) ->
  c = Or a b
  /\ exists L, Located (CIId CI) s L
               /\ s1 = setBlocks (blocksOf (addPre L [IOr a b])) s.
Proof.
  unfold CreateOr. intros H.
  apply bind_Ok in H. destruct H as ([] & t & Hi & H).
  injection H as <- <-. split; [reflexivity|].
  exact (Insert_Ok _ _ _ _ Hi).
Qed.

Lemma getFPExtend_Ok V ty s V' s' :
  getFPExtend V ty s = Ok (V', s') ->
  s' = s /\ exists x, V' = ConstantFP ty x.
Proof.
  unfold getFPExtend.
  destruct V as [[] v| |]; try discriminate;
    destruct ty; try discriminate; intros [= <- <-]; eauto.
Qed.

(** The constant a comparison is made with: the [float] constant or its
    extension to [ty]. *)
Lemma widen_Ok v ty s V s' :
  (if negb (isFloatTy ty)
   then getFPExtend (ConstantFP_get v) ty
   else ret (ConstantFP_get v)) s = Ok (V, s') ->
  s' = s /\ exists x, V = ConstantFP ty x.
Proof.
  destruct ty; cbn [isFloatTy negb];
    try (intros H; exact (getFPExtend_Ok _ _ _ _ _ H)).
  intros [= <- <-]. unfold ConstantFP_get. eauto.
Qed.

Lemma createCond__Ok CI Arg p v s c s1 :
  createCond_ CI Arg p v s = Ok (c, s1) ->
  (exists K, c = FCmp p Arg K /\ isConstantOf (getType Arg) K = true)
  /\ exists L, Located (CIId CI) s L
               /\ s1 = setBlocks (blocksOf (addPre L (code c))) s.
Proof.
  unfold createCond_. cbv zeta. intros H.
  apply bind_Ok in H. destruct H as (V & t & HV & H).
  destruct (widen_Ok _ _ _ _ _ HV) as (-> & x & ->).
  destruct (CreateFCmp_Ok _ _ _ _ _ _ _ H) as (-> & HT & HL).
  split; [|exact HL]. eexists. split; [reflexivity|].
  exact HT.
Qed.

Lemma nth_error_firstn {A} (l : list A) i n x :
  nth_error l i = Some x -> (i < n)%nat -> In x (firstn n l).
Proof.
  revert i n. induction l as [|a r IH]; intros i n H Hi.
  - destruct i; discriminate H.
  - destruct n as [|n]; [lia|]. destruct i as [|i]; cbn in *.
    + injection H as <-. now left.
    + right. apply (IH i n H). lia.
Qed.

Lemma getArgOperand_Ok CI i s v s' :
  getArgOperand CI i s = Ok (v, s') ->
  s' = s /\ nth_error (ArgOperands CI) i = Some v.
Proof.
  unfold getArgOperand. destruct (nth_error _ _); [|discriminate].
  now intros [= <- <-].
Qed.

Lemma createCond_Generated CI p v s c s1 :
  createCond CI p v (incOneCond s) = Ok (c, s1) -> Generated 1 CI s c s1.
Proof.
  unfold createCond. intros H.
  apply bind_Ok in H. destruct H as (Arg & t & HA & H).
  destruct (getArgOperand_Ok _ _ _ _ _ HA) as (-> & HArg).
  destruct (createCond__Ok _ _ _ _ _ _ _ H) as ((K & -> & HK) & L & HL & ->).
  exists L. split; [exact HL|]. split; [|split; [exact I | reflexivity]].
  intros l r [[= <- <-]|[]]. split; [|exact HK].
  apply (nth_error_firstn _ 0); [exact HArg | lia].
Qed.

Lemma createOrCond_Generated CI p v p2 v2 s c s1 :
  createOrCond CI p v p2 v2 (incTwoCond s) = Ok (c, s1) ->
  Generated 1 CI s c s1.
Proof.
  unfold createOrCond. intros H.
  apply bind_Ok in H. destruct H as (Arg & t & HA & H).
  destruct (getArgOperand_Ok _ _ _ _ _ HA) as (-> & HArg).
  apply bind_Ok in H. destruct H as (c2 & t2 & H2 & H).
  destruct (createCond__Ok _ _ _ _ _ _ _ H2) as ((K2 & -> & HK2) & L & HL & ->).
  apply bind_Ok in H. destruct H as (c1 & t1 & H1 & H).
  destruct (createCond__Ok _ _ _ _ _ _ _ H1) as ((K & -> & HK) & L1 & HL1 & ->).
  apply (Located_after _ _ _ _ _ HL (code_noCall _ _)) in HL1. subst L1.
  rewrite setBlocks_setBlocks, addPre_addPre in H.
  destruct (CreateOr_Ok _ _ _ _ _ _ H) as (-> & L2 & HL2 & ->).
  assert (HL' := HL).
  apply (Located_after _ _ _ (code (FCmp p2 Arg K2) ++ code (FCmp p Arg K)) _ HL') in HL2;
    [|reflexivity].
  subst L2. rewrite setBlocks_setBlocks, addPre_addPre.
  exists L. split; [exact HL|]. split; [|split; [exact I|]].
  - assert (HIn : In Arg (firstn 1 (ArgOperands CI)))
      by (apply (nth_error_firstn _ 0); [exact HArg | lia]).
    intros l r [[= <- <-]|[[= <- <-]|[]]]; split; assumption.
  - cbn [code]. now rewrite <- app_assoc.
Qed.

Lemma Generated_wrap n CI s c s1 s' :
  Generated n CI s c s1 ->
  shrinkWrapCI CI (Some c) s1 = Ok (tt, s') ->
  Rewritten n CI s s'.
Proof.
  intros (L & HL & HG & HS & ->) H.
  assert (HL' : Located (CIId CI) (count c s) L).
  { unfold count. destruct (isOr c); exact HL. }
  rewrite (wrap_Located CI c _ L _ HL' (code_noCall _ _)) in H.
  injection H as <-. exists L, c. auto.
Qed.

Lemma guardsArguments_le n m CI c :
  (n <= m)%nat -> guardsArguments n CI c -> guardsArguments m CI c.
Proof.
  intros Hnm H l r Hin. destruct (H l r Hin) as [H1 H2]. split; [|exact H2].
  revert H1. clear - Hnm. revert n m Hnm.
  induction (ArgOperands CI) as [|a rest IH]; intros n m Hnm.
  - now rewrite !firstn_nil.
  - destruct n as [|n]; [intros []|]. destruct m as [|m]; [lia|].
    cbn. intros [->|H]; [now left|]. right. apply (IH n m); [lia | exact H].
Qed.

Lemma Rewrites_le n m CI f :
  (n <= m)%nat -> Rewrites n CI f -> Rewrites m CI f.
Proof.
  intros Hnm H s b s' Hr. specialize (H s b s' Hr).
  destruct b; [|exact H].
  destruct H as (L & c & HL & HG & HS & ->). exists L, c.
  split; [exact HL|]. split; [|split; [exact HS | reflexivity]].
  exact (guardsArguments_le n m CI c Hnm HG).
Qed.

Lemma Rewrites_ret_false n CI : Rewrites n CI (ret false).
Proof. intros s b s' [= <- <-]. reflexivity. Qed.

Lemma Rewrites_counted n CI cnt (m : M Cond) :
  (forall s c s1, m (cnt s) = Ok (c, s1) -> Generated n CI s c s1) ->
  Rewrites n CI (modify cnt ;; c <- m ;; shrinkWrapCI CI (Some c) ;; ret true).
Proof.
  intros Hm s b s' H.
  apply bind_Ok in H. destruct H as ([] & t & Hc & H). injection Hc as <-.
  apply bind_Ok in H. destruct H as (c & s1 & Hg & H).
  apply bind_Ok in H. destruct H as ([] & s2 & Hw & H).
  injection H as <- <-.
  exact (Generated_wrap n CI s c s1 s2 (Hm _ _ _ Hg) Hw).
Qed.

Lemma Rewrites_generated n CI (g : M (option Cond)) :
  (forall s c s1, g s = Ok (Some c, s1) -> Generated n CI s c s1) ->
  Rewrites n CI (r <- g ;; shrinkWrapCI CI r ;; ret true).
Proof.
  intros Hg s b s' H.
  apply bind_Ok in H. destruct H as (r & s1 & Hr & H).
  apply bind_Ok in H. destruct H as ([] & s2 & Hw & H).
  injection H as <- <-.
  destruct r as [c|]; [|discriminate Hw].
  exact (Generated_wrap n CI s c s1 s2 (Hg _ _ _ Hr) Hw).
Qed.

Lemma Rewrites_domain CI Func :
  Rewrites 1 CI (performCallDomainErrorOnly CI Func).
Proof.
  destruct Func; try apply Rewrites_ret_false;
    apply Rewrites_counted; intros s c s1;
    first [apply createOrCond_Generated | apply createCond_Generated].
Qed.

Lemma generateOneRangeCond_Generated CI Func s c s1 :
  generateOneRangeCond CI Func s = Ok (Some c, s1) -> Generated 1 CI s c s1.
Proof.
  unfold generateOneRangeCond. intros H.
  apply bind_Ok in H. destruct H as (U & t & HU & H).
  assert (t = s) by (destruct Func; try discriminate HU; now injection HU).
  subst t.
  apply bind_Ok in H. destruct H as ([] & t & Hc & H). injection Hc as <-.
  apply bind_Ok in H. destruct H as (c' & t & Hg & H).
  injection H as <- <-. exact (createCond_Generated _ _ _ _ _ _ Hg).
Qed.

Lemma generateTwoRangeCond_Generated CI Func s c s1 :
  generateTwoRangeCond CI Func s = Ok (Some c, s1) -> Generated 1 CI s c s1.
Proof.
  unfold generateTwoRangeCond. intros H.
  apply bind_Ok in H. destruct H as (U & t & HU & H).
  assert (t = s) by (destruct Func; try discriminate HU; now injection HU).
  subst t. cbv zeta in H.
  apply bind_Ok in H. destruct H as ([] & t & Hc & H). injection Hc as <-.
  apply bind_Ok in H. destruct H as (c' & t & Hg & H).
  injection H as <- <-. exact (createOrCond_Generated _ _ _ _ _ _ _ _ Hg).
Qed.

Lemma Rewrites_range CI Func :
  Rewrites 1 CI (performCallRangeErrorOnly CI Func).
Proof.
  destruct Func; try apply Rewrites_ret_false;
    apply Rewrites_generated; intros s c s1;
    first [apply generateTwoRangeCond_Generated
          | apply generateOneRangeCond_Generated].
Qed.

Lemma constant_Ok (b : bool) v ty s V s' :
  (if b then getFPExtend (ConstantFP_get v) ty else ret (ConstantFP_get v)) s
  = Ok (V, s') ->
  s' = s /\ exists t x, V = ConstantFP t x.
Proof.
  destruct b.
  - intros H. destruct (getFPExtend_Ok _ _ _ _ _ H) as (-> & x & ->). eauto.
  - intros [= <- <-]. unfold ConstantFP_get. eauto.
Qed.

Lemma getOperand_Ok ops i s v s' :
  getOperand ops i s = Ok (v, s') -> s' = s.
Proof.
  unfold getOperand. destruct (nth_error _ _); [|discriminate].
  now intros [= <- <-].
Qed.

Lemma convertToDouble_Ok ty v s D s' :
  convertToDouble ty v s = Ok (D, s') -> s' = s.
Proof.
  unfold convertToDouble. destruct (isDoubleTy ty); [|discriminate].
  now intros [= <- <-].
Qed.

Lemma pow_constant_Generated CI Exp s c s1 :
  nth_error (ArgOperands CI) 1 = Some Exp ->
  (modify incOneCond ;;
   V <- (if negb (isFloatTy (getType Exp))
         then getFPExtend (ConstantFP_get (float_lit 127)) (getType Exp)
         else ret (ConstantFP_get (float_lit 127))) ;;
   c <- CreateFCmp CI FCMP_OGT Exp V ;;
   ret (Some c)) s = Ok (Some c, s1) ->
  Generated 2 CI s c s1.
Proof.
  intros HExp H.
  apply bind_Ok in H. destruct H as ([] & t & Hc & H). injection Hc as <-.
  apply bind_Ok in H. destruct H as (V & t & HV & H).
  destruct (constant_Ok _ _ _ _ _ _ HV) as (-> & ty & x & ->).
  apply bind_Ok in H. destruct H as (c' & t & Hf & H).
  injection H as <- <-.
  destruct (CreateFCmp_Ok _ _ _ _ _ _ _ Hf) as (-> & HT & L & HL & ->).
  exists L. split; [exact HL|]. split; [|split; [exact I | reflexivity]].
  intros l r [[= <- <-]|[]]. split; [|exact HT].
  apply (nth_error_firstn _ 1); [exact HExp | lia].
Qed.

Lemma pow_widened_Generated CI Base Exp UpperV s c s1 :
  nth_error (ArgOperands CI) 0 = Some Base ->
  nth_error (ArgOperands CI) 1 = Some Exp ->
  (modify incTwoCond ;;
   V <- (if negb (isFloatTy (getType Exp))
         then getFPExtend (ConstantFP_get UpperV) (getType Exp)
         else ret (ConstantFP_get UpperV)) ;;
   V0 <- (if negb (isFloatTy (getType Base))
          then getFPExtend (ConstantFP_get (float_lit 0)) (getType Exp)
          else ret (ConstantFP_get (float_lit 0))) ;;
   Cond_ <- CreateFCmp CI FCMP_OGT Exp V ;;
   Cond0 <- CreateFCmp CI FCMP_OLE Base V0 ;;
   c <- CreateOr CI Cond0 Cond_ ;;
   ret (Some c)) s = Ok (Some c, s1) ->
  Generated 2 CI s c s1.
Proof.
  intros HBase HExp H.
  apply bind_Ok in H. destruct H as ([] & t & Hc & H). injection Hc as <-.
  apply bind_Ok in H. destruct H as (V & t & HV & H).
  destruct (constant_Ok _ _ _ _ _ _ HV) as (-> & ty & x & ->).
  apply bind_Ok in H. destruct H as (V0 & t & HV0 & H).
  destruct (constant_Ok _ _ _ _ _ _ HV0) as (-> & ty0 & x0 & ->).
  apply bind_Ok in H. destruct H as (c2 & t & H2 & H).
  destruct (CreateFCmp_Ok _ _ _ _ _ _ _ H2) as (-> & HT2 & L & HL & ->).
  apply bind_Ok in H. destruct H as (c1 & t & H1 & H).
  destruct (CreateFCmp_Ok _ _ _ _ _ _ _ H1) as (-> & HT1 & L1 & HL1 & ->).
  assert (HL' : Located (CIId CI) (incTwoCond s) L) by exact HL.
  apply (Located_after _ _ _ _ _ HL' (code_noCall _ _)) in HL1. subst L1.
  rewrite setBlocks_setBlocks, addPre_addPre in H.
  apply bind_Ok in H. destruct H as (c' & t & Ho & H).
  injection H as <- <-.
  destruct (CreateOr_Ok _ _ _ _ _ _ Ho) as (-> & L2 & HL2 & ->).
  apply (Located_after _ _ _
           (code (FCmp FCMP_OGT Exp (ConstantFP ty x))
            ++ code (FCmp FCMP_OLE Base (ConstantFP ty0 x0))) _ HL') in HL2;
    [|reflexivity].
  subst L2. rewrite setBlocks_setBlocks, addPre_addPre.
  exists L. split; [exact HL|]. split; [|split; [exact I|]].
  - intros l r [[= <- <-]|[[= <- <-]|[]]]; (split; [|assumption]).
    + apply (nth_error_firstn _ 0); [exact HBase | lia].
    + apply (nth_error_firstn _ 1); [exact HExp | lia].
  - cbn [code]. now rewrite <- app_assoc.
Qed.

Lemma generateCondForPow_Generated CI Func s c s1 :
  generateCondForPow CI Func s = Ok (Some c, s1) -> Generated 2 CI s c s1.
Proof.
  unfold generateCondForPow.
  destruct Func; try discriminate.
  intros H.
  apply bind_Ok in H. destruct H as (Base & t & HB & H).
  destruct (getArgOperand_Ok _ _ _ _ _ HB) as (-> & HBase).
  apply bind_Ok in H. destruct H as (Exp & t & HE & H).
  destruct (getArgOperand_Ok _ _ _ _ _ HE) as (-> & HExp).
  destruct Base as [ty v | id op ty ops | id ty]; [| |discriminate H].
  - apply bind_Ok in H. destruct H as (D & t & HD & H).
    apply convertToDouble_Ok in HD. subst t.
    destruct (_ || _); [discriminate H|].
    exact (pow_constant_Generated CI Exp s c s1 HExp H).
  - destruct op; try discriminate H;
      (apply bind_Ok in H; destruct H as (Op0 & t & HO & H);
       apply getOperand_Ok in HO; subst t;
       destruct (if (getPrimitiveSizeInBits (getType Op0) =? 8)%N then _ else _)
         as [UpperV|]; [|discriminate H];
       exact (pow_widened_Generated CI _ Exp UpperV s c s1 HBase HExp H)).
Qed.

Lemma Rewrites_pow CI Func :
  Rewrites 2 CI
    (Cond_ <- generateCondForPow CI Func ;;
     match Cond_ with
     | None => ret false
     | Some _ => shrinkWrapCI CI Cond_ ;; ret true
     end).
Proof.
  intros s b s' H.
  apply bind_Ok in H. destruct H as (r & s1 & Hg & H).
  destruct r as [c|].
  - apply bind_Ok in H. destruct H as ([] & s2 & Hw & H).
    injection H as <- <-.
    exact (Generated_wrap 2 CI s c s1 s2
             (generateCondForPow_Generated _ _ _ _ _ Hg) Hw).
  - injection H as <- <-. exact (generateCondForPow_None _ _ _ _ Hg).
Qed.

Lemma Rewrites_errors Opts CI Func :
  Rewrites (argsRead Func) CI (performCallErrors Opts CI Func).
Proof.
  destruct Func; try apply Rewrites_ret_false; unfold performCallErrors;
    match goal with
    | |- Rewrites _ _ (if ?t then _ else _) =>
        destruct t; [apply Rewrites_ret_false|]
    end;
    first
      [ apply Rewrites_pow
      | apply Rewrites_counted; intros s c s1;
        first [apply createOrCond_Generated | apply createCond_Generated] ].
Qed.

Lemma argsRead_pos Func : (1 <= argsRead Func)%nat.
Proof. unfold argsRead. destruct (isPowFamily Func); lia. Qed.

(** What processing a call does: when it answers [true] the call was
    rewritten, and when it answers [false] nothing changed. *)
Lemma Rewrites_perform1 Opts TLI CI Callee Func :
  getCalledFunction CI = Some Callee -> getLibFunc TLI Callee = Some Func ->
  Rewrites (argsRead Func) CI (perform1 Opts TLI CI).
Proof.
  intros HC HF s b s' H. unfold perform1 in H. rewrite HC, HF in H.
  destruct (negb (LibFunc.to_bool Func)); [discriminate|].
  apply bind_Ok in H. destruct H as (r1 & t1 & Hd & H).
  assert (H1 : if r1 then Rewritten (argsRead Func) CI s t1 else t1 = s).
  { destruct (LibCallsShrinkWrapDoDomainError Opts).
    - exact (Rewrites_le 1 _ CI _ (argsRead_pos Func) (Rewrites_domain CI Func)
               _ _ _ Hd).
    - injection Hd as <- <-. reflexivity. }
  destruct r1; [injection H as <- <-; exact H1|]. subst t1.
  apply bind_Ok in H. destruct H as (r2 & t2 & Hr & H).
  assert (H2 : if r2 then Rewritten (argsRead Func) CI s t2 else t2 = s).
  { destruct (LibCallsShrinkWrapDoRangeError Opts).
    - exact (Rewrites_le 1 _ CI _ (argsRead_pos Func) (Rewrites_range CI Func)
               _ _ _ Hr).
    - injection Hr as <- <-. reflexivity. }
  destruct r2; [injection H as <- <-; exact H2|]. subst t2.
  exact (Rewrites_errors Opts CI Func _ _ _ H).
Qed.

Lemma perform1_Rewritten Opts TLI CI s s' :
  perform1 Opts TLI CI s = Ok (true, s') ->
  exists Callee Func,
    getCalledFunction CI = Some Callee /\ getLibFunc TLI Callee = Some Func
    /\ Rewritten (argsRead Func) CI s s'.
Proof.
  intros H.
  destruct (getCalledFunction CI) as [Callee|] eqn:HC;
    [|unfold perform1 in H; rewrite HC in H; discriminate H].
  destruct (getLibFunc TLI Callee) as [Func|] eqn:HF;
    [|unfold perform1 in H; rewrite HC, HF in H; discriminate H].
  exists Callee, Func. split; [reflexivity|]. split; [exact HF|].
  exact (Rewrites_perform1 Opts TLI CI Callee Func HC HF s true s' H).
Qed.

Lemma Rewritten_state n CI s s' :
  Rewritten n CI s s' ->
  exists L c,
    Located (CIId CI) s L
    /\ guardsArguments n CI c
    /\ oneOrTwo c
    /\ Blocks (Fn s') = guarded (addPre L (code c)) CI c
    /\ OptimizeForSize (Fn s') = OptimizeForSize (Fn s)
    /\ WorkList s' = WorkList s
    /\ Changed s' = Changed s
    /\ NumWrappedOneCond s'
       = (if isOr c then NumWrappedOneCond s
          else increment (NumWrappedOneCond s))
    /\ NumWrappedTwoCond s'
       = (if isOr c then increment (NumWrappedTwoCond s)
          else NumWrappedTwoCond s).
Proof.
  intros (L & c & HL & HG & HS & ->). exists L, c.
  split; [exact HL|]. split; [exact HG|]. split; [exact HS|].
  unfold count. destruct (isOr c); repeat split.
Qed.

Lemma guarded_addPre L new CI c :
  guarded (addPre L new) CI c
  = LBefore L
    ++ [ mkBB (BBId (LBlock L)) (BBName (LBlock L)) (LPre L ++ new)
              (CondBr c (N.succ (freshId (blocksOf L))) (freshId (blocksOf L))
                 (Some (1, 2000)%N));
         mkBB (N.succ (freshId (blocksOf L))) "cdce.call" [ICall CI]
              (Br (freshId (blocksOf L)));
         mkBB (freshId (blocksOf L)) "cdce.end" (LPost L) (Term (LBlock L)) ]
    ++ LAfter L.
Proof. unfold guarded. rewrite freshId_addPre. reflexivity. Qed.

(** X1.  The shape of a rewrite.  When processing a call answers [true],
    the call was in the function, and afterwards the block that held it is
    replaced by three blocks while every other block is left as it was, in
    its place.  The first of the three keeps the identity and the name of
    the old block; it holds the instructions that came before the call,
    followed by comparisons and ors only, and ends with the branch on the
    predicate [c], weighted 1 : 2000, to the second block or else to the
    third.  When no value that [c] compares is a constant, the added
    instructions are exactly those that compute [c], the second operand of
    an [or] first.  The second block holds the call and nothing else and
    falls through to the third.  The third block holds the instructions
    that came after the call, in order, and ends as the old block ended.
    The attribute of the function, the work list and the flag are as
    before. *)
Theorem rewrite_shape Opts TLI CI s s' :
  perform1 Opts TLI CI s = Ok (true, s') ->
  exists B1 blk pre x post B2 c Head CallBB Tail,
    Blocks (Fn s) = B1 ++ blk :: B2
    /\ Insts blk = pre ++ x :: post
    /\ isCall (CIId CI) x = true
    /\ noCall (CIId CI) pre = true
    /\ noCallIn (CIId CI) B1 = true
    /\ Blocks (Fn s') = B1 ++ Head :: CallBB :: Tail :: B2
    /\ BBId Head = BBId blk
    /\ BBName Head = BBName blk
    /\ (exists new,
          Insts Head = pre ++ new
          /\ forallb isInserted new = true
          /\ ((forall l r, In (l, r) (comparisons c) -> isConstant l = false) ->
              new = code c))
    /\ Term Head = CondBr c (BBId CallBB) (BBId Tail) (Some (1, 2000)%N)
    /\ Insts CallBB = [ICall CI]
    /\ Term CallBB = Br (BBId Tail)
    /\ Insts Tail = post
    /\ Term Tail = Term blk
    /\ OptimizeForSize (Fn s') = OptimizeForSize (Fn s)
    /\ WorkList s' = WorkList s
    /\ Changed s' = Changed s.
Proof.
  intros H.
  destruct (perform1_Rewritten _ _ _ _ _ H) as (Callee & Func & _ & _ & HR).
  destruct (Rewritten_state _ _ _ _ HR)
    as (L & c & HL & _ & _ & HB & HO & HW & HC & _).
  destruct (locate_Some _ _ _ HL) as (Hbs & Hins & Hx & Hpre & HB1).
  rewrite guarded_addPre in HB.
  exists (LBefore L), (LBlock L), (LPre L), (LInst L), (LPost L), (LAfter L), c.
  do 3 eexists.
  split; [exact Hbs|]. split; [exact Hins|]. split; [exact Hx|].
  split; [exact Hpre|]. split; [exact HB1|].
  split; [exact HB|]. cbn [BBId BBName Insts Term].
  split; [reflexivity|]. split; [reflexivity|].
  split; [exists (code c); split; [reflexivity|];
          split; [apply code_isInserted | reflexivity]|].
  repeat split; assumption.
Qed.

Lemma rewrite_shape_witness :
  let CI := sample_call "sqrt" [sample_arg] in
  let s := sample_state CI in
  let s' := stateOf (perform1 allEnabled sample_TLI CI s) s in
  exists B1 blk pre x post B2 c Head CallBB Tail,
    Blocks (Fn s) = B1 ++ blk :: B2
    /\ Insts blk = pre ++ x :: post
    /\ isCall (CIId CI) x = true
    /\ noCall (CIId CI) pre = true
    /\ noCallIn (CIId CI) B1 = true
    /\ Blocks (Fn s') = B1 ++ Head :: CallBB :: Tail :: B2
    /\ BBId Head = BBId blk
    /\ BBName Head = BBName blk
    /\ (exists new,
          Insts Head = pre ++ new
          /\ forallb isInserted new = true
          /\ ((forall l r, In (l, r) (comparisons c) -> isConstant l = false) ->
              new = code c))
    /\ Term Head = CondBr c (BBId CallBB) (BBId Tail) (Some (1, 2000)%N)
    /\ Insts CallBB = [ICall CI]
    /\ Term CallBB = Br (BBId Tail)
    /\ Insts Tail = post
    /\ Term Tail = Term blk
    /\ OptimizeForSize (Fn s') = OptimizeForSize (Fn s)
    /\ WorkList s' = WorkList s
    /\ Changed s' = Changed s.
Proof.
  intros CI s s'.
  exact (rewrite_shape allEnabled sample_TLI CI s s' eq_refl).
Defined.

Lemma guarded_branchesOn L new CI c s' :
  Blocks (Fn s') = guarded (addPre L new) CI c ->
  branchesOn s' (BBId (LBlock L)) c.
Proof.
  intros HB. rewrite guarded_addPre in HB. unfold branchesOn. do 3 eexists.
  split; [rewrite HB; apply in_app_iff; right; left; reflexivity|].
  split; reflexivity.
Qed.

Lemma Rewritten_branchesOn n CI s s' :
  Rewritten n CI s s' ->
  exists L c,
    Located (CIId CI) s L
    /\ guardsArguments n CI c
    /\ oneOrTwo c
    /\ branchesOn s' (BBId (LBlock L)) c
    /\ NumWrappedOneCond s'
       = (if isOr c then NumWrappedOneCond s
          else increment (NumWrappedOneCond s))
    /\ NumWrappedTwoCond s'
       = (if isOr c then increment (NumWrappedTwoCond s)
          else NumWrappedTwoCond s).
Proof.
  intros HR.
  destruct (Rewritten_state _ _ _ _ HR)
    as (L & c & HL & HG & HS & HB & _ & _ & _ & H1 & H2).
  exists L, c. split; [exact HL|]. split; [exact HG|]. split; [exact HS|].
  split; [|split; assumption].
  exact (guarded_branchesOn _ _ _ _ _ HB).
Qed.

Lemma BBId_le_maxId bs id : In id (map BBId bs) -> (id <= maxId bs)%N.
Proof.
  intros H. apply in_map_iff in H. destruct H as (b & <- & Hb).
  now apply maxId_In.
Qed.

Lemma freshId_not_In bs id :
  (freshId bs <= id)%N -> ~ In id (map BBId bs).
Proof.
  intros Hf Hin. apply BBId_le_maxId in Hin.
  unfold freshId in Hf. fold (maxId bs) in Hf. lia.
Qed.

(** X2.  The identities of the blocks.  A rewrite adds exactly two blocks
    to the function; every block identity of the function is still one
    afterwards; the two new blocks get identities that no block had, so
    that block identities that were pairwise distinct remain so. *)
Theorem rewrite_adds_two_fresh_blocks Opts TLI CI s s' :
  perform1 Opts TLI CI s = Ok (true, s') ->
  List.length (Blocks (Fn s')) = (List.length (Blocks (Fn s)) + 2)%nat
  /\ (forall id, In id (map BBId (Blocks (Fn s))) ->
                 In id (map BBId (Blocks (Fn s'))))
  /\ (exists id1 id2,
        id1 <> id2
        /\ ~ In id1 (map BBId (Blocks (Fn s)))
        /\ ~ In id2 (map BBId (Blocks (Fn s)))
        /\ forall id, In id (map BBId (Blocks (Fn s'))) <->
                      In id (map BBId (Blocks (Fn s))) \/ id = id1 \/ id = id2)
  /\ (NoDup (map BBId (Blocks (Fn s))) -> NoDup (map BBId (Blocks (Fn s')))).
Proof.
  intros H.
  destruct (perform1_Rewritten _ _ _ _ _ H) as (Callee & Func & _ & _ & HR).
  destruct (Rewritten_state _ _ _ _ HR) as (L & c & HL & _ & _ & HB & _).
  rewrite guarded_addPre in HB.
  assert (Hbs := Located_blocksOf _ _ _ HL).
  rewrite <- Hbs in HB. set (f := freshId (Blocks (Fn s))) in *.
  assert (Hf : ~ In f (map BBId (Blocks (Fn s))))
    by (apply freshId_not_In; subst f; lia).
  assert (Hsf : ~ In (N.succ f) (map BBId (Blocks (Fn s))))
    by (apply freshId_not_In; subst f; lia).
  assert (Hids : forall id, In id (map BBId (Blocks (Fn s'))) <->
                   In id (map BBId (Blocks (Fn s))) \/ id = N.succ f \/ id = f).
  { intros id. rewrite HB, Hbs. unfold blocksOf.
    rewrite !map_app, !in_app_iff. cbn [map In BBId].
    intuition congruence. }
  split; [|split; [|split]].
  - rewrite HB, Hbs. unfold blocksOf. rewrite !length_app. cbn [List.length]. lia.
  - intros id Hid. apply Hids. now left.
  - exists (N.succ f), f. split; [lia|]. auto.
  - intros HN. rewrite HB. rewrite Hbs in HN, Hf, Hsf. unfold blocksOf in *.
    rewrite !map_app in *. cbn [map BBId app] in *.
    set (a := map BBId (LBefore L)) in *. set (b := map BBId (LAfter L)) in *.
    set (i := BBId (LBlock L)) in *.
    assert (A1 : Add f (a ++ i :: b) (a ++ i :: f :: b)).
    { change (a ++ i :: b) with (a ++ [i] ++ b).
      change (a ++ i :: f :: b) with (a ++ [i] ++ f :: b).
      rewrite !app_assoc. apply Add_app. }
    assert (N1 : NoDup (a ++ i :: f :: b)).
    { apply (NoDup_Add A1). split; assumption. }
    assert (A2 : Add (N.succ f) (a ++ i :: f :: b) (a ++ i :: N.succ f :: f :: b)).
    { change (a ++ i :: f :: b) with (a ++ [i] ++ f :: b).
      change (a ++ i :: N.succ f :: f :: b) with (a ++ [i] ++ N.succ f :: f :: b).
      rewrite !app_assoc. apply Add_app. }
    apply (NoDup_Add A2). split; [exact N1|].
    intros Hin. apply (Add_in A1) in Hin. destruct Hin as [Hin|Hin]; [lia|].
    exact (Hsf Hin).
Qed.

Lemma rewrite_adds_two_fresh_blocks_witness :
  let CI := sample_call "sqrt" [sample_arg] in
  let s := sample_state CI in
  let s' := stateOf (perform1 allEnabled sample_TLI CI s) s in
  List.length (Blocks (Fn s')) = 3%nat
  /\ NoDup (map BBId (Blocks (Fn s'))).
Proof.
  intros CI s s'.
  destruct (rewrite_adds_two_fresh_blocks allEnabled sample_TLI CI s s' eq_refl)
    as (Hlen & _ & _ & Hnd).
  split; [exact Hlen|].
  apply Hnd. cbn. constructor; [intros []|constructor].
Defined.

(** X3.  The statistics.  A call that is rewritten is counted exactly once:
    one of the two statistics is incremented, with the wrap-around of a
    counter of 32 bits, and the other stays.  When no argument of the call
    is a constant, so that no comparison is folded away, the predicate the
    call is guarded by is one comparison or the [or] of two comparisons and
    the statistic is the one of that name: the counter of one-condition
    wrappers for one comparison, the counter of two-condition wrappers for
    the [or] of two.  A call that is not rewritten is not counted. *)
Theorem rewrite_is_counted_once Opts TLI CI s b s' :
  perform1 Opts TLI CI s = Ok (b, s') ->
  (b = false ->
   NumWrappedOneCond s' = NumWrappedOneCond s
   /\ NumWrappedTwoCond s' = NumWrappedTwoCond s)
  /\ (b = true ->
      (NumWrappedOneCond s' = increment (NumWrappedOneCond s)
       /\ NumWrappedTwoCond s' = NumWrappedTwoCond s)
      \/ (NumWrappedOneCond s' = NumWrappedOneCond s
          /\ NumWrappedTwoCond s' = increment (NumWrappedTwoCond s)))
  /\ (b = true ->
      (forall a, In a (ArgOperands CI) -> isConstant a = false) ->
      exists L c,
        Located (CIId CI) s L
        /\ branchesOn s' (BBId (LBlock L)) c
        /\ match c with
           | FCmp _ _ _ =>
               NumWrappedOneCond s' = increment (NumWrappedOneCond s)
               /\ NumWrappedTwoCond s' = NumWrappedTwoCond s
           | Or (FCmp _ _ _) (FCmp _ _ _) =>
               NumWrappedOneCond s' = NumWrappedOneCond s
               /\ NumWrappedTwoCond s' = increment (NumWrappedTwoCond s)
           | Or _ _ => False
           end).
Proof.
  intros H. split; [|split]; intros ->.
  - now rewrite (Wraps_perform1 Opts TLI CI _ _ _ H).
  - destruct (perform1_Rewritten _ _ _ _ _ H) as (Callee & Func & _ & _ & HR).
    destruct (Rewritten_branchesOn _ _ _ _ HR)
      as (L & c & _ & _ & _ & _ & H1 & H2).
    destruct (isOr c); [right | left]; split; assumption.
  - intros _.
    destruct (perform1_Rewritten _ _ _ _ _ H) as (Callee & Func & _ & _ & HR).
    destruct (Rewritten_branchesOn _ _ _ _ HR)
      as (L & c & HL & _ & HS & HB & H1 & H2).
    exists L, c. split; [exact HL|]. split; [exact HB|].
    destruct c as [p l r | [p1 l1 r1 | a1 a2] [p2 l2 r2 | b1 b2]];
      cbn [isOr oneOrTwo] in *; auto.
Qed.

Lemma rewrite_is_counted_once_witness :
  let CI := sample_call "sqrt" [sample_arg] in
  let s := sample_state CI in
  let s' := stateOf (perform1 allEnabled sample_TLI CI s) s in
  ((NumWrappedOneCond s' = increment (NumWrappedOneCond s)
    /\ NumWrappedTwoCond s' = NumWrappedTwoCond s)
   \/ (NumWrappedOneCond s' = NumWrappedOneCond s
       /\ NumWrappedTwoCond s' = increment (NumWrappedTwoCond s)))
  /\ exists L c,
       Located (CIId CI) s L
       /\ branchesOn s' (BBId (LBlock L)) c
       /\ match c with
          | FCmp _ _ _ =>
              NumWrappedOneCond s' = increment (NumWrappedOneCond s)
              /\ NumWrappedTwoCond s' = NumWrappedTwoCond s
          | Or (FCmp _ _ _) (FCmp _ _ _) =>
              NumWrappedOneCond s' = NumWrappedOneCond s
              /\ NumWrappedTwoCond s' = increment (NumWrappedTwoCond s)
          | Or _ _ => False
          end.
Proof.
  intros CI s s'. split.
  - exact (proj1 (proj2 (rewrite_is_counted_once allEnabled sample_TLI CI s
                           true s' eq_refl)) eq_refl).
  - apply (proj2 (proj2 (rewrite_is_counted_once allEnabled sample_TLI CI s
                           true s' eq_refl)) eq_refl).
    intros a [<-|[]]. reflexivity.
Defined.

(** X4.  What the predicate reads.  The predicate a call is guarded by
    compares arguments of that call, and nothing else, with constants:
    every comparison has the first argument of the call on its left, or,
    for the power functions only, the first or the second argument, and on
    its right a floating-point constant of the type of the value it is
    compared with. *)
Theorem guard_reads_only_arguments Opts TLI CI Callee Func s s' :
  getCalledFunction CI = Some Callee ->
  getLibFunc TLI Callee = Some Func ->
  perform1 Opts TLI CI s = Ok (true, s') ->
  exists L c,
    Located (CIId CI) s L
    /\ branchesOn s' (BBId (LBlock L)) c
    /\ forall l r, In (l, r) (comparisons c) ->
         In l (firstn (if isPowFamily Func then 2 else 1) (ArgOperands CI))
         /\ exists v, r = ConstantFP (getType l) v.
Proof.
  intros HC HF H.
  assert (HR := Rewrites_perform1 Opts TLI CI Callee Func HC HF s true s' H).
  destruct (Rewritten_branchesOn _ _ _ _ HR) as (L & c & HL & HG & _ & HB & _).
  exists L, c. split; [exact HL|]. split; [exact HB|].
  intros l r Hin. destruct (HG l r Hin) as [H1 H2]. split; [exact H1|].
  destruct r as [t v| |]; try discriminate H2.
  cbn [isConstantOf] in H2. apply Type_eqb_eq in H2. subst t. eauto.
Qed.

Lemma guard_reads_only_arguments_witness :
  let CI := sample_call "sqrt" [sample_arg] in
  let s := sample_state CI in
  let s' := stateOf (perform1 allEnabled sample_TLI CI s) s in
  exists L c,
    Located (CIId CI) s L
    /\ branchesOn s' (BBId (LBlock L)) c
    /\ forall l r, In (l, r) (comparisons c) ->
         In l (firstn 1 (ArgOperands CI))
         /\ exists v, r = ConstantFP (getType l) v.
Proof.
  intros CI s s'.
  exact (guard_reads_only_arguments allEnabled sample_TLI CI "sqrt"%string
           LibFunc.sqrt s s' eq_refl eq_refl eq_refl).
Defined.

Lemma evalPredicate_nan p y : evalPredicate p S754_nan y = false.
Proof. destruct p, y; reflexivity. Qed.

Lemma evalCond_nan rho c :
  (forall l r, In (l, r) (comparisons c) -> evalValue rho l = S754_nan) ->
  evalCond rho c = false.
Proof.
  induction c as [p l r | c1 IH1 c2 IH2]; cbn [evalCond comparisons]; intros H.
  - rewrite (H l r (or_introl eq_refl)). apply evalPredicate_nan.
  - rewrite IH1, IH2; [reflexivity | |];
      intros l r Hin; apply (H l r); apply in_app_iff; auto.
Qed.

(** X5.  Not-a-number arguments.  Every comparison the pass builds is
    ordered.  So, for every function other than the power functions, the
    predicate of a rewritten call is false whenever the first argument of
    the call is NaN: with a NaN argument the guarded call is skipped.  The
    power functions are left out: their predicate reads two arguments, and
    with a base converted from an integer that is at most zero it holds
    whatever the exponent. *)
Theorem guard_is_false_on_nan Opts TLI CI Callee Func s s' :
  getCalledFunction CI = Some Callee ->
  getLibFunc TLI Callee = Some Func ->
  isPowFamily Func = false ->
  perform1 Opts TLI CI s = Ok (true, s') ->
  exists L c Arg,
    Located (CIId CI) s L
    /\ branchesOn s' (BBId (LBlock L)) c
    /\ nth_error (ArgOperands CI) 0 = Some Arg
    /\ forall rho, evalValue rho Arg = S754_nan -> evalCond rho c = false.
Proof.
  intros HC HF HP H.
  assert (HR := Rewrites_perform1 Opts TLI CI Callee Func HC HF s true s' H).
  unfold argsRead in HR. rewrite HP in HR.
  destruct (Rewritten_branchesOn _ _ _ _ HR) as (L & c & HL & HG & HS & HB & _).
  assert (Hc : exists l0 r0, In (l0, r0) (comparisons c)).
  { destruct c as [p l r | [p1 l1 r1 | a1 a2] c2].
    - exists l, r. now left.
    - exists l1, r1. now left.
    - destruct HS. }
  destruct Hc as (l0 & r0 & Hlr0).
  unfold guardsArguments in HG.
  destruct (HG l0 r0 Hlr0) as [Hin _].
  destruct (ArgOperands CI) as [|Arg args] eqn:EA; [destruct Hin|].
  exists L, c, Arg. split; [exact HL|]. split; [exact HB|].
  split; [reflexivity|].
  intros rho Hnan. apply evalCond_nan. intros l r Hlr.
  destruct (HG l r Hlr) as [[<-|[]] _]. exact Hnan.
Qed.

Lemma guard_is_false_on_nan_witness :
  let CI := sample_call "sqrt" [sample_arg] in
  let s := sample_state CI in
  let s' := stateOf (perform1 allEnabled sample_TLI CI s) s in
  exists L c Arg,
    Located (CIId CI) s L
    /\ branchesOn s' (BBId (LBlock L)) c
    /\ nth_error (ArgOperands CI) 0 = Some Arg
    /\ forall rho, evalValue rho Arg = S754_nan -> evalCond rho c = false.
Proof.
  intros CI s s'.
  exact (guard_is_false_on_nan allEnabled sample_TLI CI "sqrt"%string
           LibFunc.sqrt s s' eq_refl eq_refl eq_refl eq_refl).
Defined.

(* ================================================================== *)
(** ** What a run of the pass adds up to *)

Lemma wrapped_increment_One s :
  wrapped (incOneCond s) = ((wrapped s + 1) mod 2 ^ 32)%N.
Proof.
  unfold wrapped, incOneCond, increment.
  cbn [NumWrappedOneCond NumWrappedTwoCond].
  rewrite !N.Div0.add_mod_idemp_l. f_equal. lia.
Qed.

Lemma wrapped_increment_Two s :
  wrapped (incTwoCond s) = ((wrapped s + 1) mod 2 ^ 32)%N.
Proof.
  unfold wrapped, incTwoCond, increment.
  cbn [NumWrappedOneCond NumWrappedTwoCond].
  rewrite N.Div0.add_mod_idemp_r, N.Div0.add_mod_idemp_l. f_equal. lia.
Qed.

Lemma step_counts Opts TLI CI s b s1 :
  perform1 Opts TLI CI s = Ok (b, s1) ->
  wrapped s1 = ((wrapped s + (if b then 1 else 0)) mod 2 ^ 32)%N
  /\ List.length (Blocks (Fn s1))
     = (List.length (Blocks (Fn s)) + (if b then 2 else 0))%nat.
Proof.
  intros H. destruct b.
  - destruct (perform1_Rewritten _ _ _ _ _ H) as (Callee & Func & _ & _ & HR).
    destruct (Rewritten_state _ _ _ _ HR)
      as (L & c & HL & _ & _ & HB & _ & _ & _ & H1 & H2).
    split.
    + assert (HW : wrapped s1 = wrapped (count c s))
        by (unfold wrapped, count; rewrite H1, H2; destruct (isOr c); reflexivity).
      rewrite HW. unfold count.
      destruct (isOr c);
        [apply wrapped_increment_Two | apply wrapped_increment_One].
    + rewrite HB, guarded_addPre.
      rewrite (Located_blocksOf _ _ _ HL). unfold blocksOf.
      rewrite !length_app. cbn [List.length]. lia.
  - rewrite (Wraps_perform1 Opts TLI CI _ _ _ H).
    split; [|lia].
    unfold wrapped. now rewrite N.add_0_r, N.Div0.mod_mod.
Qed.

Lemma loop_counts Opts TLI WL s s' :
  forEach (performStep Opts TLI) WL s = Ok (tt, s') ->
  exists k : nat,
    (k <= List.length WL)%nat
    /\ wrapped s' = ((wrapped s + N.of_nat k) mod 2 ^ 32)%N
    /\ List.length (Blocks (Fn s')) = (List.length (Blocks (Fn s)) + 2 * k)%nat
    /\ (Changed s' = true <-> Changed s = true \/ (0 < k)%nat).
Proof.
  revert s. induction WL as [|CI WL IH]; intros s H.
  - injection H as <-. exists 0%nat. cbn [List.length N.of_nat].
    split; [lia|].
    split; [unfold wrapped; now rewrite N.add_0_r, N.Div0.mod_mod|].
    split; [lia|].
    split; [now left | intros [?|?]; [assumption | lia]].
  - cbn [forEach] in H. apply bind_Ok in H. destruct H as ([] & t & Hs & H).
    unfold performStep in Hs. apply bind_Ok in Hs.
    destruct Hs as (b & s1 & Hp & Hs).
    destruct (step_counts _ _ _ _ _ _ Hp) as (W1 & L1).
    destruct (Preserves_perform1 Opts TLI CI s b s1 Hp) as (_ & HC & _).
    destruct (IH _ H) as (k & Hk & W2 & L2 & C2).
    destruct b.
    + injection Hs as <-. exists (S k).
      change (wrapped (setChanged s1)) with (wrapped s1) in W2.
      cbn [setChanged Fn Changed List.length] in *.
      split; [lia|]. split; [|split; [lia|]].
      * rewrite W2, W1, N.Div0.add_mod_idemp_l. f_equal. lia.
      * split; [intros _; right; lia | intros _; apply C2; now left].
    + injection Hs as <-. exists k. cbn [List.length].
      rewrite HC in C2.
      split; [lia|]. split; [|split; [lia | exact C2]].
      rewrite W2, W1, N.Div0.add_mod_idemp_l. f_equal. lia.
Qed.

Lemma runImpl_counts Opts TLI F n1 n2 b s' :
  runImpl Opts TLI F n1 n2 = Ok (b, s') ->
  exists k : nat,
    (k <= List.length (candidates TLI F))%nat
    /\ ((NumWrappedOneCond s' + NumWrappedTwoCond s') mod 2 ^ 32
        = (n1 + n2 + N.of_nat k) mod 2 ^ 32)%N
    /\ List.length (Blocks (Fn s')) = (List.length (Blocks F) + 2 * k)%nat
    /\ (b = true <-> (0 < k)%nat).
Proof.
  unfold runImpl. destruct (OptimizeForSize F).
  - intros [= <- <-]. exists 0%nat.
    cbn [LibCallsShrinkWrap_ Fn NumWrappedOneCond NumWrappedTwoCond N.of_nat].
    split; [lia|]. split; [now rewrite N.add_0_r|]. split; [lia|].
    split; [discriminate | lia].
  - intros H.
    apply bind_Ok in H. destruct H as ([] & t & Hv & H).
    apply visit_Ok in Hv. subst t.
    apply bind_Ok in H. destruct H as ([] & t & Hp & H).
    rewrite perform_performStep in Hp.
    apply bind_Ok in Hp. destruct Hp as (WL & t0 & Hg & Hp).
    injection Hg as <- <-.
    injection H as <- <-.
    destruct (loop_counts _ _ _ _ _ Hp) as (k & Hk & W & L & C).
    exists k. unfold wrapped in W.
    cbn [pushAll LibCallsShrinkWrap_ WorkList Fn Changed NumWrappedOneCond
         NumWrappedTwoCond app] in *.
    split; [exact Hk|].
    split; [now rewrite W, N.Div0.add_mod_idemp_l|].
    split; [exact L|].
    split.
    + intros Hc. apply C in Hc. destruct Hc; [discriminate | assumption].
    + intros Hk0. apply C. now right.
Qed.

(** X6.  The statistics of a run.  Whenever the pass returns on a function,
    it has rewritten some number [k] of calls, at most the number of
    candidates of the function; the function has exactly [2 * k] more
    blocks; the answer is [true] if and only if [k] is not zero; and the
    two statistics, which are counters of 32 bits that wrap around, have
    moved by [k] in total: their sum is the old sum plus [k], modulo
    2^32. *)
Theorem runImpl_statistics Opts TLI F n1 n2 b s' :
  runImpl Opts TLI F n1 n2 = Ok (b, s') ->
  exists k : nat,
    (k <= List.length (candidates TLI F))%nat
    /\ ((NumWrappedOneCond s' + NumWrappedTwoCond s') mod 2 ^ 32
        = (n1 + n2 + N.of_nat k) mod 2 ^ 32)%N
    /\ List.length (Blocks (Fn s')) = (List.length (Blocks F) + 2 * k)%nat
    /\ (b = true <-> (0 < k)%nat).
Proof. exact (runImpl_counts Opts TLI F n1 n2 b s'). Qed.

Lemma runImpl_statistics_witness :
  let CI := sample_call "sqrt" [sample_arg] in
  let F := mkFunction false [sample_block CI] in
  let s' := stateOf (runImpl allEnabled sample_TLI F 4294967295 7)
                    (LibCallsShrinkWrap_ F 4294967295 7) in
  exists k : nat,
    (k <= List.length (candidates sample_TLI F))%nat
    /\ ((NumWrappedOneCond s' + NumWrappedTwoCond s') mod 2 ^ 32
        = (4294967295 + 7 + N.of_nat k) mod 2 ^ 32)%N
    /\ List.length (Blocks (Fn s')) = (List.length (Blocks F) + 2 * k)%nat
    /\ (true = true <-> (0 < k)%nat).
Proof.
  intros CI F s'.
  exact (runImpl_statistics allEnabled sample_TLI F 4294967295 7 true s' eq_refl).
Defined.

Lemma runImpl_false Opts TLI F n1 n2 s' :
  runImpl Opts TLI F n1 n2 = Ok (false, s') ->
  Fn s' = F /\ NumWrappedOneCond s' = n1 /\ NumWrappedTwoCond s' = n2.
Proof.
  unfold runImpl. destruct (OptimizeForSize F).
  - intros [= <-]. repeat split.
  - intros H.
    apply bind_Ok in H. destruct H as ([] & t & Hv & H).
    apply visit_Ok in Hv. subst t.
    apply bind_Ok in H. destruct H as ([] & t & Hp & H).
    rewrite perform_performStep in Hp.
    apply bind_Ok in Hp. destruct Hp as (WL & t0 & Hg & Hp).
    injection Hg as <- <-.
    injection H as HC <-.
    destruct (loop_Changed _ _ _ _ _ Hp) as (_ & _ & HU).
    rewrite (HU HC). repeat split.
Qed.

(** Every call that processing answers [true] for was rewritten: its block
    is split in three around it. *)
Lemma perform1_true_rewrites Opts TLI CI s s' :
  perform1 Opts TLI CI s = Ok (true, s') ->
  exists B1 blk pre x post B2 c Head CallBB Tail,
    Blocks (Fn s) = B1 ++ blk :: B2
    /\ Insts blk = pre ++ x :: post
    /\ isCall (CIId CI) x = true
    /\ Blocks (Fn s') = B1 ++ Head :: CallBB :: Tail :: B2
    /\ Term Head = CondBr c (BBId CallBB) (BBId Tail) (Some (1, 2000)%N)
    /\ Insts CallBB = [ICall CI]
    /\ Term CallBB = Br (BBId Tail)
    /\ Insts Tail = post
    /\ Term Tail = Term blk.
Proof.
  intros H.
  destruct (perform1_Rewritten _ _ _ _ _ H) as (Callee & Func & _ & _ & HR).
  destruct (Rewritten_state _ _ _ _ HR) as (L & c & HL & _ & _ & HB & _).
  destruct (locate_Some _ _ _ HL) as (Hbs & Hins & Hx & _ & _).
  rewrite guarded_addPre in HB.
  exists (LBefore L), (LBlock L), (LPre L), (LInst L), (LPost L), (LAfter L), c.
  do 3 eexists.
  split; [exact Hbs|]. split; [exact Hins|]. split; [exact Hx|].
  split; [exact HB|]. cbn [BBId Insts Term]. repeat split.
Qed.

(** C9.  On a function marked as optimized for size the pass returns false
    and leaves the function and the statistics as they are.  On any other
    function, whenever the pass returns, it returns true if and only if one
    of the candidates was rewritten, and when it returns false the function
    is untouched; and the pass does return when the calls of the function
    are well formed.  A candidate that every enabled category declines
    leaves the whole state untouched.  That a candidate was rewritten is a
    fact about the function: each candidate that is processed with success
    has its block split in three around it, the call alone in the middle
    block behind the branch on the predicate; and the pass returns true if
    and only if the function has more blocks than before, two for each
    candidate it rewrote. *)
Theorem runImpl_result Opts TLI F n1 n2 :
  let s0 := pushAll (candidates TLI F) (LibCallsShrinkWrap_ F n1 n2) in
  (OptimizeForSize F = true ->
   runImpl Opts TLI F n1 n2 = Ok (false, LibCallsShrinkWrap_ F n1 n2))
  /\ (OptimizeForSize F = false ->
      forall b s',
        runImpl Opts TLI F n1 n2 = Ok (b, s') ->
        (b = true <-> Succeeded Opts TLI (candidates TLI F) s0)
        /\ (b = false -> s' = s0)
        /\ (b = true <->
            (List.length (Blocks F) < List.length (Blocks (Fn s')))%nat)
        /\ exists k : nat,
             (k <= List.length (candidates TLI F))%nat
             /\ List.length (Blocks (Fn s'))
                = (List.length (Blocks F) + 2 * k)%nat
             /\ (b = true <-> (0 < k)%nat))
  /\ (OptimizeForSize F = false -> wfFunction TLI F = true ->
      exists b s', runImpl Opts TLI F n1 n2 = Ok (b, s'))
  /\ (forall CI s s', perform1 Opts TLI CI s = Ok (false, s') -> s' = s)
  /\ (forall CI s s',
        perform1 Opts TLI CI s = Ok (true, s') ->
        exists B1 blk pre x post B2 c Head CallBB Tail,
          Blocks (Fn s) = B1 ++ blk :: B2
          /\ Insts blk = pre ++ x :: post
          /\ isCall (CIId CI) x = true
          /\ Blocks (Fn s') = B1 ++ Head :: CallBB :: Tail :: B2
          /\ Term Head = CondBr c (BBId CallBB) (BBId Tail) (Some (1, 2000)%N)
          /\ Insts CallBB = [ICall CI]
          /\ Term CallBB = Br (BBId Tail)
          /\ Insts Tail = post
          /\ Term Tail = Term blk).
Proof.
  intros s0. split; [|split; [|split; [|split]]].
  - intros HO. unfold runImpl. now rewrite HO.
  - intros HO b s' H.
    destruct (runImpl_counts _ _ _ _ _ _ _ H) as (k & Hk & _ & HL & HK).
    unfold runImpl in H. rewrite HO in H.
    apply bind_Ok in H. destruct H as ([] & t & Hv & H).
    apply visit_Ok in Hv. fold s0 in Hv. subst t.
    apply bind_Ok in H. destruct H as ([] & t & Hp & H).
    rewrite perform_performStep in Hp.
    apply bind_Ok in Hp. destruct Hp as (WL & t0 & Hg & Hp).
    injection Hg as <- <-.
    change (WorkList s0) with (candidates TLI F) in Hp.
    destruct (loop_Changed Opts TLI _ _ _ Hp) as (_ & HC & HU).
    injection H as <- <-.
    split; [|split; [exact HU|split]].
    + rewrite HC. split; [intros [H|H]; [discriminate H | exact H] | auto].
    + rewrite HK, HL. lia.
    + exists k. auto.
  - intros HO Hwf. unfold runImpl. rewrite HO.
    unfold bind at 1.
    rewrite (visit_spec TLI F _ (wfFunction_hasFirstArg TLI F Hwf)).
    fold s0. rewrite perform_performStep.
    unfold bind at 1. unfold bind at 1, gets at 1.
    change (WorkList s0) with (candidates TLI F).
    destruct (loop_Returns Opts TLI (candidates TLI F) s0) as (s' & Hloop).
    { apply Forall_forall. intros CI Hin.
      exact (wfFunction_candidates TLI F CI Hwf Hin). }
    rewrite Hloop. unfold isChanged, gets. eauto.
  - intros CI s s' H. exact (Wraps_perform1 Opts TLI CI _ _ _ H).
  - intros CI s s'. apply perform1_true_rewrites.
Qed.

Lemma runImpl_result_witness :
  let CI := sample_call "sqrt" [sample_arg] in
  let F := mkFunction false [sample_block CI] in
  let s' := stateOf (runImpl allEnabled sample_TLI F 0 0)
                    (LibCallsShrinkWrap_ F 0 0) in
  (exists b s', runImpl allEnabled sample_TLI F 0 0 = Ok (b, s'))
  /\ (true = true <->
      Succeeded allEnabled sample_TLI (candidates sample_TLI F)
        (pushAll (candidates sample_TLI F) (LibCallsShrinkWrap_ F 0 0)))
  /\ (true = true <->
      (List.length (Blocks F) < List.length (Blocks (Fn s')))%nat).
Proof.
  intros CI F s'. split; [|split].
  - exact (proj1 (proj2 (proj2 (runImpl_result allEnabled sample_TLI F 0 0)))
             eq_refl eq_refl).
  - exact (proj1 (proj1 (proj2 (runImpl_result allEnabled sample_TLI F 0 0))
                    eq_refl true s' eq_refl)).
  - exact (proj1 (proj2 (proj2
             (proj1 (proj2 (runImpl_result allEnabled sample_TLI F 0 0))
                eq_refl true s' eq_refl)))).
Defined.

(** X7.  The answer to the new pass manager.  When [run] answers that all
    analyses are preserved, the function is exactly as it was and no
    statistic has moved; when it answers that none is, the pass has
    rewritten at least one call: the function has two more blocks for each
    of the calls it rewrote, of which there is at least one. *)
Theorem run_answer_is_sound Opts TLI F n1 n2 pa s' :
  LibCallsShrinkWrapPass.run Opts TLI F n1 n2 = Ok (pa, s') ->
  (pa = LibCallsShrinkWrapPass.all ->
   Fn s' = F /\ NumWrappedOneCond s' = n1 /\ NumWrappedTwoCond s' = n2)
  /\ (pa = LibCallsShrinkWrapPass.none ->
      exists k : nat,
        (0 < k)%nat
        /\ List.length (Blocks (Fn s')) = (List.length (Blocks F) + 2 * k)%nat).
Proof.
  unfold LibCallsShrinkWrapPass.run.
  destruct (runImpl Opts TLI F n1 n2) as [[b s1]|c] eqn:E; [|discriminate].
  destruct b; cbn [negb]; intros [= <- <-]; (split; [|]); try discriminate.
  - intros _.
    destruct (runImpl_counts _ _ _ _ _ _ _ E) as (k & _ & _ & L & C).
    exists k. split; [now apply C | exact L].
  - intros _. exact (runImpl_false _ _ _ _ _ _ E).
Qed.

Lemma run_answer_is_sound_witness :
  let CI := sample_call "sqrt" [sample_arg] in
  let F := mkFunction false [sample_block CI] in
  let s' := stateOf (LibCallsShrinkWrapPass.run allEnabled sample_TLI F 0 0)
                    (LibCallsShrinkWrap_ F 0 0) in
  exists k : nat,
    (0 < k)%nat
    /\ List.length (Blocks (Fn s')) = (List.length (Blocks F) + 2 * k)%nat.
Proof.
  intros CI F s'.
  exact (proj2 (run_answer_is_sound allEnabled sample_TLI F 0 0
                  LibCallsShrinkWrapPass.none s' eq_refl) eq_refl).
Defined.

(** X8.  The declaration of the legacy pass.  [getAnalysisUsage] marks the
    control-flow graph as preserved, whatever was declared before, and
    requires the library information; and every run of [runOnFunction]
    that answers [true] has added blocks to the function, two for each of
    the calls it rewrote, of which there is at least one. *)
Theorem legacy_pass_declaration_and_effect AU :
  LibCallsShrinkWrapLegacyPass.PreservesCFG
    (LibCallsShrinkWrapLegacyPass.getAnalysisUsage AU) = true
  /\ In "TargetLibraryInfoWrapperPass"%string
        (LibCallsShrinkWrapLegacyPass.Required
           (LibCallsShrinkWrapLegacyPass.getAnalysisUsage AU))
  /\ forall Opts TLI F n1 n2 s',
       LibCallsShrinkWrapLegacyPass.runOnFunction Opts TLI F n1 n2
       = Ok (true, s') ->
       exists k : nat,
         (0 < k)%nat
         /\ List.length (Blocks (Fn s')) = (List.length (Blocks F) + 2 * k)%nat.
Proof.
  split; [reflexivity|]. split.
  - cbn. apply in_app_iff. right. now left.
  - intros Opts TLI F n1 n2 s' H.
    destruct (runImpl_counts _ _ _ _ _ _ _ H) as (k & _ & _ & L & C).
    exists k. split; [now apply C | exact L].
Qed.

Lemma legacy_pass_declaration_and_effect_witness :
  let CI := sample_call "sqrt" [sample_arg] in
  let F := mkFunction false [sample_block CI] in
  let s' := stateOf
              (LibCallsShrinkWrapLegacyPass.runOnFunction allEnabled sample_TLI F 0 0)
              (LibCallsShrinkWrap_ F 0 0) in
  exists k : nat,
    (0 < k)%nat
    /\ List.length (Blocks (Fn s')) = (List.length (Blocks F) + 2 * k)%nat.
Proof.
  intros CI F s'.
  exact (proj2 (proj2 (legacy_pass_declaration_and_effect
                         (LibCallsShrinkWrapLegacyPass.mkAnalysisUsage false [])))
           allEnabled sample_TLI F 0%N 0%N s' eq_refl).
Defined.

(* ================================================================== *)
(** ** The instructions of the function stay *)

Lemma NoDup_map_inj {A B} (f : A -> B) l a b :
  NoDup (map f l) -> In a l -> In b l -> f a = f b -> a = b.
Proof.
  induction l as [|x r IH]; cbn; [tauto|].
  intros HN Ha Hb E. inversion HN as [|? ? Hx Hr]; subst.
  destruct Ha as [->|Ha], Hb as [->|Hb]; auto.
  - exfalso. apply Hx. rewrite E. now apply in_map.
  - exfalso. apply Hx. rewrite <- E. now apply in_map.
Qed.

Lemma callsIn_app a b : callsIn (a ++ b) = callsIn a ++ callsIn b.
Proof. apply flat_map_app. Qed.

Lemma callsIn_filter l :
  callsIn (filter (fun i => negb (isInserted i)) l) = callsIn l.
Proof.
  induction l as [|i r IH]; [reflexivity|].
  destruct i; cbn [filter isInserted negb]; cbn [callsIn flat_map];
    fold (callsIn r); fold (callsIn (filter (fun i => negb (isInserted i)) r));
    now rewrite ?IH.
Qed.

Lemma callsOf_kept bs : callsOf bs = callsIn (kept bs).
Proof.
  induction bs as [|b r IH]; [reflexivity|].
  cbn [callsOf kept flat_map]. fold (callsOf r). fold (kept r).
  now rewrite callsIn_app, callsIn_filter, IH.
Qed.

Lemma kept_app a b : kept (a ++ b) = kept a ++ kept b.
Proof. apply flat_map_app. Qed.

Lemma filter_code c : filter (fun i => negb (isInserted i)) (code c) = [].
Proof.
  assert (Hc := code_isInserted c).
  induction (code c) as [|i r IH]; [reflexivity|].
  cbn in *. apply andb_true_iff in Hc as [Hi Hr]. rewrite Hi. cbn. auto.
Qed.

(** The instructions that no builder created, after and before a rewrite:
    the located call is replaced by the call that was processed. *)
Lemma Rewritten_kept n CI s s' :
  Rewritten n CI s s' ->
  exists L,
    Located (CIId CI) s L
    /\ let around i :=
         kept (LBefore L)
         ++ filter (fun i => negb (isInserted i)) (LPre L)
         ++ i :: filter (fun i => negb (isInserted i)) (LPost L)
         ++ kept (LAfter L) in
       kept (Blocks (Fn s)) = around (LInst L)
       /\ kept (Blocks (Fn s')) = around (ICall CI).
Proof.
  intros HR.
  destruct (Rewritten_state _ _ _ _ HR) as (L & c & HL & _ & _ & HB & _).
  destruct (locate_Some _ _ _ HL) as (Hbs & Hins & Hx & _ & _).
  exists L. split; [exact HL|]. cbv zeta.
  assert (HxI : isInserted (LInst L) = false).
  { destruct (LInst L); try discriminate Hx; reflexivity. }
  split.
  - rewrite Hbs, kept_app. cbn [kept flat_map]. fold (kept (LAfter L)).
    rewrite Hins, filter_app. cbn [filter]. rewrite HxI. cbn [negb].
    now rewrite <- !app_assoc.
  - rewrite HB, guarded_addPre, !kept_app.
    cbn [kept flat_map Insts filter isInserted negb app].
    now rewrite filter_app, filter_code, !app_nil_r, <- !app_assoc.
Qed.

Lemma Rewritten_kept_same n CI s s' :
  Rewritten n CI s s' ->
  In CI (callsOf (Blocks (Fn s))) ->
  NoDup (map CIId (callsOf (Blocks (Fn s)))) ->
  kept (Blocks (Fn s')) = kept (Blocks (Fn s)).
Proof.
  intros HR HIn HN.
  destruct (Rewritten_kept _ _ _ _ HR) as (L & HL & Hs & Hs').
  destruct (locate_Some _ _ _ HL) as (_ & _ & Hx & _ & _).
  rewrite Hs, Hs'.
  destruct (LInst L) as [CI0| | |] eqn:E; try discriminate Hx.
  cbn [isCall] in Hx. apply N.eqb_eq in Hx.
  assert (HIn0 : In CI0 (callsOf (Blocks (Fn s)))).
  { rewrite callsOf_kept, Hs, !callsIn_app. cbn [callsIn flat_map].
    rewrite !in_app_iff. right. right. left. now left. }
  now rewrite (NoDup_map_inj CIId _ CI0 CI HN HIn0 HIn Hx).
Qed.

Lemma loop_kept Opts TLI WL s s' :
  NoDup (map CIId (callsOf (Blocks (Fn s)))) ->
  (forall CI, In CI WL -> In CI (callsOf (Blocks (Fn s)))) ->
  forEach (performStep Opts TLI) WL s = Ok (tt, s') ->
  kept (Blocks (Fn s')) = kept (Blocks (Fn s)).
Proof.
  revert s. induction WL as [|CI WL IH]; intros s HN HW H.
  - now injection H as <-.
  - cbn [forEach] in H. apply bind_Ok in H. destruct H as ([] & t & Hs & H).
    unfold performStep in Hs. apply bind_Ok in Hs.
    destruct Hs as (b & s1 & Hp & Hs).
    assert (HK : kept (Blocks (Fn s1)) = kept (Blocks (Fn s))).
    { destruct b.
      - destruct (perform1_Rewritten _ _ _ _ _ Hp) as (? & ? & _ & _ & HR).
        apply (Rewritten_kept_same _ _ _ _ HR); [|exact HN].
        apply HW. now left.
      - now rewrite (Wraps_perform1 Opts TLI CI _ _ _ Hp). }
    assert (Ht : Blocks (Fn t) = Blocks (Fn s1)).
    { destruct b; injection Hs as <-; reflexivity. }
    rewrite <- HK, <- Ht. apply IH; [| |exact H].
    + now rewrite callsOf_kept, Ht, HK, <- callsOf_kept.
    + intros CI' Hin. rewrite callsOf_kept, Ht, HK, <- callsOf_kept.
      apply HW. now right.
Qed.

Lemma runImpl_kept Opts TLI F n1 n2 b s' :
  NoDup (map CIId (callsOf (Blocks F))) ->
  runImpl Opts TLI F n1 n2 = Ok (b, s') ->
  kept (Blocks (Fn s')) = kept (Blocks F)
  /\ OptimizeForSize (Fn s') = OptimizeForSize F.
Proof.
  intros HN. unfold runImpl. destruct (OptimizeForSize F) eqn:HO.
  - intros [= <- <-]. split; [reflexivity | exact HO].
  - intros H.
    apply bind_Ok in H. destruct H as ([] & t & Hv & H).
    apply visit_Ok in Hv. subst t.
    apply bind_Ok in H. destruct H as ([] & t & Hp & H).
    rewrite perform_performStep in Hp.
    apply bind_Ok in Hp. destruct Hp as (WL & t0 & Hg & Hp).
    injection Hg as <- <-. injection H as <- <-.
    split.
    + apply (loop_kept Opts TLI (candidates TLI F)
               (pushAll (candidates TLI F) (LibCallsShrinkWrap_ F n1 n2)) t HN);
        [|exact Hp].
      intros CI Hin. unfold candidates in Hin.
      apply filter_In in Hin. exact (proj1 Hin).
    + assert (HF : forall WL s s',
                forEach (performStep Opts TLI) WL s = Ok (tt, s') ->
                OptimizeForSize (Fn s') = OptimizeForSize (Fn s)).
      { clear. intros WL. induction WL as [|CI WL IH]; intros s s' H.
        - now injection H as <-.
        - cbn [forEach] in H. apply bind_Ok in H.
          destruct H as ([] & t & Hs & H).
          unfold performStep in Hs. apply bind_Ok in Hs.
          destruct Hs as (b & s1 & Hp & Hs).
          destruct (Preserves_perform1 Opts TLI CI s b s1 Hp) as (_ & _ & HO & _).
          rewrite (IH _ _ H). destruct b; injection Hs as <-; exact HO. }
      rewrite (HF _ _ _ Hp). exact HO.
Qed.

(** X9.  The instructions of the function stay.  On a function whose calls
    have distinct identities, whenever the pass returns, the instructions
    of the function other than the comparisons and ors built by the pass
    are the same as before, in the same order, with the same operands and
    attributes; in particular the calls of the function are the same, in
    the same order, and so are its candidates: the pass leaves no mark on a
    call it has wrapped, which a second run would select again. *)
Theorem runImpl_keeps_instructions Opts TLI F n1 n2 b s' :
  NoDup (map CIId (callsOf (Blocks F))) ->
  runImpl Opts TLI F n1 n2 = Ok (b, s') ->
  kept (Blocks (Fn s')) = kept (Blocks F)
  /\ callsOf (Blocks (Fn s')) = callsOf (Blocks F)
  /\ candidates TLI (Fn s') = candidates TLI F
  /\ OptimizeForSize (Fn s') = OptimizeForSize F.
Proof.
  intros HN H. destruct (runImpl_kept _ _ _ _ _ _ _ HN H) as (HK & HO).
  assert (HC : callsOf (Blocks (Fn s')) = callsOf (Blocks F))
    by now rewrite !callsOf_kept, HK.
  repeat split; try assumption.
  unfold candidates. now rewrite HC.
Qed.

Lemma runImpl_keeps_instructions_witness :
  let CI := sample_call "sqrt" [sample_arg] in
  let F := mkFunction false [sample_block CI] in
  let s' := stateOf (runImpl allEnabled sample_TLI F 0 0)
                    (LibCallsShrinkWrap_ F 0 0) in
  kept (Blocks (Fn s')) = kept (Blocks F)
  /\ callsOf (Blocks (Fn s')) = callsOf (Blocks F)
  /\ candidates sample_TLI (Fn s') = candidates sample_TLI F
  /\ OptimizeForSize (Fn s') = OptimizeForSize F.
Proof.
  intros CI F s'.
  apply (runImpl_keeps_instructions allEnabled sample_TLI F 0 0 true s');
    [|reflexivity].
  cbn. constructor; [intros []|constructor].
Defined.

(* ================================================================== *)
(** ** The decision does not depend on the state *)

Lemma Uniform_ret {A} id (a : A) : Uniform id (ret a).
Proof. intros s t Hs Ht. cbn. auto. Qed.

Lemma Uniform_fatal {A} id c : Uniform id (@fatal A c).
Proof. intros s t Hs Ht. reflexivity. Qed.

Lemma Uniform_bind {A B} id (m : M A) (k : A -> M B) :
  Uniform id m -> (forall a, Uniform id (k a)) -> Uniform id (bind m k).
Proof.
  intros Hm Hk s t Hs Ht. unfold bind. specialize (Hm s t Hs Ht).
  unfold Agree in Hm.
  destruct (m s) as [[a s1]|c], (m t) as [[b t1]|d]; try contradiction.
  - destruct Hm as (<- & H1 & H2). exact (Hk a s1 t1 H1 H2).
  - exact Hm.
Qed.

Lemma Uniform_incOneCond id : Uniform id (modify incOneCond).
Proof. intros s t Hs Ht. cbn. auto. Qed.

Lemma Uniform_incTwoCond id : Uniform id (modify incTwoCond).
Proof. intros s t Hs Ht. cbn. auto. Qed.

Lemma Uniform_getArgOperand id CI i : Uniform id (getArgOperand CI i).
Proof.
  unfold getArgOperand. destruct (nth_error _ _);
    [apply Uniform_ret | apply Uniform_fatal].
Qed.

Lemma Uniform_getOperand id ops i : Uniform id (getOperand ops i).
Proof.
  unfold getOperand. destruct (nth_error _ _);
    [apply Uniform_ret | apply Uniform_fatal].
Qed.

Lemma Uniform_getFPExtend id V ty : Uniform id (getFPExtend V ty).
Proof.
  unfold getFPExtend.
  destruct V as [[] v| |]; try apply Uniform_fatal;
    destruct ty; first [apply Uniform_fatal | apply Uniform_ret].
Qed.

Lemma Uniform_convertToDouble id ty v : Uniform id (convertToDouble ty v).
Proof.
  unfold convertToDouble.
  destruct (isDoubleTy ty); [apply Uniform_ret | apply Uniform_fatal].
Qed.

Lemma Uniform_Insert CI i :
  isAnyCall i = false -> Uniform (CIId CI) (Insert CI i).
Proof.
  intros Hi s t Hs Ht.
  destruct (hasCall_locate _ _ Hs) as (Ls & HLs).
  destruct (hasCall_locate _ _ Ht) as (Lt & HLt).
  assert (Es := Insert_Located CI s Ls i HLs).
  assert (Et := Insert_Located CI t Lt i HLt).
  rewrite Es, Et. unfold Agree. split; [reflexivity|].
  rewrite (Keeps_Insert CI i s _ Hi Es), (Keeps_Insert CI i t _ Hi Et). auto.
Qed.

Lemma Uniform_CreateFCmp CI p a b : Uniform (CIId CI) (CreateFCmp CI p a b).
Proof.
  unfold CreateFCmp. destruct (Type_eqb _ _); [|apply Uniform_fatal].
  apply Uniform_bind;
    [now apply Uniform_Insert | intros; apply Uniform_ret].
Qed.

Lemma Uniform_CreateOr CI a b : Uniform (CIId CI) (CreateOr CI a b).
Proof.
  apply Uniform_bind;
    [now apply Uniform_Insert | intros; apply Uniform_ret].
Qed.

Lemma Uniform_shrinkWrapCI CI c : Uniform (CIId CI) (shrinkWrapCI CI c).
Proof.
  destruct c as [c|]; [|apply Uniform_fatal].
  intros s t Hs Ht.
  destruct (hasCall_locate _ _ Hs) as (Ls & HLs).
  destruct (hasCall_locate _ _ Ht) as (Lt & HLt).
  rewrite (shrinkWrapCI_Located CI c s Ls HLs).
  rewrite (shrinkWrapCI_Located CI c t Lt HLt).
  unfold Agree. split; [reflexivity|].
  rewrite (Keeps_guarded CI s Ls c (setBlocks (guarded Ls CI c) s) HLs eq_refl).
  rewrite (Keeps_guarded CI t Lt c (setBlocks (guarded Lt CI c) t) HLt eq_refl).
  auto.
Qed.

(** Prove that the outcome of a computation built from the steps above
    depends on the state only through the presence of the call. *)
Ltac uniform :=
  repeat first
    [ apply Uniform_ret
    | apply Uniform_fatal
    | apply Uniform_incOneCond
    | apply Uniform_incTwoCond
    | apply Uniform_getArgOperand
    | apply Uniform_getOperand
    | apply Uniform_getFPExtend
    | apply Uniform_CreateFCmp
    | apply Uniform_CreateOr
    | apply Uniform_convertToDouble
    | apply Uniform_shrinkWrapCI
    | apply Uniform_bind; [|intros]
    | progress cbv zeta
    | match goal with
      | |- Uniform _ (if ?b then _ else _) => destruct b
      | |- Uniform _ (match ?x with _ => _ end) => destruct x
      end ].

Lemma Uniform_createCond_ CI Arg p v :
  Uniform (CIId CI) (createCond_ CI Arg p v).
Proof. unfold createCond_. uniform. Qed.

Lemma Uniform_createCond CI p v : Uniform (CIId CI) (createCond CI p v).
Proof.
  unfold createCond.
  apply Uniform_bind; [apply Uniform_getArgOperand | intros].
  apply Uniform_createCond_.
Qed.

Lemma Uniform_createOrCond CI p v p2 v2 :
  Uniform (CIId CI) (createOrCond CI p v p2 v2).
Proof.
  unfold createOrCond.
  apply Uniform_bind; [apply Uniform_getArgOperand | intros].
  apply Uniform_bind; [apply Uniform_createCond_ | intros].
  apply Uniform_bind; [apply Uniform_createCond_ | intros].
  apply Uniform_CreateOr.
Qed.

Lemma Uniform_wrap CI (m : M Cond) :
  Uniform (CIId CI) m ->
  Uniform (CIId CI) (c <- m ;; shrinkWrapCI CI (Some c) ;; ret true).
Proof.
  intros Hm. apply Uniform_bind; [exact Hm | intros].
  apply Uniform_bind; [apply Uniform_shrinkWrapCI | intros; apply Uniform_ret].
Qed.

Lemma Uniform_domain CI Func :
  Uniform (CIId CI) (performCallDomainErrorOnly CI Func).
Proof.
  unfold performCallDomainErrorOnly.
  destruct Func; try apply Uniform_ret;
    (apply Uniform_bind;
     [first [apply Uniform_incOneCond | apply Uniform_incTwoCond] | intros]);
    apply Uniform_wrap;
    first [apply Uniform_createOrCond | apply Uniform_createCond].
Qed.

Lemma Uniform_generateOneRangeCond CI Func :
  Uniform (CIId CI) (generateOneRangeCond CI Func).
Proof.
  unfold generateOneRangeCond.
  apply Uniform_bind; [destruct Func; uniform | intros].
  apply Uniform_bind; [apply Uniform_incOneCond | intros].
  apply Uniform_bind; [apply Uniform_createCond | intros; apply Uniform_ret].
Qed.

Lemma Uniform_generateTwoRangeCond CI Func :
  Uniform (CIId CI) (generateTwoRangeCond CI Func).
Proof.
  unfold generateTwoRangeCond.
  apply Uniform_bind; [destruct Func; uniform | intros]. cbv zeta.
  apply Uniform_bind; [apply Uniform_incTwoCond | intros].
  apply Uniform_bind; [apply Uniform_createOrCond | intros; apply Uniform_ret].
Qed.

Lemma Uniform_range CI Func :
  Uniform (CIId CI) (performCallRangeErrorOnly CI Func).
Proof.
  unfold performCallRangeErrorOnly.
  destruct Func; try apply Uniform_ret;
    (apply Uniform_bind;
     [ first [apply Uniform_generateTwoRangeCond
             | apply Uniform_generateOneRangeCond]
     | intros ]);
    (apply Uniform_bind; [apply Uniform_shrinkWrapCI | intros; apply Uniform_ret]).
Qed.

Lemma Uniform_generateCondForPow CI Func :
  Uniform (CIId CI) (generateCondForPow CI Func).
Proof. unfold generateCondForPow. destruct Func; uniform. Qed.

Lemma Uniform_errors Opts CI Func :
  Uniform (CIId CI) (performCallErrors Opts CI Func).
Proof.
  unfold performCallErrors.
  destruct Func; try apply Uniform_ret;
    match goal with
    | |- Uniform _ (if ?t then _ else _) =>
        destruct t; [apply Uniform_ret|]
    end;
    first
      [ apply Uniform_bind;
        [ first [apply Uniform_incOneCond | apply Uniform_incTwoCond] | intros ];
        apply Uniform_wrap;
        first [apply Uniform_createOrCond | apply Uniform_createCond]
      | apply Uniform_bind; [apply Uniform_generateCondForPow | intros [c|]];
        [ apply Uniform_bind;
          [apply Uniform_shrinkWrapCI | intros; apply Uniform_ret]
        | apply Uniform_ret ] ].
Qed.

Lemma Uniform_perform1 Opts TLI CI : Uniform (CIId CI) (perform1 Opts TLI CI).
Proof.
  unfold perform1.
  destruct (getCalledFunction CI); [|apply Uniform_fatal].
  destruct (getLibFunc TLI f); [|apply Uniform_fatal].
  destruct (negb _); [apply Uniform_fatal|].
  apply Uniform_bind.
  - destruct (LibCallsShrinkWrapDoDomainError Opts);
      [apply Uniform_domain | apply Uniform_ret].
  - intros [|]; [apply Uniform_ret|].
    apply Uniform_bind.
    + destruct (LibCallsShrinkWrapDoRangeError Opts);
        [apply Uniform_range | apply Uniform_ret].
    + intros [|]; [apply Uniform_ret | apply Uniform_errors].
Qed.

(** X10.  The decision on a call does not depend on the state.  Whether a
    call is rewritten or left alone, and which check stops the pass if one
    does, is the same in any two states whose functions hold the call: it
    depends on the call, the toggles and the library information only, not
    on the rest of the function, the work list, the flag or the
    statistics.  In particular the order in which the candidates are
    processed does not change what happens to each of them. *)
Theorem decision_is_independent_of_state Opts TLI CI s t :
  hasCall (CIId CI) (Blocks (Fn s)) = true ->
  hasCall (CIId CI) (Blocks (Fn t)) = true ->
  match perform1 Opts TLI CI s, perform1 Opts TLI CI t with
  | Ok (b1, _), Ok (b2, _) => b1 = b2
  | Fatal c1, Fatal c2 => c1 = c2
  | _, _ => False
  end.
Proof.
  intros Hs Ht. assert (H := Uniform_perform1 Opts TLI CI s t Hs Ht).
  unfold Agree in H.
  destruct (perform1 Opts TLI CI s) as [[b1 s1]|c1],
           (perform1 Opts TLI CI t) as [[b2 t1]|c2]; try contradiction.
  - exact (proj1 H).
  - exact H.
Qed.

Lemma decision_is_independent_of_state_witness :
  let CI := sample_call "sqrt" [sample_arg] in
  let s := sample_state CI in
  let t := mkState (mkFunction false
                      [mkBB 4 "a" [IOther 9] (Br 5);
                       mkBB 5 "b" [ICall CI] (OtherTerm 1)])
                   [CI] true 3 4 in
  match perform1 allEnabled sample_TLI CI s, perform1 allEnabled sample_TLI CI t with
  | Ok (b1, _), Ok (b2, _) => b1 = b2
  | Fatal c1, Fatal c2 => c1 = c2
  | _, _ => False
  end.
Proof.
  intros CI s t.
  exact (decision_is_independent_of_state allEnabled sample_TLI CI s t
           eq_refl eq_refl).
Defined.

(* ================================================================== *)
(** ** Running the pass again *)

Lemma checkCandidate_reads_argument TLI CI s u s' :
  checkCandidate TLI CI s = Ok (u, s') -> hasFirstArg TLI CI = true.
Proof.
  intros H. destruct (hasFirstArg TLI CI) eqn:E; [reflexivity|].
  exfalso. unfold hasFirstArg in E. apply orb_false_iff in E as [E1 E2].
  apply negb_false_iff in E1.
  unfold checkCandidate, getArgOperand in H. unfold isDeadLibCall in E1.
  destruct (isNoBuiltin CI); [discriminate E1|].
  destruct (use_empty CI); [|discriminate E1].
  destruct (getCalledFunction CI) as [Callee|]; [|discriminate E1].
  destruct (getLibFunc TLI Callee) as [Func|]; [|discriminate E1].
  destruct (has TLI Func); [|discriminate E1].
  destruct (ArgOperands CI); [discriminate H | discriminate E2].
Qed.

Lemma forEach_visitInstr_reads TLI l s s' :
  forEach (visitInstr TLI) l s = Ok (tt, s') ->
  forallb (hasFirstArg TLI) (callsIn l) = true.
Proof.
  revert s. induction l as [|i r IH]; intros s H; [reflexivity|].
  cbn [forEach] in H. apply bind_Ok in H. destruct H as ([] & t & Hi & H).
  specialize (IH _ H).
  destruct i as [CI| | |]; cbn [callsIn flat_map app]; try exact IH.
  fold (callsIn r). cbn [forallb]. rewrite IH, andb_true_r.
  exact (checkCandidate_reads_argument _ _ _ _ _ Hi).
Qed.

Lemma visit_reads TLI F s s' :
  visit TLI F s = Ok (tt, s') ->
  forallb (hasFirstArg TLI) (callsOf (Blocks F)) = true.
Proof.
  unfold visit. generalize (Blocks F) as bs. clear F.
  intros bs. revert s. induction bs as [|b r IH]; intros s H; [reflexivity|].
  cbn [forEach] in H. apply bind_Ok in H. destruct H as ([] & t & Hb & H).
  cbn [callsOf flat_map]. fold (callsOf r).
  rewrite forallb_app, (IH _ H), (forEach_visitInstr_reads _ _ _ _ Hb).
  reflexivity.
Qed.

Lemma loop_repeats Opts TLI WL s s' t :
  forEach (performStep Opts TLI) WL s = Ok (tt, s') ->
  hasCalls WL s -> hasCalls WL t ->
  exists t',
    forEach (performStep Opts TLI) WL t = Ok (tt, t')
    /\ (List.length (Blocks (Fn t')) + List.length (Blocks (Fn s))
        = List.length (Blocks (Fn s')) + List.length (Blocks (Fn t)))%nat
    /\ (Changed t = Changed s -> Changed t' = Changed s').
Proof.
  revert s t. induction WL as [|CI WL IH]; intros s t H Hs Ht.
  - injection H as <-. exists t. split; [reflexivity|]. split; [lia | auto].
  - cbn [forEach] in H. apply bind_Ok in H. destruct H as ([] & s2 & Hst & H).
    unfold performStep in Hst. apply bind_Ok in Hst.
    destruct Hst as (b & s1 & Hp & Hst).
    assert (HU := Uniform_perform1 Opts TLI CI s t
                    (Hs CI (or_introl eq_refl)) (Ht CI (or_introl eq_refl))).
    rewrite Hp in HU. unfold Agree in HU.
    destruct (perform1 Opts TLI CI t) as [[b' t1]|c] eqn:Hq; [|contradiction].
    destruct HU as (<- & _ & _).
    destruct (Preserves_perform1 Opts TLI CI s b s1 Hp) as (_ & Cs & _ & Ks).
    destruct (Preserves_perform1 Opts TLI CI t b t1 Hq) as (_ & Ct & _ & Kt).
    destruct (step_counts _ _ _ _ _ _ Hp) as (_ & Ws).
    destruct (step_counts _ _ _ _ _ _ Hq) as (_ & Wt).
    set (t2 := if b then setChanged t1 else t1).
    assert (Hs2 : s2 = if b then setChanged s1 else s1)
      by (destruct b; now injection Hst).
    destruct (IH s2 t2 H) as (t' & Ht' & W & C).
    { intros CI' Hin. subst s2.
      destruct b; cbn [Fn setChanged]; rewrite Ks; apply Hs; now right. }
    { intros CI' Hin. subst t2.
      destruct b; cbn [Fn setChanged]; rewrite Kt; apply Ht; now right. }
    exists t'. split; [|split].
    + cbn [forEach]. unfold bind, performStep, bind. rewrite Hq.
      subst t2. destruct b; exact Ht'.
    + assert (Fn s2 = Fn s1) by (subst s2; now destruct b).
      assert (Fn t2 = Fn t1) by (subst t2; now destruct b).
      replace (Fn s2) with (Fn s1) in W. replace (Fn t2) with (Fn t1) in W.
      lia.
    + intros HC. apply C. subst s2 t2.
      destruct b; cbn [Changed setChanged]; congruence.
Qed.

(** X11.  Running the pass again.  On a function whose calls have distinct
    identities, when the pass returns, a second run on the function it
    produced returns as well, with the same answer and after rewriting as
    many calls as the first: the pass is not idempotent, every call it
    wrapped is wrapped once more.  If the first run rewrote [k] calls, each
    run adds [2 * k] blocks to the function it is given, and moves the sum
    of the two statistics, counters of 32 bits that wrap around, by [k]
    modulo 2^32. *)
Theorem second_run_repeats_the_first Opts TLI F n1 n2 b s' m1 m2 :
  NoDup (map CIId (callsOf (Blocks F))) ->
  runImpl Opts TLI F n1 n2 = Ok (b, s') ->
  exists s'',
    runImpl Opts TLI (Fn s') m1 m2 = Ok (b, s'')
    /\ (List.length (Blocks (Fn s'')) + List.length (Blocks F)
        = 2 * List.length (Blocks (Fn s')))%nat
    /\ exists k : nat,
         (k <= List.length (candidates TLI F))%nat
         /\ (b = true <-> (0 < k)%nat)
         /\ List.length (Blocks (Fn s'))
            = (List.length (Blocks F) + 2 * k)%nat
         /\ List.length (Blocks (Fn s''))
            = (List.length (Blocks (Fn s')) + 2 * k)%nat
         /\ ((NumWrappedOneCond s' + NumWrappedTwoCond s') mod 2 ^ 32
             = (n1 + n2 + N.of_nat k) mod 2 ^ 32)%N
         /\ ((NumWrappedOneCond s'' + NumWrappedTwoCond s'') mod 2 ^ 32
             = (m1 + m2 + N.of_nat k) mod 2 ^ 32)%N.
Proof.
  intros HN H.
  destruct (runImpl_kept _ _ _ _ _ _ _ HN H) as (HK & HO).
  assert (HC : callsOf (Blocks (Fn s')) = callsOf (Blocks F))
    by now rewrite !callsOf_kept, HK.
  assert (Hcand : candidates TLI (Fn s') = candidates TLI F)
    by (unfold candidates; now rewrite HC).
  assert (Hgoal : exists s'',
            runImpl Opts TLI (Fn s') m1 m2 = Ok (b, s'')
            /\ (List.length (Blocks (Fn s'')) + List.length (Blocks F)
                = 2 * List.length (Blocks (Fn s')))%nat).
  { clear HK. unfold runImpl in *. rewrite HO. destruct (OptimizeForSize F).
    - injection H as <- <-. eexists. split; [reflexivity|].
      cbn [LibCallsShrinkWrap_ Fn]. lia.
    - apply bind_Ok in H. destruct H as ([] & s0 & Hv & H).
      assert (HR := visit_reads _ _ _ _ Hv).
      apply visit_Ok in Hv. subst s0.
      apply bind_Ok in H. destruct H as ([] & s1 & Hp & H).
      rewrite perform_performStep in Hp.
      apply bind_Ok in Hp. destruct Hp as (WL & s0 & Hg & Hp).
      injection Hg as <- <-. injection H as <- <-.
      change (WorkList (pushAll (candidates TLI F) (LibCallsShrinkWrap_ F n1 n2)))
        with (candidates TLI F) in Hp.
      set (t0 := pushAll (candidates TLI F) (LibCallsShrinkWrap_ (Fn s1) m1 m2)).
      destruct (loop_repeats Opts TLI _ _ _ t0 Hp) as (t' & Ht' & W & C).
      { intros CI Hin. apply In_callsOf_hasCall.
        unfold candidates in Hin. apply filter_In in Hin. exact (proj1 Hin). }
      { intros CI Hin. apply In_callsOf_hasCall.
        unfold candidates in Hin. apply filter_In in Hin.
        subst t0. cbn [pushAll Fn LibCallsShrinkWrap_]. rewrite HC.
        exact (proj1 Hin). }
      exists t'. split.
      + unfold bind at 1. rewrite visit_spec by (now rewrite HC).
        rewrite Hcand. fold t0. rewrite perform_performStep.
        unfold bind at 1. unfold bind at 1, gets at 1.
        change (WorkList t0) with (candidates TLI F).
        rewrite Ht'. unfold isChanged, gets. now rewrite (C eq_refl).
      + subst t0. cbn [pushAll LibCallsShrinkWrap_ Fn] in W. lia. }
  destruct Hgoal as (s'' & H2 & W). exists s''.
  split; [exact H2|]. split; [exact W|].
  destruct (runImpl_counts _ _ _ _ _ _ _ H) as (k & Hk & W1 & L1 & C1).
  destruct (runImpl_counts _ _ _ _ _ _ _ H2) as (k2 & _ & W2 & L2 & _).
  assert (k2 = k) by lia. subst k2.
  exists k. auto 10.
Qed.

Lemma second_run_repeats_the_first_witness :
  let CI := sample_call "sqrt" [sample_arg] in
  let F := mkFunction false [sample_block CI] in
  let s' := stateOf (runImpl allEnabled sample_TLI F 4294967295 0)
                    (LibCallsShrinkWrap_ F 4294967295 0) in
  exists s'',
    runImpl allEnabled sample_TLI (Fn s') 0 0 = Ok (true, s'')
    /\ (List.length (Blocks (Fn s'')) + List.length (Blocks F)
        = 2 * List.length (Blocks (Fn s')))%nat
    /\ exists k : nat,
         (k <= List.length (candidates sample_TLI F))%nat
         /\ (true = true <-> (0 < k)%nat)
         /\ List.length (Blocks (Fn s'))
            = (List.length (Blocks F) + 2 * k)%nat
         /\ List.length (Blocks (Fn s''))
            = (List.length (Blocks (Fn s')) + 2 * k)%nat
         /\ ((NumWrappedOneCond s' + NumWrappedTwoCond s') mod 2 ^ 32
             = (4294967295 + 0 + N.of_nat k) mod 2 ^ 32)%N
         /\ ((NumWrappedOneCond s'' + NumWrappedTwoCond s'') mod 2 ^ 32
             = (0 + 0 + N.of_nat k) mod 2 ^ 32)%N.
Proof.
  intros CI F s'.
  apply (second_run_repeats_the_first allEnabled sample_TLI F 4294967295 0
           true s' 0 0);
    [|reflexivity].
  cbn. constructor; [intros []|constructor].
Defined.

(* ================================================================== *)
(** ** The selection of candidates *)

(** X12.  The selection of a candidate.  A call that is marked no-builtin,
    or whose result is used, or whose callee is unknown, unrecognized or
    unavailable is skipped without its arguments being read, even when it
    has none.  A call that has an argument is appended to the work list
    exactly when the four conditions hold, and skipped otherwise.  And
    whenever the check returns, it has appended the call if it is a
    candidate and has changed nothing if it is not. *)
Theorem checkCandidate_selects TLI CI s :
  (isDeadLibCall TLI CI = false -> checkCandidate TLI CI s = Ok (tt, s))
  /\ (forall Arg rest,
        ArgOperands CI = Arg :: rest ->
        checkCandidate TLI CI s
        = Ok (tt, if isCandidate TLI CI then pushWorkList CI s else s))
  /\ (forall u s',
        checkCandidate TLI CI s = Ok (u, s') ->
        s' = if isCandidate TLI CI then pushWorkList CI s else s).
Proof.
  split; [apply checkCandidate_skips|].
  split; [intros Arg rest; apply checkCandidate_with_argument|].
  intros [] s' H. apply checkCandidate_Ok in H. subst s'.
  cbn [filter]. destruct (isCandidate TLI CI); [reflexivity|].
  apply pushAll_nil.
Qed.

Lemma checkCandidate_selects_witness :
  let CI := sample_call "sqrt" [sample_arg] in
  let used := mkCall 2 false 1 (Some "sqrt"%string) [] in
  checkCandidate sample_TLI used (sample_state CI) = Ok (tt, sample_state CI)
  /\ checkCandidate sample_TLI CI (sample_state CI)
     = Ok (tt, pushWorkList CI (sample_state CI)).
Proof.
  intros CI used. split.
  - exact (proj1 (checkCandidate_selects sample_TLI used (sample_state CI))
             eq_refl).
  - exact (proj1 (proj2 (checkCandidate_selects sample_TLI CI (sample_state CI)))
             sample_arg [] eq_refl).
Defined.

Lemma checkCandidate_Fatal TLI CI s c :
  checkCandidate TLI CI s = Fatal c ->
  c = OperandOutOfBounds /\ hasFirstArg TLI CI = false.
Proof.
  intros H. destruct (hasFirstArg TLI CI) eqn:E.
  - rewrite (checkCandidate_hasFirstArg TLI CI s E) in H. discriminate H.
  - split; [|reflexivity].
    unfold checkCandidate, getArgOperand in H.
    destruct (isNoBuiltin CI); [discriminate H|].
    destruct (negb (use_empty CI)); [discriminate H|].
    destruct (getCalledFunction CI) as [Callee|]; [|discriminate H].
    destruct (getLibFunc TLI Callee) as [Func|]; [|discriminate H].
    destruct (negb (has TLI Func)); [discriminate H|].
    destruct (nth_error (ArgOperands CI) 0) as [Arg|].
    + unfold bind, ret in H.
      destruct (negb _); discriminate H.
    + now injection H as <-.
Qed.

Lemma forEach_Fatal {A} (f : A -> M unit) l s c :
  forEach f l s = Fatal c -> exists x s1, In x l /\ f x s1 = Fatal c.
Proof.
  revert s. induction l as [|x r IH]; intros s H; [discriminate H|].
  cbn [forEach] in H. unfold bind in H.
  destruct (f x s) as [[[] s1]|d] eqn:E.
  - destruct (IH _ H) as (y & s2 & Hy & Hf). exists y, s2. split; [now right | exact Hf].
  - injection H as <-. exists x, s. split; [now left | exact E].
Qed.

Lemma visit_Fatal TLI F s c :
  visit TLI F s = Fatal c -> c = OperandOutOfBounds.
Proof.
  unfold visit. intros H.
  destruct (forEach_Fatal _ _ _ _ H) as (BB & s1 & _ & H1).
  destruct (forEach_Fatal _ _ _ _ H1) as (i & s2 & _ & H2).
  destruct i as [CI| | |]; try discriminate H2.
  exact (proj1 (checkCandidate_Fatal _ _ _ _ H2)).
Qed.

(** X13.  The scan.  Whenever the scan of a function returns, the work list
    is the old one followed by the candidates of the function in
    instruction order, block after block, and nothing else has changed:
    the scan does not touch the function, the flag or the statistics.  It
    returns exactly when every call that passes the first three conditions
    has an argument, and when it does not return it has failed the range
    check of the read of the first argument. *)
Theorem scan_collects_candidates TLI F s :
  (forall s',
     visit TLI F s = Ok (tt, s') ->
     WorkList s' = WorkList s ++ candidates TLI F
     /\ Fn s' = Fn s /\ Changed s' = Changed s
     /\ NumWrappedOneCond s' = NumWrappedOneCond s
     /\ NumWrappedTwoCond s' = NumWrappedTwoCond s)
  /\ ((exists s', visit TLI F s = Ok (tt, s'))
      <-> forallb (hasFirstArg TLI) (callsOf (Blocks F)) = true)
  /\ (forall c, visit TLI F s = Fatal c -> c = OperandOutOfBounds).
Proof.
  split; [|split].
  - intros s' H. apply visit_Ok in H. subst s'. repeat split.
  - split.
    + intros (s' & H). exact (visit_reads _ _ _ _ H).
    + intros H. eexists. exact (visit_spec TLI F s H).
  - intros c. apply visit_Fatal.
Qed.

Lemma scan_collects_candidates_witness :
  let CI := sample_call "sqrt" [sample_arg] in
  let F := mkFunction false [sample_block CI] in
  let s := LibCallsShrinkWrap_ F 0 0 in
  let s' := stateOf (visit sample_TLI F s) s in
  WorkList s' = WorkList s ++ candidates sample_TLI F
  /\ Fn s' = Fn s /\ Changed s' = Changed s
  /\ NumWrappedOneCond s' = NumWrappedOneCond s
  /\ NumWrappedTwoCond s' = NumWrappedTwoCond s.
Proof.
  intros CI F s s'.
  exact (proj1 (scan_collects_candidates sample_TLI F s) s' eq_refl).
Defined.

(* ================================================================== *)
(** ** The checks a run can fail *)

Lemma isCandidate_resolved TLI CI :
  isCandidate TLI CI = true ->
  exists Callee Func,
    getCalledFunction CI = Some Callee /\ getLibFunc TLI Callee = Some Func.
Proof.
  unfold isCandidate, isDeadLibCall. intros H.
  apply andb_true_iff in H as [H _].
  apply andb_true_iff in H as [_ H].
  destruct (getCalledFunction CI) as [Callee|]; [|discriminate H].
  destruct (getLibFunc TLI Callee) as [Func|] eqn:E; [|discriminate H].
  exists Callee, Func. split; [reflexivity | exact E].
Qed.

Lemma performStep_Fatal Opts TLI CI s c :
  performStep Opts TLI CI s = Fatal c -> perform1 Opts TLI CI s = Fatal c.
Proof.
  unfold performStep, bind.
  destruct (perform1 Opts TLI CI s) as [[[] s1]|d]; try discriminate.
  now intros [= <-].
Qed.

(** X14.  The checks a run can fail.  Of the checks written in the pass
    itself, a run on a function can fail one only: the assertion on the
    function identity, and only for a candidate whose callee resolves to
    the identity of value zero.  The assertion on the callee, the
    unreachable defaults of the two range generators and the assertions
    that a predicate was built are never failed; any other failure is a
    check of the IR interface. *)
Theorem runImpl_checks Opts TLI F n1 n2 c :
  runImpl Opts TLI F n1 n2 = Fatal c ->
  interfaceCheck c
  \/ (c = EmptyFunc
      /\ exists CI Callee,
           In CI (candidates TLI F)
           /\ getCalledFunction CI = Some Callee
           /\ getLibFunc TLI Callee = Some (LibFunc.other 0)).
Proof.
  unfold runImpl. destruct (OptimizeForSize F); [discriminate|].
  intros H. unfold bind at 1 in H.
  destruct (visit TLI F (LibCallsShrinkWrap_ F n1 n2)) as [[[] s0]|d] eqn:Hv.
  - apply visit_Ok in Hv. subst s0.
    unfold bind at 1 in H. rewrite perform_performStep in H.
    unfold bind at 1, gets at 1 in H.
    change (WorkList (pushAll (candidates TLI F) (LibCallsShrinkWrap_ F n1 n2)))
      with (candidates TLI F) in H.
    destruct (forEach (performStep Opts TLI) (candidates TLI F) _)
      as [[[] s1]|d] eqn:Hl; [discriminate H|].
    injection H as ->.
    destruct (forEach_Fatal _ _ _ _ Hl) as (CI & s1 & Hin & Hf).
    apply performStep_Fatal in Hf.
    assert (Hc : isCandidate TLI CI = true).
    { unfold candidates in Hin. apply filter_In in Hin. exact (proj2 Hin). }
    destruct (isCandidate_resolved _ _ Hc) as (Callee & Func & HC & HF).
    destruct (perform1_checks _ _ _ _ _ Hf)
      as [Hi | [(_ & Hn) | (-> & Callee' & HC' & [Hn | Hz])]].
    + now left.
    + congruence.
    + rewrite HC in HC'. injection HC' as <-. congruence.
    + right. split; [reflexivity|]. exists CI, Callee'. auto.
  - injection H as ->. left. now rewrite (visit_Fatal _ _ _ _ Hv).
Qed.

Lemma runImpl_checks_witness :
  let CI := sample_call "first" [sample_arg] in
  let F := mkFunction false [sample_block CI] in
  interfaceCheck EmptyFunc
  \/ (EmptyFunc = EmptyFunc
      /\ exists CI Callee,
           In CI (candidates sample_TLI F)
           /\ getCalledFunction CI = Some Callee
           /\ getLibFunc sample_TLI Callee = Some (LibFunc.other 0)).
Proof.
  intros CI F.
  exact (runImpl_checks allEnabled sample_TLI F 0 0 EmptyFunc eq_refl).
Defined.

Lemma loop_decides Opts TLI WL s s' s0 :
  forEach (performStep Opts TLI) WL s = Ok (tt, s') ->
  hasCalls WL s -> hasCalls WL s0 ->
  List.length (Blocks (Fn s'))
  = (List.length (Blocks (Fn s))
     + 2 * List.length (filter (decides Opts TLI s0) WL))%nat.
Proof.
  revert s. induction WL as [|CI WL IH]; intros s H Hs H0.
  - injection H as <-. cbn. lia.
  - cbn [forEach] in H. apply bind_Ok in H. destruct H as ([] & s2 & Hst & H).
    unfold performStep in Hst. apply bind_Ok in Hst.
    destruct Hst as (b & s1 & Hp & Hst).
    assert (HU := Uniform_perform1 Opts TLI CI s s0
                    (Hs CI (or_introl eq_refl)) (H0 CI (or_introl eq_refl))).
    rewrite Hp in HU. unfold Agree in HU.
    assert (Hd : decides Opts TLI s0 CI = b).
    { unfold decides.
      destruct (perform1 Opts TLI CI s0) as [[b' t1]|c]; [|contradiction].
      destruct HU as (<- & _). now destruct b. }
    destruct (Preserves_perform1 Opts TLI CI s b s1 Hp) as (_ & _ & _ & Ks).
    destruct (step_counts _ _ _ _ _ _ Hp) as (_ & Ws).
    assert (Hs2 : s2 = if b then setChanged s1 else s1)
      by (destruct b; now injection Hst).
    rewrite (IH s2 H).
    + cbn [filter]. rewrite Hd.
      assert (HF : Fn s2 = Fn s1) by (subst s2; now destruct b).
      rewrite HF. destruct b; cbn [List.length]; lia.
    + intros CI' Hin. subst s2.
      destruct b; cbn [Fn setChanged]; rewrite Ks; apply Hs; now right.
    + intros CI' Hin. apply H0. now right.
Qed.

(** X15.  The calls a run rewrites.  Whenever the pass returns on a
    function, it has rewritten as many calls as there are candidates that
    would be rewritten if each were processed alone on the original
    function, whatever their order and whatever was rewritten before them:
    the function has two more blocks for each such candidate, the pass
    answers [true] if and only if there is one, and the sum of the two
    statistics, counters of 32 bits that wrap around, has moved by their
    number modulo 2^32. *)
Theorem run_rewrites_what_is_decided_alone Opts TLI F n1 n2 b s' :
  OptimizeForSize F = false ->
  runImpl Opts TLI F n1 n2 = Ok (b, s') ->
  let alone := filter (decides Opts TLI (LibCallsShrinkWrap_ F n1 n2))
                 (candidates TLI F) in
  ((NumWrappedOneCond s' + NumWrappedTwoCond s') mod 2 ^ 32
   = (n1 + n2 + N.of_nat (List.length alone)) mod 2 ^ 32)%N
  /\ List.length (Blocks (Fn s'))
     = (List.length (Blocks F) + 2 * List.length alone)%nat
  /\ (b = true <-> alone <> []).
Proof.
  intros HO H alone.
  destruct (runImpl_counts _ _ _ _ _ _ _ H) as (k & _ & W & L & C).
  unfold runImpl in H. rewrite HO in H.
  apply bind_Ok in H. destruct H as ([] & s0 & Hv & H).
  apply visit_Ok in Hv. subst s0.
  apply bind_Ok in H. destruct H as ([] & s1 & Hp & H).
  rewrite perform_performStep in Hp.
  apply bind_Ok in Hp. destruct Hp as (WL & s0 & Hg & Hp).
  injection Hg as <- <-. injection H as <- <-.
  change (WorkList (pushAll (candidates TLI F) (LibCallsShrinkWrap_ F n1 n2)))
    with (candidates TLI F) in Hp.
  assert (HW := loop_decides Opts TLI _ _ _ (LibCallsShrinkWrap_ F n1 n2) Hp).
  assert (Hhas : forall CI, In CI (candidates TLI F) ->
                   hasCall (CIId CI) (Blocks F) = true).
  { intros CI Hin. apply In_callsOf_hasCall.
    unfold candidates in Hin. apply filter_In in Hin. exact (proj1 Hin). }
  specialize (HW Hhas Hhas). fold alone in HW.
  cbn [pushAll LibCallsShrinkWrap_ Fn] in HW.
  assert (Hk : k = List.length alone) by lia. subst k.
  split; [exact W|]. split; [exact L|].
  rewrite C. clearbody alone. destruct alone as [|a l]; cbn [List.length].
  - split; [lia | congruence].
  - split; [discriminate | lia].
Qed.

Lemma run_rewrites_what_is_decided_alone_witness :
  let CI := sample_call "sqrt" [sample_arg] in
  let F := mkFunction false [sample_block CI] in
  let s' := stateOf (runImpl allEnabled sample_TLI F 4294967295 0)
                    (LibCallsShrinkWrap_ F 4294967295 0) in
  let alone := filter (decides allEnabled sample_TLI
                         (LibCallsShrinkWrap_ F 4294967295 0))
                 (candidates sample_TLI F) in
  ((NumWrappedOneCond s' + NumWrappedTwoCond s') mod 2 ^ 32
   = (4294967295 + 0 + N.of_nat (List.length alone)) mod 2 ^ 32)%N
  /\ List.length (Blocks (Fn s'))
     = (List.length (Blocks F) + 2 * List.length alone)%nat
  /\ (true = true <-> alone <> []).
Proof.
  intros CI F s'.
  exact (run_rewrites_what_is_decided_alone allEnabled sample_TLI F
           4294967295 0 true s' eq_refl eq_refl).
Defined.

(* ================================================================== *)
(** ** The categories and their toggles *)

(** X16.  The categories are disjoint.  No function is handled by two
    categories: for every function identity, at least two of the three
    categories decline at once, without reading the call or touching the
    state, so at most one of them ever builds a predicate. *)
Theorem categories_are_disjoint Opts CI Func :
  let d := performCallDomainErrorOnly CI Func = ret false in
  let r := performCallRangeErrorOnly CI Func = ret false in
  let e := performCallErrors Opts CI Func = ret false in
  (d /\ r) \/ (d /\ e) \/ (r /\ e).
Proof.
  destruct Func; cbv zeta;
    first [ left; split; reflexivity
          | right; left; split; reflexivity
          | right; right; split; reflexivity ].
Qed.

Lemma range_declines CI Func :
  rangeTable Func = None -> performCallRangeErrorOnly CI Func = ret false.
Proof. destruct Func; intros H; first [reflexivity | discriminate H]. Qed.

Lemma domain_declines CI Func :
  domainFamily Func = None -> performCallDomainErrorOnly CI Func = ret false.
Proof. destruct Func; intros H; first [reflexivity | discriminate H]. Qed.

Lemma errors_declines Opts CI Func :
  combinedFamily Func = None -> isPowFamily Func = false ->
  performCallErrors Opts CI Func = ret false.
Proof.
  destruct Func; intros H1 H2;
    first [reflexivity | discriminate H1 | discriminate H2].
Qed.

Lemma errors_ignores_range d r p x CI Func :
  isPowFamily Func = false ->
  performCallErrors (mkOptions d r p) CI Func
  = performCallErrors (mkOptions d x p) CI Func.
Proof. destruct Func; intros H; first [reflexivity | discriminate H]. Qed.

(** X17.  Each toggle matters to its categories only.  For a call whose
    callee resolves to [Func], processing the call gives the same outcome,
    result and state or failure, whatever the value of the range toggle
    when [Func] is neither in the range table nor a power function;
    whatever the value of the pole toggle when [Func] is neither in the
    combined table nor a power function; and whatever the value of the
    domain toggle when [Func] is in the range table. *)
Theorem toggles_matter_to_their_categories TLI CI d r p x s :
  (forall Callee Func,
     getCalledFunction CI = Some Callee -> getLibFunc TLI Callee = Some Func ->
     rangeTable Func = None -> isPowFamily Func = false ->
     perform1 (mkOptions d r p) TLI CI s = perform1 (mkOptions d x p) TLI CI s)
  /\ (forall Callee Func,
        getCalledFunction CI = Some Callee -> getLibFunc TLI Callee = Some Func ->
        combinedFamily Func = None -> isPowFamily Func = false ->
        perform1 (mkOptions d r p) TLI CI s = perform1 (mkOptions d r x) TLI CI s)
  /\ (forall Callee Func lo hi,
        getCalledFunction CI = Some Callee -> getLibFunc TLI Callee = Some Func ->
        rangeTable Func = Some (lo, hi) ->
        perform1 (mkOptions d r p) TLI CI s = perform1 (mkOptions x r p) TLI CI s).
Proof.
  split; [|split].
  - intros Callee Func HC HF HR HP. unfold perform1. rewrite HC, HF.
    destruct (negb (LibFunc.to_bool Func)); [reflexivity|].
    cbn [LibCallsShrinkWrapDoDomainError LibCallsShrinkWrapDoRangeError].
    rewrite (range_declines CI Func HR).
    rewrite (errors_ignores_range d r p x CI Func HP).
    destruct r, x; reflexivity.
  - intros Callee Func HC HF HE HP. unfold perform1. rewrite HC, HF.
    destruct (negb (LibFunc.to_bool Func)); [reflexivity|].
    cbn [LibCallsShrinkWrapDoDomainError LibCallsShrinkWrapDoRangeError].
    now rewrite !(errors_declines _ CI Func HE HP).
  - intros Callee Func lo hi HC HF HR. unfold perform1. rewrite HC, HF.
    destruct (negb (LibFunc.to_bool Func)); [reflexivity|].
    cbn [LibCallsShrinkWrapDoDomainError LibCallsShrinkWrapDoRangeError].
    assert (HD : performCallDomainErrorOnly CI Func = ret false)
      by (destruct Func; first [reflexivity | discriminate HR]).
    assert (HE : forall O, performCallErrors O CI Func = ret false)
      by (intros O; destruct Func; first [reflexivity | discriminate HR]).
    rewrite HD, !HE. destruct d, x; reflexivity.
Qed.

Lemma toggles_matter_to_their_categories_witness :
  let CI := sample_call "sqrt" [sample_arg] in
  let CE := sample_call "exp" [sample_arg] in
  perform1 (mkOptions true true true) sample_TLI CI (sample_state CI)
  = perform1 (mkOptions true false true) sample_TLI CI (sample_state CI)
  /\ perform1 (mkOptions true true true) sample_TLI CI (sample_state CI)
     = perform1 (mkOptions true true false) sample_TLI CI (sample_state CI)
  /\ perform1 (mkOptions true true true) sample_TLI CE (sample_state CE)
     = perform1 (mkOptions false true true) sample_TLI CE (sample_state CE).
Proof.
  intros CI CE. split; [|split].
  - exact (proj1 (toggles_matter_to_their_categories sample_TLI CI
                    true true true false (sample_state CI))
             "sqrt"%string LibFunc.sqrt eq_refl eq_refl eq_refl eq_refl).
  - exact (proj1 (proj2 (toggles_matter_to_their_categories sample_TLI CI
                           true true true false (sample_state CI)))
             "sqrt"%string LibFunc.sqrt eq_refl eq_refl eq_refl eq_refl).
  - exact (proj2 (proj2 (toggles_matter_to_their_categories sample_TLI CE
                           true true true false (sample_state CE)))
             "exp"%string LibFunc.exp (Some (-745)%Z) 709%Z
             eq_refl eq_refl eq_refl).
Defined.

(* ================================================================== *)
(** ** The constants *)

Lemma exactZ_literal ty z :
  isSupported ty = true -> In z literals ->
  exactZ (valueIn ty (float_lit z)) = Some z.
Proof.
  intros Hty Hz.
  destruct ty; try discriminate;
    repeat (destruct Hz as [<-|Hz]; [vm_compute; reflexivity|]);
    destruct Hz.
Qed.

(** X18.  The bounds are exact.  For an argument of each of the three
    supported types, the constant that a comparison with one of the
    integral literals of the file is made with, written there as a [float]
    and widened to the type of the argument, is exactly that integer: no
    bound is rounded on the way, so the comparison is with the number that
    is written in the code. *)
Theorem bounds_are_exact CI Arg p z s L rho :
  Located (CIId CI) s L ->
  isSupported (getType Arg) = true ->
  In z literals ->
  exists K s1,
    createCond_ CI Arg p (float_lit z) s = Ok (FCmp p Arg K, s1)
    /\ getType K = getType Arg
    /\ exactZ (evalValue rho K) = Some z.
Proof.
  intros HL HTy Hz.
  exists (constFor (getType Arg) (float_lit z)). eexists.
  split; [exact (createCond__Located CI Arg p (float_lit z) s L HL HTy)|].
  split.
  - unfold constFor. destruct (getType Arg); try discriminate HTy; reflexivity.
  - rewrite evalValue_constFor. now apply exactZ_literal.
Qed.

Lemma bounds_are_exact_witness :
  let CI := sample_call "exp" [sample_arg] in
  exists K s1,
    createCond_ CI sample_arg FCMP_OLT (float_lit (-745)) (sample_state CI)
    = Ok (FCmp FCMP_OLT sample_arg K, s1)
    /\ getType K = getType sample_arg
    /\ exactZ (evalValue (fun _ => S754_nan) K) = Some (-745)%Z.
Proof.
  intros CI.
  apply (bounds_are_exact CI sample_arg FCMP_OLT (-745)%Z (sample_state CI)
           (sample_loc CI) (fun _ => S754_nan)).
  - reflexivity.
  - reflexivity.
  - cbv [literals In]. tauto.
Defined.

Lemma notAboveZeroOrInfinite_out B :
  notAboveZeroOrInfinite B = true -> baseOutOfRange B = true.
Proof.
  unfold baseOutOfRange.
  assert (E1 : fp_of_Z DoubleTy 1 = S754_finite false 4503599627370496 (-52))
    by (vm_compute; reflexivity).
  assert (E2 : fp_of_Z DoubleTy 255 = S754_finite false 8972014882652160 (-45))
    by (vm_compute; reflexivity).
  rewrite E1, E2.
  destruct B as [sg|sg| |sg m e]; cbn [notAboveZeroOrInfinite];
    try discriminate; try (destruct sg; reflexivity).
  intros ->. reflexivity.
Qed.

(** X19.  Bases that are never guarded.  A call of [pow] whose base is a
    double constant that is zero of either sign, negative, or infinite of
    either sign is declined: no predicate is built, the state is
    untouched, and the combined category answers [false] whatever the
    toggles. *)
Theorem pow_declines_nonpositive_or_infinite_base Opts CI B Exp rest s :
  ArgOperands CI = ConstantFP DoubleTy B :: Exp :: rest ->
  notAboveZeroOrInfinite B = true ->
  generateCondForPow CI LibFunc.pow s = Ok (None, s)
  /\ performCallErrors Opts CI LibFunc.pow s = Ok (false, s).
Proof.
  intros HArgs HB. apply notAboveZeroOrInfinite_out in HB.
  assert (H := generateCondForPow_declines_constant CI B Exp rest s HArgs HB).
  split; [exact H|]. apply performCallErrors_declines; auto.
Qed.

Lemma pow_declines_nonpositive_or_infinite_base_witness :
  let CI := sample_call "pow" [ConstantFP DoubleTy (S754_infinity false);
                               sample_arg] in
  generateCondForPow CI LibFunc.pow (sample_state CI)
  = Ok (None, sample_state CI)
  /\ performCallErrors allEnabled CI LibFunc.pow (sample_state CI)
     = Ok (false, sample_state CI).
Proof.
  intros CI.
  exact (pow_declines_nonpositive_or_infinite_base allEnabled CI
           (S754_infinity false) sample_arg [] (sample_state CI)
           eq_refl eq_refl).
Defined.

(* ================================================================== *)
(** ** The loop over the work list *)

Lemma loop_Keeps Opts TLI WL s s' :
  forEach (performStep Opts TLI) WL s = Ok (tt, s') ->
  OptimizeForSize (Fn s') = OptimizeForSize (Fn s) /\ Keeps s s'.
Proof.
  revert s. induction WL as [|CI WL IH]; intros s H.
  - injection H as <-. split; [reflexivity | apply Keeps_refl].
  - cbn [forEach] in H. apply bind_Ok in H. destruct H as ([] & t & Hs & H).
    unfold performStep in Hs. apply bind_Ok in Hs.
    destruct Hs as (b & s1 & Hp & Hs).
    destruct (Preserves_perform1 Opts TLI CI s b s1 Hp) as (_ & _ & HO & HK).
    destruct (IH _ H) as (IO & IK).
    assert (Ht : Fn t = Fn s1) by (destruct b; injection Hs as <-; reflexivity).
    split.
    + now rewrite IO, Ht.
    + intros id. rewrite IK, Ht. apply HK.
Qed.

(** X20.  The loop and its work list.  Processing the work list never
    changes the work list it iterates on; it never clears the flag, and
    when the flag is still unset at the end the whole state is as it was;
    it keeps the attribute of the function; and it neither removes a call
    from the function nor adds one: the identities of the calls of the
    function are the same afterwards. *)
Theorem perform_keeps_work_list Opts TLI s s' :
  perform Opts TLI s = Ok (tt, s') ->
  WorkList s' = WorkList s
  /\ (Changed s = true -> Changed s' = true)
  /\ (Changed s' = false -> s' = s)
  /\ OptimizeForSize (Fn s') = OptimizeForSize (Fn s)
  /\ forall id, hasCall id (Blocks (Fn s')) = hasCall id (Blocks (Fn s)).
Proof.
  intros H. rewrite perform_performStep in H.
  apply bind_Ok in H. destruct H as (WL & t & Hg & H).
  injection Hg as <- <-.
  destruct (loop_Changed _ _ _ _ _ H) as (HW & HC & HU).
  destruct (loop_Keeps _ _ _ _ _ H) as (HO & HK).
  split; [exact HW|]. split; [intros Hc; apply HC; now left|].
  split; [exact HU|]. split; [exact HO | exact HK].
Qed.

Lemma perform_keeps_work_list_witness :
  let CI := sample_call "sqrt" [sample_arg] in
  let s := pushWorkList CI (sample_state CI) in
  let s' := stateOf (perform allEnabled sample_TLI s) s in
  WorkList s' = WorkList s
  /\ (Changed s = true -> Changed s' = true)
  /\ (Changed s' = false -> s' = s)
  /\ OptimizeForSize (Fn s') = OptimizeForSize (Fn s)
  /\ forall id, hasCall id (Blocks (Fn s')) = hasCall id (Blocks (Fn s)).
Proof.
  intros CI s s'.
  exact (perform_keeps_work_list allEnabled sample_TLI s s' eq_refl).
Defined.

(** X21.  Functions outside the tables.  A candidate whose callee resolves
    to a function identity that is in none of the three tables and is not
    a power function, and is not the identity of value zero, is left
    alone: processing it answers [false], changes nothing and fails no
    check, whatever the toggles and whatever its arguments. *)
Theorem function_outside_tables_is_left_alone Opts TLI CI Callee Func s :
  getCalledFunction CI = Some Callee ->
  getLibFunc TLI Callee = Some Func ->
  LibFunc.to_bool Func = true ->
  domainFamily Func = None -> rangeTable Func = None ->
  combinedFamily Func = None -> isPowFamily Func = false ->
  perform1 Opts TLI CI s = Ok (false, s).
Proof.
  intros HC HF HB HD HR HE HP. unfold perform1. rewrite HC, HF, HB.
  cbn [negb].
  rewrite (domain_declines CI Func HD), (range_declines CI Func HR),
    (errors_declines Opts CI Func HE HP).
  destruct (LibCallsShrinkWrapDoDomainError Opts),
    (LibCallsShrinkWrapDoRangeError Opts); reflexivity.
Qed.

Lemma function_outside_tables_is_left_alone_witness :
  let CI := sample_call "getchar" [sample_arg] in
  perform1 allEnabled sample_TLI CI (sample_state CI)
  = Ok (false, sample_state CI).
Proof.
  intros CI.
  exact (function_outside_tables_is_left_alone allEnabled sample_TLI CI
           "getchar"%string (LibFunc.other 5) (sample_state CI)
           eq_refl eq_refl eq_refl eq_refl eq_refl eq_refl eq_refl).
Defined.

(* ================================================================== *)
(** ** What the rewritten function executes *)

Lemma getBlock_app id a b :
  getBlock id (a ++ b)
  = match getBlock id a with
    | Some x => Some x
    | None => getBlock id b
    end.
Proof.
  unfold getBlock. induction a as [|x r IH]; cbn; [reflexivity|].
  destruct (N.eqb (BBId x) id); [reflexivity | exact IH].
Qed.

Lemma getBlock_Some id bs b :
  getBlock id bs = Some b -> In b bs /\ BBId b = id.
Proof.
  unfold getBlock. intros H. apply find_some in H.
  destruct H as [H1 H2]. split; [exact H1 | now apply N.eqb_eq].
Qed.

Lemma noCallIn_In id bs b :
  noCallIn id bs = true -> In b bs -> noCall id (Insts b) = true.
Proof.
  unfold noCallIn. rewrite forallb_forall. auto.
Qed.

Lemma noCall_keptIn id l : noCall id l = true -> noCall id (keptIn l) = true.
Proof.
  unfold noCall, keptIn. induction l as [|i r IH]; cbn; [reflexivity|].
  intros H. apply andb_true_iff in H as [Hi Hr].
  destruct (negb (isInserted i)); cbn; [rewrite Hi|]; auto.
Qed.

Lemma filter_noCall id l :
  noCall id l = true -> filter (fun i => negb (isCall id i)) l = l.
Proof.
  unfold noCall. induction l as [|i r IH]; cbn; [reflexivity|].
  intros H. apply andb_true_iff in H as [Hi Hr].
  now rewrite Hi, (IH Hr).
Qed.

Lemma skipUnless_quiet rho c id here l :
  noCall id here = true ->
  skipUnless rho c id (here ++ l) = here ++ skipUnless rho c id l.
Proof.
  intros H. unfold skipUnless. destruct (evalCond rho c); [reflexivity|].
  now rewrite filter_app, (filter_noCall id here H).
Qed.

Lemma keptIn_app a b : keptIn (a ++ b) = keptIn a ++ keptIn b.
Proof. apply filter_app. Qed.

Lemma keptIn_inserted new : forallb isInserted new = true -> keptIn new = [].
Proof.
  unfold keptIn. induction new as [|i r IH]; cbn; [reflexivity|].
  intros H. apply andb_true_iff in H as [Hi Hr]. rewrite Hi. cbn. auto.
Qed.

Lemma after_Some here r l t :
  after here r = Some (l, t) -> exists l1, r = Some (l1, t) /\ l = here ++ l1.
Proof.
  unfold after. destruct r as [[l1 t1]|]; [|discriminate].
  intros [= <- <-]. eauto.
Qed.

Lemma exec_S_eq n rho bs id :
  exec (S n) rho bs id
  = match getBlock id bs with
    | Some b => after (keptIn (Insts b)) (follow rho (exec n rho bs) (Term b))
    | None => None
    end.
Proof. reflexivity. Qed.

Lemma exec_mono n rho bs :
  forall id r, exec n rho bs id = Some r -> exec (S n) rho bs id = Some r.
Proof.
  induction n as [|n IH]; intros id r H; [discriminate H|].
  rewrite exec_S_eq in H. rewrite exec_S_eq.
  destruct (getBlock id bs) as [b|]; [|discriminate H].
  destruct (follow rho (exec n rho bs) (Term b)) as [p|] eqn:Ef;
    [|discriminate H].
  assert (Ef' : follow rho (exec (S n) rho bs) (Term b) = Some p).
  { destruct (Term b); cbn [follow] in *; first [now apply IH | exact Ef]. }
  now rewrite Ef'.
Qed.

Section Execution.

Variable rho : Value -> spec_float.
Variables (CI : CallInst) (c : Cond) (w : option (N * N)).
Variables (B1 B2 : list BasicBlock) (blk Head CallBB Tail : BasicBlock).
Variables (pre post new : list Instr).

Hypothesis Hins : Insts blk = pre ++ ICall CI :: post.
Hypothesis HB1 : noCallIn (CIId CI) B1 = true.
Hypothesis Hpre : noCall (CIId CI) pre = true.
Hypothesis Hpost : noCall (CIId CI) post = true.
Hypothesis HB2 : noCallIn (CIId CI) B2 = true.
Hypothesis HHid : BBId Head = BBId blk.
Hypothesis HHins : Insts Head = pre ++ new.
Hypothesis Hnew : forallb isInserted new = true.
Hypothesis HHterm : Term Head = CondBr c (BBId CallBB) (BBId Tail) w.
Hypothesis HCins : Insts CallBB = [ICall CI].
Hypothesis HCterm : Term CallBB = Br (BBId Tail).
Hypothesis HTins : Insts Tail = post.
Hypothesis HTterm : Term Tail = Term blk.
Hypothesis HfreshC : (maxId (B1 ++ blk :: B2) < BBId CallBB)%N.
Hypothesis HfreshT : (maxId (B1 ++ blk :: B2) < BBId Tail)%N.
Hypothesis HCT : BBId CallBB <> BBId Tail.

Lemma maxId_parts :
  (maxId B1 <= maxId (B1 ++ blk :: B2))%N
  /\ (BBId blk <= maxId (B1 ++ blk :: B2))%N
  /\ (maxId B2 <= maxId (B1 ++ blk :: B2))%N.
Proof.
  rewrite maxId_app. cbn [maxId fold_right]. fold (maxId B2). lia.
Qed.

Lemma getBlock_CallBB :
  getBlock (BBId CallBB) (B1 ++ Head :: CallBB :: Tail :: B2) = Some CallBB.
Proof.
  destruct maxId_parts as (M1 & M2 & M3).
  rewrite getBlock_other by lia.
  unfold getBlock. cbn [find]. rewrite HHid.
  destruct (N.eqb_spec (BBId blk) (BBId CallBB)); [lia|].
  now rewrite N.eqb_refl.
Qed.

Lemma getBlock_Tail :
  getBlock (BBId Tail) (B1 ++ Head :: CallBB :: Tail :: B2) = Some Tail.
Proof.
  destruct maxId_parts as (M1 & M2 & M3).
  rewrite getBlock_other by lia.
  unfold getBlock. cbn [find]. rewrite HHid.
  destruct (N.eqb_spec (BBId blk) (BBId Tail)); [lia|].
  destruct (N.eqb_spec (BBId CallBB) (BBId Tail)); [contradiction|].
  now rewrite N.eqb_refl.
Qed.

(** The block a run is in, before and after the rewrite: a block that is
    not the one of the call and is the same in both, or the block of the
    call and the head. *)
Lemma getBlock_rewritten id b :
  getBlock id (B1 ++ blk :: B2) = Some b ->
  (getBlock id (B1 ++ Head :: CallBB :: Tail :: B2) = Some b
   /\ noCall (CIId CI) (Insts b) = true)
  \/ (b = blk
      /\ getBlock id (B1 ++ Head :: CallBB :: Tail :: B2) = Some Head).
Proof.
  destruct maxId_parts as (M1 & M2 & M3).
  rewrite !getBlock_app.
  destruct (getBlock id B1) as [b1|] eqn:E1.
  - intros [= <-]. left. split; [reflexivity|].
    apply (noCallIn_In _ _ _ HB1). exact (proj1 (getBlock_Some _ _ _ E1)).
  - unfold getBlock. cbn [find]. rewrite HHid.
    change (find (fun b0 => (BBId b0 =? id)%N) B2) with (getBlock id B2).
    destruct (N.eqb_spec (BBId blk) id) as [Heq|Hne].
    + intros [= <-]. right. auto.
    + intros E2. left.
      destruct (getBlock_Some _ _ _ E2) as (Hin & Hid).
      assert (Hle : (id <= maxId B2)%N)
        by (rewrite <- Hid; now apply maxId_In).
      destruct (N.eqb_spec (BBId CallBB) id); [lia|].
      destruct (N.eqb_spec (BBId Tail) id); [lia|].
      split; [exact E2|].
      exact (noCallIn_In _ _ _ HB2 Hin).
Qed.

Lemma follow_rewritten n tm l t :
  (forall start l t,
     exec n rho (B1 ++ blk :: B2) start = Some (l, t) ->
     exists m,
       exec m rho (B1 ++ Head :: CallBB :: Tail :: B2) start
       = Some (skipUnless rho c (CIId CI) l, t)) ->
  follow rho (exec n rho (B1 ++ blk :: B2)) tm = Some (l, t) ->
  exists m,
    follow rho (exec m rho (B1 ++ Head :: CallBB :: Tail :: B2)) tm
    = Some (skipUnless rho c (CIId CI) l, t).
Proof.
  intros IH. destruct tm as [d | c0 ift iff w0 | t0]; cbn [follow].
  - apply IH.
  - apply IH.
  - intros [= <- <-]. exists 0%nat. unfold skipUnless.
    now destruct (evalCond rho c).
Qed.

Lemma follow_mono m bs tm r :
  follow rho (exec m rho bs) tm = Some r ->
  follow rho (exec (S m) rho bs) tm = Some r.
Proof.
  destruct tm; cbn [follow]; first [apply exec_mono | auto].
Qed.

Lemma exec_rewritten n :
  forall start l t,
    exec n rho (B1 ++ blk :: B2) start = Some (l, t) ->
    exists m,
      exec m rho (B1 ++ Head :: CallBB :: Tail :: B2) start
      = Some (skipUnless rho c (CIId CI) l, t).
Proof.
  induction n as [|n IH]; intros start l t H; [discriminate H|].
  rewrite exec_S_eq in H.
  destruct (getBlock start (B1 ++ blk :: B2)) as [b|] eqn:E; [|discriminate H].
  apply after_Some in H. destruct H as (l1 & Hf & ->).
  destruct (follow_rewritten n (Term b) l1 t IH Hf) as (m & Hm).
  destruct (getBlock_rewritten _ _ E) as [(E' & Hq) | (-> & E')].
  - exists (S m). rewrite exec_S_eq, E', Hm. cbn [after].
    now rewrite (skipUnless_quiet rho c _ _ l1 (noCall_keptIn _ _ Hq)).
  - rewrite Hins, keptIn_app. cbn [keptIn filter isInserted negb].
    fold (keptIn post).
    assert (HT : exec (S m) rho (B1 ++ Head :: CallBB :: Tail :: B2) (BBId Tail)
                 = Some (keptIn post ++ skipUnless rho c (CIId CI) l1, t)).
    { rewrite exec_S_eq, getBlock_Tail, HTins, HTterm, Hm. reflexivity. }
    assert (HT' := exec_mono _ _ _ _ _ HT).
    assert (HC : exec (S (S m)) rho (B1 ++ Head :: CallBB :: Tail :: B2)
                   (BBId CallBB)
                 = Some (ICall CI :: keptIn post ++ skipUnless rho c (CIId CI) l1,
                         t)).
    { rewrite exec_S_eq, getBlock_CallBB, HCins, HCterm. cbn [follow].
      rewrite HT. reflexivity. }
    exists (S (S (S m))).
    rewrite exec_S_eq, E', HHins, HHterm, keptIn_app,
      (keptIn_inserted new Hnew), app_nil_r.
    cbn [follow]. rewrite <- app_assoc.
    rewrite (skipUnless_quiet rho c _ (keptIn pre) _ (noCall_keptIn _ _ Hpre)).
    unfold skipUnless at 1. destruct (evalCond rho c) eqn:Ec.
    + rewrite HC. cbn [after]. unfold skipUnless. rewrite Ec. reflexivity.
    + rewrite HT'. cbn [after].
      cbn [filter app isCall]. rewrite N.eqb_refl. cbn [negb].
      rewrite filter_app, (filter_noCall _ _ (noCall_keptIn _ _ Hpost)).
      unfold skipUnless. rewrite Ec. reflexivity.
Qed.

End Execution.

Lemma notIn_noCall id l :
  ~ In id (map CIId (callsIn l)) -> noCall id l = true.
Proof.
  unfold noCall. induction l as [|i r IH]; [reflexivity|].
  destruct i as [CI0| | |]; cbn [callsIn flat_map app map forallb isCall negb];
    fold (callsIn r); try exact IH.
  intros H. destruct (N.eqb_spec (CIId CI0) id) as [Heq|Hne].
  - exfalso. apply H. now left.
  - cbn [negb andb]. apply IH. intros Hin. apply H. now right.
Qed.

Lemma notIn_noCallIn id bs :
  ~ In id (map CIId (callsOf bs)) -> noCallIn id bs = true.
Proof.
  unfold noCallIn. induction bs as [|b r IH]; [reflexivity|].
  cbn [callsOf flat_map forallb]. fold (callsOf r).
  rewrite map_app. intros H.
  rewrite notIn_noCall, IH; [reflexivity | |];
    intros Hin; apply H; apply in_app_iff; auto.
Qed.

Lemma NoDup_calls_after CI B1 blk pre post B2 :
  Insts blk = pre ++ ICall CI :: post ->
  NoDup (map CIId (callsOf (B1 ++ blk :: B2))) ->
  noCall (CIId CI) post = true /\ noCallIn (CIId CI) B2 = true.
Proof.
  intros Hins HN.
  unfold callsOf in HN. rewrite flat_map_app in HN. cbn [flat_map] in HN.
  fold (callsOf B1) in HN. fold (callsOf B2) in HN.
  rewrite Hins, callsIn_app in HN. cbn [callsIn flat_map app] in HN.
  fold (callsIn post) in HN.
  rewrite <- !app_assoc in HN. cbn [app] in HN.
  rewrite app_assoc, map_app in HN. cbn [map] in HN.
  apply NoDup_remove_2 in HN.
  rewrite (map_app CIId (callsIn post)) in HN.
  split; [apply notIn_noCall | apply notIn_noCallIn];
    intros Hin; apply HN; rewrite !in_app_iff; auto.
Qed.

(** X22.  What the rewritten function executes.  Take a function whose
    calls have distinct identities, and a call of it that processing
    rewrites under the predicate [c].  Then every run of the old function
    that ends, from any block and for any values of what is not a
    constant, fixed during the run, is matched by a run of the new
    function from the same block that ends on the same terminator; the
    instructions it executes, leaving aside the
    comparisons and ors built by the pass, are those of the old run, in
    the same order, when [c] holds, and those of the old run without the
    executions of the call when [c] does not hold.  So the call is
    executed exactly when the predicate holds, and nothing else
    changes. *)
Theorem guarded_call_runs_iff_predicate Opts TLI CI s s' :
  perform1 Opts TLI CI s = Ok (true, s') ->
  In CI (callsOf (Blocks (Fn s))) ->
  NoDup (map CIId (callsOf (Blocks (Fn s)))) ->
  exists L c,
    Located (CIId CI) s L
    /\ branchesOn s' (BBId (LBlock L)) c
    /\ forall rho n start l t,
         exec n rho (Blocks (Fn s)) start = Some (l, t) ->
         exists m,
           exec m rho (Blocks (Fn s')) start
           = Some (skipUnless rho c (CIId CI) l, t).
Proof.
  intros H HIn HN.
  destruct (perform1_Rewritten _ _ _ _ _ H) as (Callee & Func & _ & _ & HR).
  destruct (Rewritten_state _ _ _ _ HR) as (L & c & HL & _ & _ & HB & _).
  exists L, c. split; [exact HL|].
  split; [exact (guarded_branchesOn _ _ _ _ _ HB)|].
  destruct (locate_Some _ _ _ HL) as (Hbs & Hins & Hx & Hpre & HB1).
  intros rho n start l t He.
  rewrite HB, guarded_addPre. rewrite Hbs in He, HN, HIn.
  destruct (LInst L) as [CI0| | |] eqn:EI; try discriminate Hx.
  cbn [isCall] in Hx. apply N.eqb_eq in Hx.
  assert (HIn0 : In CI0 (callsOf (LBefore L ++ LBlock L :: LAfter L))).
  { unfold callsOf. rewrite flat_map_app. cbn [flat_map].
    rewrite Hins, callsIn_app. cbn [callsIn flat_map app].
    rewrite !in_app_iff. right. left. right. now left. }
  assert (CI0 = CI) by exact (NoDup_map_inj CIId _ CI0 CI HN HIn0 HIn Hx).
  subst CI0.
  destruct (NoDup_calls_after CI _ _ _ _ _ Hins HN) as (Hpost & HB2).
  apply (exec_rewritten rho CI c (Some (1, 2000)%N) (LBefore L) (LAfter L)
           (LBlock L) _ _ _ (LPre L) (LPost L) (code c)
           Hins HB1 Hpre Hpost HB2) with (n := n); try reflexivity.
  - apply code_isInserted.
  - cbn [BBId]. unfold blocksOf, freshId.
    fold (maxId (LBefore L ++ LBlock L :: LAfter L)). lia.
  - cbn [BBId]. unfold blocksOf, freshId.
    fold (maxId (LBefore L ++ LBlock L :: LAfter L)). lia.
  - cbn [BBId]. lia.
  - exact He.
Qed.

Lemma guarded_call_runs_iff_predicate_witness :
  let CI := sample_call "sqrt" [sample_arg] in
  let s := sample_state CI in
  let s' := stateOf (perform1 allEnabled sample_TLI CI s) s in
  exists L c,
    Located (CIId CI) s L
    /\ branchesOn s' (BBId (LBlock L)) c
    /\ forall rho n start l t,
         exec n rho (Blocks (Fn s)) start = Some (l, t) ->
         exists m,
           exec m rho (Blocks (Fn s')) start
           = Some (skipUnless rho c (CIId CI) l, t).
Proof.
  intros CI s s'.
  apply (guarded_call_runs_iff_predicate allEnabled sample_TLI CI s s').
  - reflexivity.
  - cbn. now left.
  - cbn. constructor; [intros []|constructor].
Defined.

(* ================================================================== *)
(** ** The decision on a function that is not a power function *)









